(** * The VQAv2 dataset reader: answer scoring, instance construction,
      annotation caching and split reading

    A shallow embedding of
    [allennlp_models/vision/dataset_readers/vqav2.py] and of the decoding
    comparison exercised by
    [tests/generation/models/simple_seq2seq_test.py].

    Python objects are modelled as follows.
    - [int] is [Z]; [str] is [string], its characters being code points
      below 256.
    - a [float] produced by [count / 3] is the exact rational [Q]: the
      quotient is monotone in [count] and exact at 0 and at multiples of 3,
      which is all the properties below depend on.
    - a [dict] (and a [Counter]) is an association list in insertion order
      with one entry per key; [frozenset] is [gset]; the dictionaries that
      are only looked up ([self.images], the on-disk cache) are [gmap]s.
    - a generator is the list of the values it yields together with the
      exception, if any, that ends it. *)

From Stdlib Require Import QArith Qminmax Ascii String Sorted.
From stdpp Require Import gmap strings list fin_maps.

Set Warnings "-register-all".
Local Open Scope Z_scope.

(** ** [get_score] *)

(** Python's two-argument [min]: the second argument is returned only when
    it is strictly smaller than the first. *)
Definition py_min (a b : Q) : Q :=
  if Qle_bool a b then a else b.

(** [count / 3] on integers is true division. *)
Definition true_div (a b : Z) : Q := (inject_Z a / inject_Z b)%Q.

(** [def get_score(count: int) -> float: return min(1.0, count / 3)] *)
Definition get_score (count : Z) : Q := py_min 1%Q (true_div count 3).

(** ** Python dictionaries

    A [dict] keeps its keys in insertion order and holds one entry per
    key.  [d[k] = v] overwrites in place or appends. *)

Section Dict.
Context {K V : Type} `{EqDecision K}.

Fixpoint dict_get (k : K) (d : list (K * V)) : option V :=
  match d with
  | [] => None
  | (k', v) :: d' => if decide (k = k') then Some v else dict_get k d'
  end.

Fixpoint dict_set (k : K) (v : V) (d : list (K * V)) : list (K * V) :=
  match d with
  | [] => [(k, v)]
  | (k', v') :: d' =>
      if decide (k = k') then (k', v) :: d' else (k', v') :: dict_set k v d'
  end.

(** [dict(pairs)]: later pairs overwrite earlier ones with the same key.
    This is also how [json.load] builds a [dict] from a JSON object. *)
Definition dict_of_items (items : list (K * V)) : list (K * V) :=
  fold_left (fun d kv => dict_set kv.1 kv.2 d) items [].

Definition dict_keys (d : list (K * V)) : list K := d.*1.
Definition dict_values (d : list (K * V)) : list V := d.*2.
End Dict.

(** [c[k] += 1] on a [Counter]: a missing key counts as 0. *)
Definition counter_incr (k : string) (c : list (string * Z)) : list (string * Z) :=
  dict_set k (default 0 (dict_get k c) + 1) c.

(** [sum(c.values())] *)
Definition counter_total (c : list (string * Z)) : Z :=
  foldr Z.add 0 (dict_values c).

(** [c[k]] on a [Counter], which answers 0 for a missing key. *)
Definition counter_get (k : string) (c : list (string * Z)) : Z :=
  default 0 (dict_get k c).

(** ** Decimal digits *)

Definition is_digit (c : ascii) : bool :=
  (48 <=? nat_of_ascii c)%nat && (nat_of_ascii c <=? 57)%nat.

Definition digit_value (c : ascii) : Z := Z.of_nat (nat_of_ascii c) - 48.

(** The number spelled by a string of decimal digits. *)
Definition decimal_value (digits : list ascii) : Z :=
  fold_left (fun n c => 10 * n + digit_value c) digits 0.

(** ** JSON documents read and written by the reader *)

(** One entry of [annotations["annotations"]]; [a_answers] lists
    [answer_dict["answer"]] for the entries of [a["answers"]]. *)
Record annotation := {
  a_question_id : Z;
  a_multiple_choice_answer : string;
  a_answers : list string
}.

(** The annotation that counts for a question id: the last one that
    carries it. *)
Definition annotation_for (qid : Z) (annotations : list annotation) : option annotation :=
  last (List.filter (fun a => bool_decide (a_question_id a = qid)) annotations).

(** One entry of [questions_file["questions"]]. *)
Record question_dict := {
  question_id : Z;
  image_id : Z;
  question : string
}.

(** *** JSON text

    [json.dump] and [json.load], restricted to what the cache holds: an
    object whose values are objects whose values are integers.  Text is a
    list of characters, a character being a code point below 256.  The
    writer is [json.dump] with its defaults (separators [", "] and [": "],
    [ensure_ascii]); the reader accepts JSON text of that shape and
    rejects everything else. *)

Definition quote : ascii := ascii_of_nat 34.
Definition backslash : ascii := ascii_of_nat 92.

(** The characters of [str(n)] for a natural number, most significant
    digit first. *)
Definition digit_char (d : N) : ascii := ascii_of_N (48 + d).

Fixpoint decimal_digits (fuel : nat) (n : N) (acc : list ascii) : list ascii :=
  match fuel with
  | O => acc
  | S fuel' =>
      let acc' := digit_char (n mod 10) :: acc in
      if (n / 10 =? 0)%N then acc' else decimal_digits fuel' (n / 10)%N acc'
  end.

Definition str_N (n : N) : list ascii := decimal_digits (S (N.to_nat (N.log2 n))) n [].

(** The characters of [str(z)] for an [int]; also how [json.dump] writes
    an [int]. *)
Definition str_int (z : Z) : list ascii :=
  match z with
  | Z0 => str_N 0
  | Zpos p => str_N (Npos p)
  | Zneg p => "-"%char :: str_N (Npos p)
  end.

(** [str(z)] *)
Definition py_str (z : Z) : string := string_of_list_ascii (str_int z).

Definition hex_digit (n : nat) : ascii :=
  nth n (list_ascii_of_string "0123456789abcdef") "0"%char.

(** One character of a string literal under [ensure_ascii]: the short
    escapes, [\u00xx] for the other characters outside [' '..'~'], the
    character itself otherwise. *)
Definition escape_char (c : ascii) : list ascii :=
  let n := nat_of_ascii c in
  if (n =? 34)%nat then [backslash; quote]
  else if (n =? 92)%nat then [backslash; backslash]
  else if (n =? 10)%nat then [backslash; "n"%char]
  else if (n =? 13)%nat then [backslash; "r"%char]
  else if (n =? 9)%nat then [backslash; "t"%char]
  else if (n =? 8)%nat then [backslash; "b"%char]
  else if (n =? 12)%nat then [backslash; "f"%char]
  else if (n <? 32)%nat || (126 <? n)%nat
       then [backslash; "u"%char; "0"%char; "0"%char; hex_digit (n / 16); hex_digit (n mod 16)]
  else [c].

Definition encode_string (s : string) : list ascii :=
  quote :: flat_map escape_char (list_ascii_of_string s) ++ [quote].

(** The members of an object, separated by [", "], each written
    [name: value]. *)
Fixpoint encode_members {V} (encode_value : V -> list ascii) (members : list (string * V))
  : list ascii :=
  match members with
  | [] => []
  | [(k, v)] => encode_string k ++ ":"%char :: " "%char :: encode_value v
  | (k, v) :: rest =>
      encode_string k ++ ":"%char :: " "%char :: encode_value v
        ++ ","%char :: " "%char :: encode_members encode_value rest
  end.

Definition encode_object {V} (encode_value : V -> list ascii) (members : list (string * V))
  : list ascii :=
  "{"%char :: encode_members encode_value members ++ ["}"%char].

(** [json.dump] of a [dict] of [Counter]s with [str] keys and [int]
    counts: the items are written in iteration order. *)
Definition json_dump (d : list (string * list (string * Z))) : list ascii :=
  encode_object (encode_object str_int) d.

(** JSON whitespace. *)
Definition is_ws (c : ascii) : bool :=
  let n := nat_of_ascii c in
  (n =? 32)%nat || (n =? 9)%nat || (n =? 10)%nat || (n =? 13)%nat.

Fixpoint skip_ws (s : list ascii) : list ascii :=
  match s with
  | c :: s' => if is_ws c then skip_ws s' else s
  | [] => []
  end.

Definition hex_value (c : ascii) : option nat :=
  let n := nat_of_ascii c in
  if (48 <=? n)%nat && (n <=? 57)%nat then Some (n - 48)%nat
  else if (97 <=? n)%nat && (n <=? 102)%nat then Some (n - 87)%nat
  else if (65 <=? n)%nat && (n <=? 70)%nat then Some (n - 55)%nat
  else None.

Definition simple_escape (c : ascii) : option ascii :=
  let n := nat_of_ascii c in
  if (n =? 34)%nat then Some quote
  else if (n =? 92)%nat then Some backslash
  else if (n =? 47)%nat then Some "/"%char
  else if (n =? 98)%nat then Some (ascii_of_nat 8)
  else if (n =? 102)%nat then Some (ascii_of_nat 12)
  else if (n =? 110)%nat then Some (ascii_of_nat 10)
  else if (n =? 114)%nat then Some (ascii_of_nat 13)
  else if (n =? 116)%nat then Some (ascii_of_nat 9)
  else None.

Definition prepend (c : ascii) (r : option (list ascii * list ascii))
  : option (list ascii * list ascii) :=
  match r with
  | Some (str, rest) => Some (c :: str, rest)
  | None => None
  end.

(** The rest of a string literal after its opening quote: the decoded
    characters and the text behind the closing quote.  Unescaped control
    characters are refused, as are code points from 256 on. *)
Fixpoint scan_string (s : list ascii) : option (list ascii * list ascii) :=
  match s with
  | [] => None
  | c :: s' =>
      let n := nat_of_ascii c in
      if (n =? 34)%nat then Some ([], s')
      else if (n =? 92)%nat then
        match s' with
        | e :: s'' =>
            match simple_escape e with
            | Some d => prepend d (scan_string s'')
            | None =>
                if (nat_of_ascii e =? 117)%nat then
                  match s'' with
                  | h1 :: h2 :: h3 :: h4 :: s3 =>
                      match hex_value h1, hex_value h2, hex_value h3, hex_value h4 with
                      | Some a, Some b, Some c, Some d =>
                          let code := (((a * 16 + b) * 16 + c) * 16 + d)%nat in
                          if (code <? 256)%nat
                          then prepend (ascii_of_nat code) (scan_string s3)
                          else None
                      | _, _, _, _ => None
                      end
                  | _ => None
                  end
                else None
            end
        | [] => None
        end
      else if (n <? 32)%nat then None
      else prepend c (scan_string s')
  end.

Fixpoint span_digits (s : list ascii) : list ascii * list ascii :=
  match s with
  | c :: s' => if is_digit c then let '(ds, rest) := span_digits s' in (c :: ds, rest)
               else ([], s)
  | [] => ([], [])
  end.

Definition starts_fraction (s : list ascii) : bool :=
  match s with
  | c :: _ => let n := nat_of_ascii c in (n =? 46)%nat || (n =? 101)%nat || (n =? 69)%nat
  | [] => false
  end.

(** An unsigned integer literal: no leading zero, and no fraction or
    exponent behind it (that would be a [float]). *)
Definition scan_digits (s : list ascii) : option (Z * list ascii) :=
  let '(ds, rest) := span_digits s in
  match ds with
  | [] => None
  | d :: ds' =>
      if (Ascii.eqb d "0" && negb (bool_decide (ds' = []))) || starts_fraction rest
      then None
      else Some (decimal_value ds, rest)
  end.

Definition scan_int (s : list ascii) : option (Z * list ascii) :=
  match skip_ws s with
  | c :: s' =>
      if Ascii.eqb c "-" then
        match scan_digits s' with
        | Some (n, rest) => Some (- n, rest)
        | None => None
        end
      else scan_digits (c :: s')
  | [] => None
  end.

(** The members of an object from the first name on, up to and including
    the closing brace.  [fuel] bounds the number of members. *)
Fixpoint parse_members {V} (parse_value : list ascii -> option (V * list ascii))
    (fuel : nat) (s : list ascii) (acc : list (string * V))
  : option (list (string * V) * list ascii) :=
  match fuel with
  | O => None
  | S fuel' =>
      match skip_ws s with
      | q :: s1 =>
          if Ascii.eqb q quote then
            match scan_string s1 with
            | Some (name, s2) =>
                match skip_ws s2 with
                | colon :: s3 =>
                    if Ascii.eqb colon ":" then
                      match parse_value s3 with
                      | Some (v, s4) =>
                          let acc' := acc ++ [(string_of_list_ascii name, v)] in
                          match skip_ws s4 with
                          | sep :: s5 =>
                              if Ascii.eqb sep "," then parse_members parse_value fuel' s5 acc'
                              else if Ascii.eqb sep "}" then Some (acc', s5)
                              else None
                          | [] => None
                          end
                      | None => None
                      end
                    else None
                | [] => None
                end
            | None => None
            end
          else None
      | [] => None
      end
  end.

Definition parse_object {V} (parse_value : list ascii -> option (V * list ascii))
    (fuel : nat) (s : list ascii) : option (list (string * V) * list ascii) :=
  match skip_ws s with
  | brace :: s1 =>
      if Ascii.eqb brace "{" then
        match skip_ws s1 with
        | close :: s2 =>
            if Ascii.eqb close "}" then Some ([], s2)
            else parse_members parse_value fuel s1 []
        | [] => None
        end
      else None
  | [] => None
  end.

(** The whole text is one object of objects of integers. *)
Definition parse_doc (text : list ascii)
  : option (list (string * list (string * Z))) :=
  match parse_object (parse_object scan_int (length text)) (length text) text with
  | Some (members, rest) =>
      match skip_ws rest with
      | [] => Some members
      | _ :: _ => None
      end
  | None => None
  end.

(** [json.load]: every object becomes a [dict], a repeated name keeping
    its last value.  [None] stands for text that is not of the expected
    form. *)
Definition json_load (text : list ascii) : option (list (string * list (string * Z))) :=
  match parse_doc text with
  | Some members =>
      Some (dict_of_items (map (fun kv => (kv.1, dict_of_items kv.2)) members))
  | None => None
  end.

(** What may follow a value inside an object. *)
Definition follow_ok (rest : list ascii) : Prop :=
  exists c tail, rest = c :: tail /\ (c = ","%char \/ c = "}"%char).

(** [class Split(NamedTuple)] *)
Record Split := {
  annotations : option string;
  questions : string
}.

Definition aws_base : string := "https://s3.amazonaws.com/cvmlp/vqa/".
Definition mscoco_base : string := aws_base +:+ "mscoco/vqa/".
Definition scene_base : string := aws_base +:+ "abstract_v002/vqa/".

Definition splits : list (string * Split) := [
  ("balanced_real_train", {|
     annotations := Some (mscoco_base +:+ "v2_Annotations_Train_mscoco.zip!v2_mscoco_train2014_annotations.json");
     questions := mscoco_base +:+ "v2_Questions_Train_mscoco.zip!v2_OpenEnded_mscoco_train2014_questions.json" |});
  ("balanced_real_val", {|
     annotations := Some (mscoco_base +:+ "v2_Annotations_Val_mscoco.zip!v2_mscoco_val2014_annotations.json");
     questions := mscoco_base +:+ "v2_Questions_Val_mscoco.zip!v2_OpenEnded_mscoco_val2014_questions.json" |});
  ("balanced_real_test", {|
     annotations := None;
     questions := mscoco_base +:+ "v2_Questions_Test_mscoco.zip!v2_OpenEnded_mscoco_test2015_questions.json" |});
  ("balanced_bas_train", {|
     annotations := Some (scene_base +:+ "Annotations_Binary_Train2017_abstract_v002.zip!abstract_v002_train2017_annotations.json");
     questions := scene_base +:+ "Questions_Binary_Train2017_abstract_v002.zip!OpenEnded_abstract_v002_train2017_questions.json" |});
  ("balanced_bas_val", {|
     annotations := Some (scene_base +:+ "Annotations_Binary_Val2017_abstract_v002.zip!abstract_v002_val2017_annotations.json");
     questions := scene_base +:+ "Questions_Binary_Val2017_abstract_v002.zip!OpenEnded_abstract_v002_val2017_questions.json" |});
  ("abstract_scenes_train", {|
     annotations := Some (scene_base +:+ "Annotations_Train_abstract_v002.zip!abstract_v002_train2015_annotations.json");
     questions := scene_base +:+ "Questions_Train_abstract_v002.zip!OpenEnded_abstract_v002_train2015_questions.json" |});
  ("abstract_scenes_val", {|
     annotations := Some (scene_base +:+ "Annotations_Val_abstract_v002.zip!abstract_v002_val2015_annotations.json");
     questions := scene_base +:+ "Questions_Val_abstract_v002.zip!OpenEnded_abstract_v002_val2015_questions.json" |});
  ("abstract_scenes_test", {|
     annotations := None;
     questions := scene_base +:+ "Questions_Test_abstract_v002.zip!OpenEnded_abstract_v002_test2015_questions.json" |});
  ("unittest", {|
     annotations := Some "test_fixtures/vision/vqav2/annotations.json";
     questions := "test_fixtures/vision/vqav2/questions.json" |})
].

(** ** Exceptions, the file system, generators *)

Inductive exn :=
| ValueError (msg : string)
| KeyError (key : Z)          (* [KeyError(missing_id, "We could not find ...")] *)
| OSError (path : string).    (* a file that cannot be fetched, opened or parsed *)

(** What the reader sees of the outside world.  [cached_path] resolves a
    URL or file name to a local path; the two [read_*] fields give the
    parsed content of a local JSON file; [cache] is the
    [LocalCacheResource] store, keyed by resource name and version. *)
Record world := {
  cached_path : string -> option string;
  read_annotations : string -> option (list annotation);
  read_questions : string -> option (list question_dict);
  cache : gmap (string * string) (list ascii)
}.

Definition write_cache (key : string * string) (doc : list ascii) (w : world) : world :=
  {| cached_path := cached_path w;
     read_annotations := read_annotations w;
     read_questions := read_questions w;
     cache := <[key := doc]> (cache w) |}.

(** Code that may raise and may touch the world. *)
Definition M (A : Type) : Type := world -> (exn + A) * world.

Definition ret {A} (a : A) : M A := fun w => (inr a, w).
Definition raise {A} (e : exn) : M A := fun w => (inl e, w).
Definition bind {A B} (m : M A) (f : A -> M B) : M B :=
  fun w => match m w with
           | (inl e, w') => (inl e, w')
           | (inr a, w') => f a w'
           end.
Definition get_world : M world := fun w => (inr w, w).
Definition put_cache (key : string * string) (doc : list ascii) : M unit :=
  fun w => (inr tt, write_cache key doc w).

Notation "'let*' x := m 'in' k" := (bind m (fun x => k))
  (at level 10, x name, m at level 100, k at level 200, only parsing).

(** [cached_path(url, extract_archive=True)] *)
Definition fetch (url : string) : M string :=
  fun w => match cached_path w url with
           | Some p => (inr p, w)
           | None => (inl (OSError url), w)
           end.

(** [open(path)] followed by [json.load], for the two kinds of file. *)
Definition load_annotations (path : string) : M (list annotation) :=
  fun w => match read_annotations w path with
           | Some a => (inr a, w)
           | None => (inl (OSError path), w)
           end.

Definition load_questions (path : string) : M (list question_dict) :=
  fun w => match read_questions w path with
           | Some q => (inr q, w)
           | None => (inl (OSError path), w)
           end.

(** A generator run to exhaustion: what it yielded, and the exception that
    ended it, if one did. *)
Record generated (A : Type) := {
  yielded : list A;
  raised : option exn
}.
Arguments yielded {A} _.
Arguments raised {A} _.

(** Running one generator after another ([yield from] in a loop,
    [itertools.chain]): the second runs only if the first ends normally. *)
Definition chain {A} (g1 g2 : generated A) : generated A :=
  match raised g1 with
  | Some e => g1
  | None => {| yielded := yielded g1 ++ yielded g2; raised := raised g2 |}
  end.

Definition empty_generator {A} : generated A := {| yielded := []; raised := None |}.

(** ** Fields and instances *)

Section Fields.
Context {token tensor : Type}.

(** The tensors an [ArrayField] of this reader can hold. *)
Inductive array :=
| Tensor (t : tensor)
    (* a tensor computed by the image featurizer *)
| NewOnesBool (like : tensor)
    (* [like.new_ones((like.shape[0],), dtype=torch.bool)] *)
| TorchTensor (values : list Q).
    (* [torch.tensor(values)] *)

Inductive Field :=
| TextField (tokens : list token)
| ArrayField (a : array)
| LabelField (label : string) (label_namespace : string)
| ListField (field_list : list Field).

(** [Instance(fields)] *)
Record instance := mkInstance { fields : list (string * Field) }.

(** [Tuple[Tensor, Tensor, Optional[Tensor], Optional[Tensor]]] *)
Definition processed_image : Type := tensor * tensor * option tensor * option tensor.
End Fields.
Arguments array : clear implicits.
Arguments Field : clear implicits.
Arguments instance : clear implicits.
Arguments processed_image : clear implicits.

(** ** Components the reader is given

    The tokenizer, [utils.preprocess_answer], [utils.get_data_slice],
    list slicing, [DatasetReader.shard_iterable] and the image featurizer
    behind [VisionReader._process_image_paths] are not part of the file
    under study; the reader is parametric in them. *)
Record Externals := {
  token : Type;
  tensor : Type;
  slice : Type;
  tokenize : string -> list token;
  preprocess_answer : string -> string;
  get_data_slice : string -> slice * string;
  apply_slice : slice -> list question_dict -> list question_dict;
  shard_iterable : list question_dict -> list question_dict;
  featurize : bool -> string -> processed_image tensor
}.

(** ** The reader *)

(** A key of [self.images]: a file name as [VisionReader] stores it, or,
    once [__init__] has normalized the dictionary, an [Optional[int]]. *)
Abbreviation image_key := (string + option Z)%type.

(** The attributes of [self] that the methods below read. *)
Record VQAv2Reader := {
  answer_vocab : option (gset string);
  produce_featurized_images : bool;
  images : gmap image_key string;
  multiple_answers_per_question : bool
}.

(** ** Regular expressions, as far as [filename_re] uses them

    A backtracking matcher in the manner of Python's [re]: quantifiers are
    greedy, the left alternative is tried first, and a group records the
    text its body consumed on the path that finally succeeds. *)

Inductive char_class :=
| AnyChar                 (* [.] : anything but a newline *)
| DigitChar               (* [\d], on ASCII text: one of 0..9 *)
| Literal (c : ascii).    (* an ordinary or escaped character *)

Definition newline : ascii := ascii_of_nat 10.

Definition in_class (cl : char_class) (c : ascii) : bool :=
  match cl with
  | AnyChar => negb (Ascii.eqb c newline)
  | DigitChar => is_digit c
  | Literal c' => Ascii.eqb c c'
  end.

Inductive regex :=
| Class (cl : char_class)
| Star (cl : char_class)            (* [cl*] *)
| Repeat (n : nat) (r : regex)      (* [r{n}] *)
| Seq (r1 r2 : regex)
| Alt (r1 r2 : regex)               (* [r1|r2] *)
| Group (index : nat) (r : regex).  (* [(r)], numbered by its opening parenthesis *)

Abbreviation captures := (gmap nat (list ascii)).

Fixpoint star_match (cl : char_class) (s : list ascii)
    (k : list ascii -> captures -> option captures) (caps : captures)
  : option captures :=
  match s with
  | c :: s' =>
      if in_class cl c then
        match star_match cl s' k caps with
        | Some m => Some m
        | None => k s caps
        end
      else k s caps
  | [] => k s caps
  end.

Fixpoint re_match (r : regex) (s : list ascii)
    (k : list ascii -> captures -> option captures) (caps : captures)
    {struct r} : option captures :=
  match r with
  | Class cl =>
      match s with
      | c :: s' => if in_class cl c then k s' caps else None
      | [] => None
      end
  | Star cl => star_match cl s k caps
  | Repeat n r' =>
      (fix rep (n : nat) (s : list ascii)
           (k : list ascii -> captures -> option captures) (caps : captures)
         : option captures :=
         match n with
         | O => k s caps
         | S n' => re_match r' s (fun s' caps' => rep n' s' k caps') caps
         end) n s k caps
  | Seq r1 r2 => re_match r1 s (fun s' caps' => re_match r2 s' k caps') caps
  | Alt r1 r2 =>
      match re_match r1 s k caps with
      | Some m => Some m
      | None => re_match r2 s k caps
      end
  | Group index r' =>
      re_match r' s
        (fun s' caps' => k s' (<[index := take (length s - length s') s]> caps'))
        caps
  end.

(** The continuation that accepts at the end of the string only. *)
Definition end_of_string (rest : list ascii) (caps : captures) : option captures :=
  match rest with [] => Some caps | _ => None end.

(** [pattern.fullmatch(string)]: the whole string has to be consumed. *)
Definition fullmatch (pattern : regex) (s : string) : option captures :=
  re_match pattern (list_ascii_of_string s) end_of_string ∅.

Definition lit (s : string) : regex :=
  match list_ascii_of_string s with
  | [] => Repeat 0 (Class AnyChar)
  | c :: cs => fold_left (fun r c' => Seq r (Class (Literal c'))) cs (Class (Literal c))
  end.

(** [re.compile(r".*(\d{12})\.((jpg)|(png))")] *)
Definition filename_re : regex :=
  Seq (Star AnyChar)
   (Seq (Group 1 (Repeat 12 (Class DigitChar)))
    (Seq (Class (Literal "."))
         (Group 2 (Alt (Group 3 (lit "jpg")) (Group 4 (lit "png")))))).

(** The two endings [filename_re] allows. *)
Definition extension (ext : list ascii) : Prop :=
  ext = ["j"; "p"; "g"]%char \/ ext = ["p"; "n"; "g"]%char.

(** [int(s)] on a string of decimal digits. *)
Definition py_int (s : list ascii) : option Z :=
  if forallb is_digit s && negb (bool_decide (s = []))
  then Some (decimal_value s)
  else None.

(** [id_from_filename], the local function of [__init__]. *)
Definition id_from_filename (filename : string) : option Z :=
  match fullmatch filename_re filename with
  | None => None
  | Some m => m !! 1%nat ≫= py_int
  end.

Section Reader.
Variable X : Externals.

(** Modelled from the spec: [VisionReader._process_image_paths], which is
    missing from the sources.  The reader "performs image/question/answer
    alignment" over the featurizer's results: the generator yields one
    processed image per path, in the order of the paths. *)
Definition _process_image_paths (image_paths : list string) (use_cache : bool)
  : list (processed_image (tensor X)) :=
  map (featurize X use_cache) image_paths.

(** [answer in self.answer_vocab], guarded by [self.answer_vocab is None]. *)
Definition answer_allowed (self : VQAv2Reader) (answer : string) : bool :=
  match answer_vocab self with
  | None => true
  | Some vocab => bool_decide (answer ∈ vocab)
  end.

(** The loop over [answer_counts.items()]: the two lists grow together. *)
Fixpoint collect_answers (self : VQAv2Reader) (items : list (string * Z))
    (answer_fields : list (Field (token X) (tensor X))) (weights : list Q)
  : list (Field (token X) (tensor X)) * list Q :=
  match items with
  | [] => (answer_fields, weights)
  | (answer, count) :: items' =>
      if answer_allowed self answer
      then collect_answers self items'
             (answer_fields ++ [LabelField answer "answers"])
             (weights ++ [get_score count])
      else collect_answers self items' answer_fields weights
  end.

(** [text_to_instance(self, question, image, answer_counts, *, use_cache)].
    [image] is [None], a path, or an already processed image. *)
Definition text_to_instance (self : VQAv2Reader) (question : string)
    (image : option (string + processed_image (tensor X)))
    (answer_counts : option (list (string * Z)))
    (use_cache : bool)
  : option (instance (token X) (tensor X)) :=
  let tokenized_question := tokenize X question in
  let question_field := TextField tokenized_question in
  let fields := [("question", question_field)] in
  let fields :=
    match image with
    | Some image =>
        let '(features, coords, _, _) :=
          match image with
          | inl path =>
              match _process_image_paths [path] use_cache with
              | first :: _ => first
              | [] => featurize X use_cache path (* [next]: one path in, one image out *)
              end
          | inr processed => processed
          end in
        let fields := dict_set "box_features" (ArrayField (Tensor features)) fields in
        let fields := dict_set "box_coordinates" (ArrayField (Tensor coords)) fields in
        dict_set "box_mask" (ArrayField (NewOnesBool features)) fields
    | None => fields
    end in
  match answer_counts with
  | Some answer_counts =>
      let '(answer_fields, weights) := collect_answers self answer_counts [] [] in
      if bool_decide (length answer_fields ≤ 0)%nat then None
      else
        let fields := dict_set "labels" (ListField answer_fields) fields in
        let fields := dict_set "label_weights" (ArrayField (TorchTensor weights)) fields in
        Some (mkInstance fields)
  | None => Some (mkInstance fields)
  end.

(** The entries of [answer_counts] that get past the vocabulary. *)
Definition kept_answers (self : VQAv2Reader) (items : list (string * Z))
  : list (string * Z) :=
  List.filter (fun item => answer_allowed self item.1) items.

(** The image part of the fields does not depend on the answers. *)
Definition image_fields (question : string)
    (image : option (string + processed_image (tensor X))) (use_cache : bool)
  : list (string * Field (token X) (tensor X)) :=
  let fields := [("question", TextField (tokenize X question))] in
  match image with
  | Some image =>
      let '(features, coords, _, _) :=
        match image with
        | inl path => featurize X use_cache path
        | inr processed => processed
        end in
      dict_set "box_mask" (ArrayField (NewOnesBool features))
        (dict_set "box_coordinates" (ArrayField (Tensor coords))
           (dict_set "box_features" (ArrayField (Tensor features)) fields))
  | None => fields
  end.

(** The loop over [a["answers"]]. *)
Definition count_loop (answers : list string) (c : list (string * Z)) : list (string * Z) :=
  fold_left (fun answer_counts answer =>
               counter_incr (preprocess_answer X answer) answer_counts) answers c.

(** How many of [answers] preprocess to [s]. *)
Definition votes (s : string) (answers : list string) : Z :=
  Z.of_nat (length (List.filter (fun answer => bool_decide (preprocess_answer X answer = s))
                                answers)).

(** The [Counter] built for one annotation. *)
Definition count_answers (self : VQAv2Reader) (a : annotation) : list (string * Z) :=
  if multiple_answers_per_question self
  then count_loop (a_answers a) []
  else dict_set (preprocess_answer X (a_multiple_choice_answer a)) 1 [].

(** The loop over [annotations["annotations"]]. *)
Definition compute_answers_by_question_id (self : VQAv2Reader)
    (annotations : list annotation) : list (string * list (string * Z)) :=
  fold_left (fun answers_by_question_id a =>
               let qid := a_question_id a in
               let answer_counts := count_answers self a in
               dict_set (py_str qid) answer_counts answers_by_question_id)
            annotations [].

(** [_get_answers_by_question_id(self, split)] *)
Definition _get_answers_by_question_id (self : VQAv2Reader) (split : Split)
  : M (list (string * list (string * Z))) :=
  match annotations split with
  | Some annotations_url =>
      let* annotations_path := fetch annotations_url in
      let key := (annotations_url +:+ "-cache", annotations_path) in
      let* w := get_world in
      match cache w !! key with
      | Some doc =>
          match json_load doc with
          | Some answers_by_question_id => ret answers_by_question_id
          | None => raise (ValueError "json.decoder.JSONDecodeError")
          end
      | None =>
          let* annotations := load_annotations annotations_path in
          let answers_by_question_id := compute_answers_by_question_id self annotations in
          let* _ := put_cache key (json_dump answers_by_question_id) in
          ret answers_by_question_id
      end
  | None => ret []
  end.

(** [self.images[int(question_dict["image_id"])] for question_dict in
    question_dicts], with the first missing key as the error. *)
Fixpoint lookup_image_paths (self : VQAv2Reader) (question_dicts : list question_dict)
  : Z + list string :=
  match question_dicts with
  | [] => inr []
  | question_dict :: rest =>
      match images self !! (inr (Some (image_id question_dict)) : image_key) with
      | None => inl (image_id question_dict)
      | Some path =>
          match lookup_image_paths self rest with
          | inl missing_id => inl missing_id
          | inr paths => inr (path :: paths)
          end
      end
  end.

(** The final loop of [_read] over
    [zip(question_dicts, processed_images)]. *)
Fixpoint read_loop (self : VQAv2Reader)
    (answers_by_question_id : list (string * list (string * Z)))
    (pairs : list (question_dict * option (processed_image (tensor X))))
  : list (instance (token X) (tensor X)) :=
  match pairs with
  | [] => []
  | (question_dict, processed_image) :: pairs' =>
      let answers := dict_get (py_str (question_id question_dict)) answers_by_question_id in
      let instance := text_to_instance self (question question_dict)
                        (inr <$> processed_image) answers true in
      match instance with
      | None => read_loop self answers_by_question_id pairs'
      | Some instance => instance :: read_loop self answers_by_question_id pairs'
      end
  end.

(** Everything [_read] does for one split name before its final loop. *)
Definition prepare_split (self : VQAv2Reader) (split_name : string)
  : M (list (string * list (string * Z))
       * list (question_dict * option (processed_image (tensor X)))) :=
  let '(question_slice, split_name) := get_data_slice X split_name in
  match dict_get split_name splits with
  | None => raise (ValueError ("Unrecognized split: " +:+ split_name +:+ "."))
  | Some split =>
      let* answers_by_question_id := _get_answers_by_question_id self split in
      let* questions_path := fetch (questions split) in
      let* questions := load_questions questions_path in
      let questions := apply_slice X question_slice questions in
      let question_dicts := shard_iterable X questions in
      if produce_featurized_images self then
        match lookup_image_paths self question_dicts with
        | inl missing_id => raise (KeyError missing_id)
        | inr image_paths =>
            let processed_images := _process_image_paths image_paths true in
            ret (answers_by_question_id, zip question_dicts (Some <$> processed_images))
        end
      else
        let processed_images := replicate (length question_dicts) None in
        ret (answers_by_question_id, zip question_dicts processed_images)
  end.

(** [_read] on a single split name. *)
Definition read_split (self : VQAv2Reader) (split_name : string) (w : world)
  : generated (instance (token X) (tensor X)) * world :=
  match prepare_split self split_name w with
  | (inl e, w') => ({| yielded := []; raised := Some e |}, w')
  | (inr (answers_by_question_id, pairs), w') =>
      ({| yielded := read_loop self answers_by_question_id pairs; raised := None |}, w')
  end.

(** [_read(self, splits_or_list_of_splits)]: a list is read one name
    after the other, [yield from] passing every instance on. *)
Fixpoint read_splits (self : VQAv2Reader) (split_names : list string) (w : world)
  : generated (instance (token X) (tensor X)) * world :=
  match split_names with
  | [] => (empty_generator, w)
  | split_name :: rest =>
      let '(g, w') := read_split self split_name w in
      match raised g with
      | Some e => (g, w')
      | None =>
          let '(g', w'') := read_splits self rest w' in
          (chain g g', w'')
      end
  end.

Definition _read (self : VQAv2Reader) (splits_or_list_of_splits : string + list string)
    (w : world) : generated (instance (token X) (tensor X)) * world :=
  match splits_or_list_of_splits with
  | inl split_name => read_split self split_name w
  | inr split_names => read_splits self split_names w
  end.
(** What a read of one split gives once the answers are there, as a
    function of the answers and of the files. *)
Definition finish_split (self : VQAv2Reader) (question_slice : slice X) (split : Split)
    (answers : exn + list (string * list (string * Z)))
    (cached_path : string -> option string)
    (read_questions : string -> option (list question_dict))
  : generated (instance (token X) (tensor X)) :=
  match answers with
  | inl e => {| yielded := []; raised := Some e |}
  | inr answers_by_question_id =>
      match cached_path (questions split) with
      | None => {| yielded := []; raised := Some (OSError (questions split)) |}
      | Some questions_path =>
          match read_questions questions_path with
          | None => {| yielded := []; raised := Some (OSError questions_path) |}
          | Some questions =>
              let question_dicts := shard_iterable X (apply_slice X question_slice questions) in
              if produce_featurized_images self then
                match lookup_image_paths self question_dicts with
                | inl missing_id => {| yielded := []; raised := Some (KeyError missing_id) |}
                | inr image_paths =>
                    {| yielded :=
                         read_loop self answers_by_question_id
                           (zip question_dicts
                                (Some <$> _process_image_paths image_paths true));
                       raised := None |}
                end
              else
                {| yielded :=
                     read_loop self answers_by_question_id
                       (zip question_dicts (replicate (length question_dicts) None));
                   raised := None |}
          end
      end
  end.
End Reader.


(** ** Construction *)

(** The attributes set by [VisionReader.__init__] that the rest of
    [__init__] reads: at that point [images] maps file names to full paths. *)
Record VisionReaderState := {
  super_produce_featurized_images : bool;
  super_images : list (string * string)
}.

(** [{id_from_filename(name): full_path for name, full_path in
    self.images.items()}] followed by [del self.images[None]]. *)
Definition normalize_images (images : list (string * string)) : gmap image_key string :=
  let by_id := fold_left (fun m item => <[inr (id_from_filename item.1) := item.2]> m)
                         images (∅ : gmap image_key string) in
  if bool_decide (is_Some (by_id !! inr None)) then delete (inr None : image_key) by_id
  else by_id.

(** [filename] fully matches [.*(\d{12})\.((jpg)|(png))] with [digits] as
    its group 1. *)
Definition matches_filename_re (filename : string) (digits : list ascii) : Prop :=
  exists before ext,
    list_ascii_of_string filename = before ++ digits ++ "."%char :: ext
    /\ (newline ∉ before)
    /\ length digits = 12%nat /\ forallb is_digit digits = true
    /\ extension ext.

(** The outcome of a call into code outside this module, as a step of [M]. *)
Definition outcome {A} (r : exn + A) : M A := fun w => (r, w).

(** [answer_vocab.get_token_to_index_vocabulary("answers").keys()], after
    an [answer_vocab] given as a [str] has been fetched with [cached_path]
    and loaded with [Vocabulary.from_files]. *)
Definition answer_keys (from_files : string -> exn + list string)
    (answer_vocab : string + list string) : M (list string) :=
  match answer_vocab with
  | inl location =>
      let* path := fetch location in
      outcome (from_files path)
  | inr keys => ret keys
  end.

(** [VQAv2Reader.__init__].  [super__init__] is the constructor of the base
    class, which may raise and otherwise leaves [VisionReaderState];
    [from_files] is [Vocabulary.from_files], giving the keys of the
    "answers" namespace of the vocabulary stored at a path, or raising.
    [answer_vocab] is [None], a [str], or a vocabulary, given by the keys
    of its "answers" namespace. *)
Definition __init__ (X : Externals)
    (super__init__ : option string -> exn + VisionReaderState)
    (from_files : string -> exn + list string)
    (image_dir : option string) (run_featurization : bool)
    (answer_vocab : option (string + list string))
    (multiple_answers_per_question : bool) : M VQAv2Reader :=
  if bool_decide (image_dir = None) && run_featurization then
    raise (ValueError "Because of the size of the image datasets, we don't download them automatically.")
  else
    let* super := outcome (super__init__ image_dir) in
    let* answer_vocab :=
      match answer_vocab with
      | None => ret None
      | Some answer_vocab =>
          let* keys := answer_keys from_files answer_vocab in
          ret (Some (list_to_set (map (preprocess_answer X) keys) : gset string))
      end in
    ret {| answer_vocab := answer_vocab;
           produce_featurized_images := super_produce_featurized_images super;
           images :=
             if super_produce_featurized_images super
             then normalize_images (super_images super)
             else list_to_map (map (fun item => (inl item.1 : image_key, item.2))
                                   (super_images super));
           multiple_answers_per_question := multiple_answers_per_question |}.

(** ** Decoding: greedy loop and beam search

    The model class and [BeamSearch] are not among the files under study;
    only the test that compares them is.  Token ids are [nat], a step's
    log-probabilities are a list indexed by token id, and one sequence of
    the batch is followed. *)

Section Decoding.
Context {state : Type}.
Variable take_step : nat -> state -> list Q * state.
Variable end_index : nat.

(** Position of the first largest entry ([torch.max] along the class
    dimension). *)
Fixpoint argmax_from (best_i : nat) (best : Q) (i : nat) (l : list Q) : nat :=
  match l with
  | [] => best_i
  | x :: l' =>
      if Qle_bool x best then argmax_from best_i best (S i) l'
      else argmax_from i x (S i) l'
  end.

Definition argmax (l : list Q) : nat :=
  match l with
  | [] => 0%nat
  | x :: l' => argmax_from 0 x 1 l'
  end.

(** Modelled from the spec: the model's greedy decoding loop
    ([_forward_loop] without targets), which is missing from the sources.
    At every step the most probable class under [take_step] is
    predicted and fed back as the next input. *)
Fixpoint greedy_loop (steps : nat) (last_prediction : nat) (st : state) : list nat :=
  match steps with
  | O => []
  | S steps' =>
      let '(log_probs, st') := take_step last_prediction st in
      let predicted := argmax log_probs in
      predicted :: greedy_loop steps' predicted st'
  end.

(** A partial hypothesis: its tokens, newest first, the sum of their
    log-probabilities, and the decoder state after them. *)
Record hypothesis := {
  rev_tokens : list nat;
  log_prob : Q;
  hstate : state
}.

Definition finished (h : hypothesis) : bool :=
  match rev_tokens h with
  | last :: _ => Nat.eqb last end_index
  | [] => false
  end.

(** The continuations of one hypothesis: every class for an open
    hypothesis; a finished one is only padded with the end symbol, at
    no cost. *)
Definition expand (start : nat) (h : hypothesis) : list hypothesis :=
  if finished h then
    [{| rev_tokens := end_index :: rev_tokens h;
        log_prob := log_prob h;
        hstate := hstate h |}]
  else
    let '(log_probs, st') := take_step (hd start (rev_tokens h)) (hstate h) in
    imap (fun class p => {| rev_tokens := class :: rev_tokens h;
                            log_prob := (log_prob h + p)%Q;
                            hstate := st' |}) log_probs.

(** Insertion behind every hypothesis that scores at least as well, so
    that earlier candidates win ties. *)
Fixpoint insert_by_score (h : hypothesis) (sorted : list hypothesis) : list hypothesis :=
  match sorted with
  | [] => [h]
  | h' :: rest =>
      if Qle_bool (log_prob h) (log_prob h') then h' :: insert_by_score h rest
      else h :: sorted
  end.

Definition top_k (k : nat) (candidates : list hypothesis) : list hypothesis :=
  take k (fold_left (fun sorted h => insert_by_score h sorted) candidates []).

(** Modelled from the spec: [BeamSearch.search], which is missing from
    the sources: "a heuristic search procedure over sequence-generation
    model outputs, retaining the top-k partial hypotheses at each
    decoding step". *)
Fixpoint search_from (beam_size : nat) (start : nat) (steps : nat)
    (beam : list hypothesis) : list hypothesis :=
  match steps with
  | O => beam
  | S steps' =>
      search_from beam_size start steps'
        (top_k beam_size (flat_map (expand start) beam))
  end.

Definition search (beam_size max_steps : nat) (start_prediction : nat) (st : state)
  : list (list nat) :=
  map (fun h => rev (rev_tokens h))
      (search_from beam_size start_prediction max_steps
         [{| rev_tokens := []; log_prob := 0%Q; hstate := st |}]).

(** Modelled from the spec: [make_output_human_readable], which is
    missing from the sources, as far as token ids go: a prediction is cut
    before its first end symbol. *)
Fixpoint truncate_at_end (indices : list nat) : list nat :=
  match indices with
  | [] => []
  | i :: indices' => if Nat.eqb i end_index then [] else i :: truncate_at_end indices'
  end.

(** The better of two hypotheses, the earlier one winning a tie. *)
Definition pick (best h : hypothesis) : hypothesis :=
  if Qle_bool (log_prob h) (log_prob best) then best else h.

(** [b] does not score better than [a]. *)
Definition scores_at_least (a b : hypothesis) : Prop := (log_prob b <= log_prob a)%Q.

(** The best hypothesis of the beam, cut at the end symbol. *)
Definition predicted_tokens_beam (all_top_k_predictions : list (list nat)) : option (list nat) :=
  truncate_at_end <$> head all_top_k_predictions.
End Decoding.
(** A toy decoder over three classes, class 2 being the end symbol: the
    scores depend on the previous prediction and on a step counter. *)
Definition toy_take_step (last : nat) (st : nat) : list Q * nat :=
  (match (last + st) mod 3 with
   | 0 => [-(3 # 1); -(1 # 2); -(2 # 1)]
   | 1 => [-(1 # 3); -(1 # 3); -(4 # 1)]
   | _ => [-(5 # 1); -(2 # 1); -(1 # 7)]
   end%nat%Q, S st).

Arguments rev_tokens {state} _.
Arguments log_prob {state} _.
Arguments hstate {state} _.

(** [w'] holds the files of [w]; its cache holds what the cache of [w]
    holds and, where that has nothing, possibly the document that [self]
    computes from the annotations of [w]. *)
Definition cache_extends (X : Externals) (self : VQAv2Reader) (w w' : world) : Prop :=
  cached_path w' = cached_path w
  /\ read_annotations w' = read_annotations w
  /\ read_questions w' = read_questions w
  /\ forall url path,
       cached_path w url = Some path ->
       cache w' !! (url +:+ "-cache", path) = cache w !! (url +:+ "-cache", path)
       \/ (cache w !! (url +:+ "-cache", path) = None
           /\ exists annotations,
                read_annotations w path = Some annotations
                /\ cache w' !! (url +:+ "-cache", path)
                   = Some (json_dump (compute_answers_by_question_id X self annotations))).

(** The split names [_read] knows. *)
Definition recognized_splits : list string := [
  "balanced_real_train"; "balanced_real_val"; "balanced_real_test";
  "balanced_bas_train"; "balanced_bas_val";
  "abstract_scenes_train"; "abstract_scenes_val"; "abstract_scenes_test";
  "unittest"
].

(** ** A small concrete setting

    Tokens are whole questions, tensors are numbers, answers are
    preprocessed by the identity, and no slicing or sharding takes place. *)

Definition fixture_externals : Externals := {|
  token := string;
  tensor := Z;
  slice := unit;
  tokenize := fun q => [q];
  preprocess_answer := fun a => a;
  get_data_slice := fun name => (tt, name);
  apply_slice := fun _ qs => qs;
  shard_iterable := fun qs => qs;
  featurize := fun _ path => (Z.of_nat (String.length path), 0, None, None)
|}.

Definition fixture_reader (vocab : option (gset string)) : VQAv2Reader := {|
  answer_vocab := vocab;
  produce_featurized_images := false;
  images := ∅;
  multiple_answers_per_question := true
|}.

(** A file system holding the "unittest" split: two questions, one of
    them annotated, and nothing cached yet. *)
Definition fixture_world : world := {|
  cached_path := fun url => Some ("/cache/" +:+ url);
  read_annotations := fun path =>
    if bool_decide (path = "/cache/test_fixtures/vision/vqav2/annotations.json")
    then Some [ {| a_question_id := 1; a_multiple_choice_answer := "yes";
                   a_answers := ["yes"; "no"; "yes"; "yes"] |} ]
    else None;
  read_questions := fun path =>
    if bool_decide (path = "/cache/test_fixtures/vision/vqav2/questions.json")
    then Some [ {| question_id := 1; image_id := 42; question := "Is it raining?" |};
                {| question_id := 2; image_id := 7; question := "What colour is the bus?" |} ]
    else None;
  cache := ∅
|}.

Definition unittest_split : Split := {|
  annotations := Some "test_fixtures/vision/vqav2/annotations.json";
  questions := "test_fixtures/vision/vqav2/questions.json"
|}.

(** ** The bookkeeping of the final loop of [_read]

    The loop counts the instances it attempted and those that came out as
    [None], and after every 2000th attempt logs a warning if more than a
    tenth failed.  A warning is recorded as the two counts it was computed
    from; the fraction is compared in exact arithmetic. *)

Record loop_log := {
  attempted_instances_count : Z;
  failed_instances_count : Z;
  warnings : list (Z * Z)      (* (failed, attempted) at each warning, oldest first *)
}.

Section ReaderLog.
Variable X : Externals.

(** [if attempted_instances_count % 2000 == 0: ... if
    failed_instances_fraction > 0.1: logger.warning(...)] *)
Definition warning_due (attempted failed : Z) : bool :=
  (attempted mod 2000 =? 0) && negb (Qle_bool (true_div failed attempted) (1 # 10)).

(** The final loop of [_read] with its counters: the instances yielded and
    the state of the bookkeeping at the end. *)
Fixpoint read_loop_logged (self : VQAv2Reader)
    (answers_by_question_id : list (string * list (string * Z)))
    (pairs : list (question_dict * option (processed_image (tensor X))))
    (log : loop_log)
  : list (instance (token X) (tensor X)) * loop_log :=
  match pairs with
  | [] => ([], log)
  | (question_dict, processed_image) :: pairs' =>
      let answers := dict_get (py_str (question_id question_dict)) answers_by_question_id in
      let instance := text_to_instance X self (question question_dict)
                        (inr <$> processed_image) answers true in
      let attempted := attempted_instances_count log + 1 in
      let failed :=
        match instance with
        | None => failed_instances_count log + 1
        | Some _ => failed_instances_count log
        end in
      let log' := {| attempted_instances_count := attempted;
                     failed_instances_count := failed;
                     warnings :=
                       if warning_due attempted failed
                       then warnings log ++ [(failed, attempted)]
                       else warnings log |} in
      let '(rest, final) := read_loop_logged self answers_by_question_id pairs' log' in
      (match instance with
       | None => rest
       | Some instance => instance :: rest
       end, final)
  end.
End ReaderLog.

(** [attempted_instances_count = 0; failed_instances_count = 0] *)
Definition fresh_log : loop_log :=
  {| attempted_instances_count := 0; failed_instances_count := 0; warnings := [] |}.

(** ** Further concrete settings *)

(** A file system holding the questions of the "balanced_real_test"
    split, which has no annotations. *)
Definition fixture_test_world : world := {|
  cached_path := fun url => Some ("/cache/" +:+ url);
  read_annotations := fun _ => None;
  read_questions := fun _ =>
    Some [ {| question_id := 10; image_id := 3; question := "How many cats?" |};
           {| question_id := 11; image_id := 3; question := "Is it night?" |} ];
  cache := ∅
|}.

(** A file system in which the annotations of "unittest" are there but
    its questions cannot be fetched. *)
Definition fixture_broken_world : world := {|
  cached_path := fun url =>
    if bool_decide (url = "test_fixtures/vision/vqav2/annotations.json")
    then Some ("/cache/" +:+ url) else None;
  read_annotations := read_annotations fixture_world;
  read_questions := read_questions fixture_world;
  cache := ∅
|}.

(** A reader that featurizes and knows one image. *)
Definition fixture_featurizing_reader : VQAv2Reader := {|
  answer_vocab := None;
  produce_featurized_images := true;
  images := {[ (inr (Some 42) : image_key) := "/data/000000000042.jpg" ]};
  multiple_answers_per_question := true
|}.

(** [w'] holds the files of [w] and every cache entry of [w]; what it
    holds in addition is text that [json.load] can read. *)
Definition cache_grows (w w' : world) : Prop :=
  cached_path w' = cached_path w
  /\ read_annotations w' = read_annotations w
  /\ read_questions w' = read_questions w
  /\ (forall key doc, cache w !! key = Some doc -> cache w' !! key = Some doc)
  /\ (forall key doc, cache w !! key = None -> cache w' !! key = Some doc ->
                      is_Some (json_load doc)).

(** * Properties *)

(** ** Scoring *)

Lemma true_div_3 (count : Z) : (true_div count 3 == count # 3)%Q.
Proof.
  unfold true_div, Qeq, Qdiv, Qmult, Qinv, inject_Z; simpl. lia.
Qed.

Lemma py_min_Qmin (a b : Q) : (py_min a b == Qmin a b)%Q.
Proof.
  unfold py_min. destruct (Qle_bool a b) eqn:E.
  - apply Qle_bool_iff in E. symmetry. now apply Q.min_l.
  - assert (~ (a <= b)%Q) as H by (rewrite <- Qle_bool_iff; congruence).
    apply Qnot_le_lt in H. symmetry. apply Q.min_r. now apply Qlt_le_weak.
Qed.

Lemma get_score_below (count : Z) :
  count < 3 -> (get_score count == count # 3)%Q.
Proof.
  intros H. unfold get_score, py_min.
  destruct (Qle_bool 1 (true_div count 3)) eqn:E.
  - apply Qle_bool_iff in E. rewrite true_div_3 in E.
    unfold Qle in E; simpl in E. lia.
  - apply true_div_3.
Qed.

Lemma get_score_capped (count : Z) :
  3 <= count -> get_score count = 1%Q.
Proof.
  intros H. unfold get_score, py_min.
  destruct (Qle_bool 1 (true_div count 3)) eqn:E; [reflexivity|].
  assert (1 <= true_div count 3)%Q as H1.
  { rewrite true_div_3. unfold Qle; simpl. lia. }
  apply Qle_bool_iff in H1. congruence.
Qed.

Local Ltac score_below c :=
  let E := fresh "E" in
  assert (E := get_score_below c ltac:(lia)); setoid_rewrite E; clear E.

(** C1: for a non-negative count, [get_score count] is the minimum of 1 and
    [count/3]; it is 0 at 0, lies between 0 and 1, does not decrease when
    the count grows, and is 1 exactly from count 3 on. *)
Theorem get_score_spec (count : Z) (Hcount : 0 <= count) :
  (get_score count == Qmin 1 (count # 3))%Q
  /\ (get_score 0 == 0)%Q
  /\ (0 <= get_score count <= 1)%Q
  /\ (forall count', count <= count' -> (get_score count <= get_score count')%Q)
  /\ ((get_score count == 1)%Q <-> 3 <= count).
Proof.
  refine (conj _ (conj _ (conj (conj _ _) (conj _ (conj _ _))))).
  - unfold get_score. rewrite py_min_Qmin, true_div_3. reflexivity.
  - score_below 0. reflexivity.
  - destruct (Z_lt_le_dec count 3) as [Hlt|Hge].
    + score_below count. unfold Qle; simpl. lia.
    + rewrite get_score_capped by lia. unfold Qle; simpl. lia.
  - destruct (Z_lt_le_dec count 3) as [Hlt|Hge].
    + score_below count. unfold Qle; simpl. lia.
    + rewrite get_score_capped by lia. apply Qle_refl.
  - intros count' Hle.
    destruct (Z_lt_le_dec count' 3) as [Hlt|Hge].
    + score_below count. score_below count'. unfold Qle; simpl. lia.
    + rewrite (get_score_capped count') by lia.
      destruct (Z_lt_le_dec count 3) as [Hlt'|Hge'].
      * score_below count. unfold Qle; simpl. lia.
      * rewrite get_score_capped by lia. apply Qle_refl.
  - intros H. destruct (Z_lt_le_dec count 3) as [Hlt|Hge]; [|assumption].
    assert (E := get_score_below count ltac:(lia)). setoid_rewrite E in H.
    unfold Qeq in H; simpl in H. lia.
  - intros H. rewrite get_score_capped by lia. reflexivity.
Qed.

Lemma get_score_spec_witness :
  0 <= 2 /\
  ((get_score 2 == Qmin 1 (2 # 3))%Q
   /\ (get_score 0 == 0)%Q
   /\ (0 <= get_score 2 <= 1)%Q
   /\ (forall count', 2 <= count' -> (get_score 2 <= get_score count')%Q)
   /\ ((get_score 2 == 1)%Q <-> 3 <= 2)).
Proof. split; [lia | apply (get_score_spec 2); lia]. Defined.

(** ** Dictionaries *)

Section DictFacts.
Context {K V : Type} `{EqDecision K}.
Implicit Types (d : list (K * V)) (k : K) (v : V).

Lemma dict_get_set_eq k v d : dict_get k (dict_set k v d) = Some v.
Proof.
  induction d as [|[k' v'] d IH]; simpl.
  - by rewrite decide_True.
  - destruct (decide (k = k')) as [->|Hne]; simpl.
    + by rewrite decide_True.
    + by rewrite decide_False.
Qed.

Lemma dict_get_set_ne k k' v d :
  k ≠ k' -> dict_get k' (dict_set k v d) = dict_get k' d.
Proof.
  intros Hne. induction d as [|[k0 v0] d IH]; simpl.
  - by rewrite decide_False.
  - destruct (decide (k = k0)) as [->|Hne0]; simpl.
    + by rewrite !decide_False.
    + destruct (decide (k' = k0)); done.
Qed.

Lemma dict_get_None k d : dict_get k d = None <-> k ∉ dict_keys d.
Proof.
  unfold dict_keys. induction d as [|[k' v'] d IH]; simpl.
  - split; [intros _; apply not_elem_of_nil | done].
  - destruct (decide (k = k')) as [->|Hne].
    + split; [done | intros []; left].
    + rewrite IH, not_elem_of_cons. tauto.
Qed.

Lemma dict_get_Some_elem k v d : dict_get k d = Some v -> (k, v) ∈ d.
Proof.
  induction d as [|[k' v'] d IH]; simpl; [done|].
  destruct (decide (k = k')) as [->|Hne].
  - intros [= ->]. left.
  - intros H. right. auto.
Qed.

Lemma dict_keys_set_in k v d :
  k ∈ dict_keys d -> dict_keys (dict_set k v d) = dict_keys d.
Proof.
  unfold dict_keys. induction d as [|[k' v'] d IH]; simpl.
  - by intros ?%elem_of_nil.
  - destruct (decide (k = k')) as [->|Hne]; [done|].
    intros [?|Hin]%elem_of_cons; [done|]. cbn. f_equal. by apply IH.
Qed.

Lemma dict_keys_set_fresh k v d :
  k ∉ dict_keys d -> dict_keys (dict_set k v d) = dict_keys d ++ [k].
Proof.
  unfold dict_keys. induction d as [|[k' v'] d IH]; simpl; [done|].
  rewrite not_elem_of_cons. intros [Hne Hnin].
  rewrite decide_False by done. cbn. f_equal. by apply IH.
Qed.

Lemma dict_set_NoDup k v d : NoDup (dict_keys d) -> NoDup (dict_keys (dict_set k v d)).
Proof.
  intros Hnd. destruct (decide (k ∈ dict_keys d)) as [Hin|Hin].
  { by rewrite dict_keys_set_in. }
  rewrite dict_keys_set_fresh by done.
  apply NoDup_app. split_and!; [done | | apply NoDup_singleton].
  intros x Hx Hx'. apply list_elem_of_singleton in Hx'. by subst.
Qed.

Lemma dict_set_fresh k v d : k ∉ dict_keys d -> dict_set k v d = d ++ [(k, v)].
Proof.
  unfold dict_keys. induction d as [|[k' v'] d IH]; simpl; [done|].
  rewrite not_elem_of_cons. intros [Hne Hnin].
  rewrite decide_False by done. by rewrite IH.
Qed.

(** Rebuilding a dictionary from its own items gives it back. *)
Lemma dict_of_items_app_NoDup d0 d :
  NoDup (dict_keys (d0 ++ d)) ->
  fold_left (fun acc kv => dict_set kv.1 kv.2 acc) d d0 = d0 ++ d.
Proof.
  revert d0. induction d as [|[k v] d IH]; intros d0 Hnd; simpl.
  - by rewrite app_nil_r.
  - rewrite dict_set_fresh.
    + rewrite IH; rewrite <- app_assoc; done.
    + unfold dict_keys in *. rewrite fmap_app in Hnd. simpl in Hnd.
      apply NoDup_app in Hnd as (_ & Hd & _). intros Hin.
      apply (Hd k Hin). left.
Qed.

Lemma dict_of_items_NoDup d : NoDup (dict_keys d) -> dict_of_items d = d.
Proof. intros Hnd. unfold dict_of_items. by rewrite dict_of_items_app_NoDup. Qed.
End DictFacts.

(** ** Building an instance *)

Section InstanceFacts.
Variable X : Externals.
Implicit Types (self : VQAv2Reader) (items : list (string * Z)).

Lemma collect_answers_spec self items answer_fields weights :
  collect_answers X self items answer_fields weights =
    (answer_fields ++ map (fun item => LabelField item.1 "answers") (kept_answers self items),
     weights ++ map (fun item => get_score item.2) (kept_answers self items)).
Proof.
  revert answer_fields weights.
  induction items as [|[answer count] items IH]; intros answer_fields weights; simpl.
  - by rewrite !app_nil_r.
  - destruct (answer_allowed self answer); simpl.
    + rewrite IH, <- !app_assoc. done.
    + apply IH.
Qed.

Lemma kept_answers_nil self items :
  kept_answers self items = [] <->
  forall answer, answer ∈ dict_keys items -> answer_allowed self answer = false.
Proof.
  unfold kept_answers, dict_keys. induction items as [|[answer count] items IH]; simpl.
  - split; [intros _ ? ?%elem_of_nil; done | done].
  - destruct (answer_allowed self answer) eqn:E.
    + split; [done|]. intros H. specialize (H answer). rewrite E in H.
      discriminate H. left.
    + rewrite IH. split.
      * intros H a [->|Hin]%elem_of_cons; auto.
      * intros H a Hin. apply H. by right.
Qed.

Lemma kept_answers_head self items item kept :
  kept_answers self items = item :: kept ->
  item.1 ∈ dict_keys items /\ answer_allowed self item.1 = true.
Proof.
  intros E. assert (In item (kept_answers self items)) as Hin by (rewrite E; left; done).
  apply filter_In in Hin as [Hin Hallowed]. split; [|done].
  unfold dict_keys. apply list_elem_of_fmap. exists item. split; [done|].
  by apply list_elem_of_In.
Qed.

Lemma text_to_instance_unfold self question image answer_counts use_cache :
  text_to_instance X self question image (Some answer_counts) use_cache =
    let kept := kept_answers self answer_counts in
    match kept with
    | [] => None
    | _ :: _ =>
        Some (mkInstance
                (dict_set "label_weights"
                   (ArrayField (TorchTensor (map (fun item => get_score item.2) kept)))
                   (dict_set "labels"
                      (ListField (map (fun item => LabelField item.1 "answers") kept))
                      (image_fields X question image use_cache))))
    end.
Proof.
  unfold text_to_instance. rewrite collect_answers_spec. cbn zeta.
  rewrite !app_nil_l.
  destruct (kept_answers self answer_counts) as [|item kept] eqn:E; [done|].
  rewrite bool_decide_false by (simpl; lia).
  unfold image_fields.
  by destruct image as [[path|[[[features coords] ?] ?]]|].
Qed.

Lemma text_to_instance_no_answers self question image use_cache :
  text_to_instance X self question image None use_cache =
    Some (mkInstance (image_fields X question image use_cache)).
Proof.
  unfold text_to_instance, image_fields.
  by destruct image as [[path|[[[features coords] ?] ?]]|].
Qed.

Lemma read_loop_omap self answers_by_question_id pairs :
  read_loop X self answers_by_question_id pairs =
    omap (fun pair =>
            text_to_instance X self (question pair.1) (inr <$> pair.2)
              (dict_get (py_str (question_id pair.1)) answers_by_question_id) true)
         pairs.
Proof.
  induction pairs as [|[question_dict processed] pairs IH]; simpl; [done|].
  rewrite IH. by destruct (text_to_instance _ _ _ _ _ _).
Qed.
End InstanceFacts.

(** ** Construction *)

(** The five ways a call of [__init__] can go; none touches the world. *)
Lemma init_outcome_cases (X : Externals)
    (super__init__ : option string -> exn + VisionReaderState)
    (from_files : string -> exn + list string)
    (image_dir : option string) (run_featurization : bool)
    (vocabulary : option (string + list string)) (multiple : bool) (w : world) :
  let result := __init__ X super__init__ from_files image_dir run_featurization
                  vocabulary multiple w in
  result.2 = w
  /\ ((image_dir = None /\ run_featurization = true
       /\ exists msg, result.1 = inl (ValueError msg))
      \/ (~ (image_dir = None /\ run_featurization = true)
          /\ exists e, super__init__ image_dir = inl e /\ result.1 = inl e)
      \/ (~ (image_dir = None /\ run_featurization = true)
          /\ exists super location,
               super__init__ image_dir = inr super
               /\ vocabulary = Some (inl location)
               /\ cached_path w location = None
               /\ result.1 = inl (OSError location))
      \/ (~ (image_dir = None /\ run_featurization = true)
          /\ exists super location path e,
               super__init__ image_dir = inr super
               /\ vocabulary = Some (inl location)
               /\ cached_path w location = Some path
               /\ from_files path = inl e
               /\ result.1 = inl e)
      \/ (~ (image_dir = None /\ run_featurization = true)
          /\ exists super keys self,
               super__init__ image_dir = inr super
               /\ match vocabulary with
                  | None => keys = None
                  | Some (inr given) => keys = Some given
                  | Some (inl location) =>
                      exists path loaded,
                        cached_path w location = Some path
                        /\ from_files path = inr loaded
                        /\ keys = Some loaded
                  end
               /\ result.1 = inr self
               /\ answer_vocab self
                  = (fun keys => list_to_set (map (preprocess_answer X) keys)) <$> keys
               /\ produce_featurized_images self = super_produce_featurized_images super
               /\ images self
                  = (if super_produce_featurized_images super
                     then normalize_images (super_images super)
                     else list_to_map (map (fun item => (inl item.1 : image_key, item.2))
                                           (super_images super)))
               /\ multiple_answers_per_question self = multiple)).
Proof.
  cbn zeta. unfold __init__.
  destruct (bool_decide (image_dir = None) && run_featurization) eqn:Hguard.
  { apply andb_prop in Hguard as [Hdir%bool_decide_eq_true Hrun].
    split; [done|]. left. split_and!; [done..|]. by eexists. }
  assert (~ (image_dir = None /\ run_featurization = true)) as Hno.
  { intros [Hdir Hrun]. rewrite Hrun, andb_true_r in Hguard.
    by apply bool_decide_eq_false in Hguard. }
  cbv beta iota delta [bind answer_keys fetch outcome ret].
  destruct (super__init__ image_dir) as [e|super] eqn:Hsuper.
  { split; [done|]. right. left. split; [done|]. by exists e. }
  destruct vocabulary as [[location|given]|]; cbv beta iota.
  - destruct (cached_path w location) as [path|] eqn:Hpath.
    2:{ split; [done|]. do 2 right. left. split; [done|]. by exists super, location. }
    destruct (from_files path) as [e|loaded] eqn:Hload.
    { split; [done|]. do 3 right. left. split; [done|].
      by exists super, location, path, e. }
    split; [done|]. do 4 right. split; [done|].
    eexists super, (Some loaded), _. split_and!; try done. by exists path, loaded.
  - split; [done|]. do 4 right. split; [done|].
    eexists super, (Some given), _. by split_and!.
  - split; [done|]. do 4 right. split; [done|].
    eexists super, None, _. by split_and!.
Qed.

(** C3: when [text_to_instance] returns an instance for given answer
    counts, the field "labels" lists, in the order of [answer_counts], a
    label for exactly the answers that pass the vocabulary filter, and the
    field "label_weights" holds as many weights, the i-th being
    [get_score] of the i-th kept answer's count. *)
Theorem text_to_instance_labels (X : Externals) (self : VQAv2Reader)
    (question_text : string) (image : option (string + processed_image (tensor X)))
    (answer_counts : list (string * Z)) (use_cache : bool)
    (inst : instance (token X) (tensor X)) :
  text_to_instance X self question_text image (Some answer_counts) use_cache = Some inst ->
  let kept := List.filter (fun item => answer_allowed self item.1) answer_counts in
  dict_get "labels" (fields inst)
    = Some (ListField (map (fun item => LabelField item.1 "answers") kept))
  /\ exists weights,
       dict_get "label_weights" (fields inst) = Some (ArrayField (TorchTensor weights))
       /\ length weights = length kept
       /\ forall (i : nat) answer count,
            kept !! i = Some (answer, count) -> weights !! i = Some (get_score count).
Proof.
  rewrite text_to_instance_unfold. cbn zeta. fold (kept_answers self answer_counts).
  destruct (kept_answers self answer_counts) as [|item kept] eqn:E; [done|].
  rewrite <- E. clear E. intros H. apply (inj Some) in H. subst inst.
  cbn [fields]. split.
  - rewrite dict_get_set_ne by done. apply dict_get_set_eq.
  - eexists. split; [apply dict_get_set_eq|]. split; [apply length_map|].
    intros i answer count Hi.
    change (map ?f ?l) with (f <$> l). rewrite list_lookup_fmap, Hi. done.
Qed.

Lemma text_to_instance_labels_witness :
  let self := fixture_reader (Some {["yes"]}) in
  let answer_counts := [("yes", 2); ("maybe", 1); ("no", 7)] in
  let inst :=
    mkInstance [("question", TextField ["Is it raining?"]);
                ("labels", ListField [LabelField "yes" "answers"]);
                ("label_weights", ArrayField (TorchTensor [2 # 3]))] in
  text_to_instance fixture_externals self "Is it raining?" None (Some answer_counts) true
    = Some inst
  /\ let kept := List.filter (fun item => answer_allowed self item.1) answer_counts in
     dict_get "labels" (fields inst)
       = Some (ListField (map (fun item => LabelField item.1 "answers") kept))
     /\ exists weights,
          dict_get "label_weights" (fields inst) = Some (ArrayField (TorchTensor weights))
          /\ length weights = length kept
          /\ forall (i : nat) answer count,
               kept !! i = Some (answer, count) -> weights !! i = Some (get_score count).
Proof.
  intros self answer_counts inst.
  assert (text_to_instance fixture_externals self "Is it raining?" None
            (Some answer_counts) true = Some inst) as H by (vm_compute; reflexivity).
  split; [exact H|].
  exact (text_to_instance_labels fixture_externals self "Is it raining?" None
           answer_counts true inst H).
Defined.

(** ** Counting the answers of one annotation *)

Lemma counter_get_incr k k' c :
  counter_get k' (counter_incr k c)
  = if decide (k = k') then counter_get k' c + 1 else counter_get k' c.
Proof.
  unfold counter_get, counter_incr. destruct (decide (k = k')) as [->|Hne].
  - by rewrite dict_get_set_eq.
  - by rewrite dict_get_set_ne.
Qed.

Lemma counter_total_set k v c :
  counter_total (dict_set k v c) = counter_total c - counter_get k c + v.
Proof.
  unfold counter_total, counter_get, dict_values.
  induction c as [|[k' v'] c IH].
  - cbn. lia.
  - cbn [dict_set dict_get].
    destruct (decide (k = k')) as [->|Hne]; rewrite !fmap_cons; cbn [foldr snd default].
    + unfold id. lia.
    + rewrite IH. lia.
Qed.

Lemma counter_total_incr k c : counter_total (counter_incr k c) = counter_total c + 1.
Proof. unfold counter_incr. rewrite counter_total_set. unfold counter_get. lia. Qed.

Lemma counter_incr_keys k k' c :
  k' ∈ dict_keys (counter_incr k c) <-> k' = k \/ k' ∈ dict_keys c.
Proof.
  unfold counter_incr. destruct (decide (k ∈ dict_keys c)) as [Hin|Hnin].
  - rewrite dict_keys_set_in by done. split; [tauto | by intros [->|?]].
  - rewrite dict_keys_set_fresh by done. rewrite elem_of_app, list_elem_of_singleton.
    tauto.
Qed.

Section CountFacts.
Variable X : Externals.

Lemma count_loop_get s answers c :
  counter_get s (count_loop X answers c) = counter_get s c + votes X s answers.
Proof.
  revert c. induction answers as [|answer answers IH]; intros c.
  - unfold votes. simpl. lia.
  - change (count_loop X (answer :: answers) c)
      with (count_loop X answers (counter_incr (preprocess_answer X answer) c)).
    rewrite IH, counter_get_incr. unfold votes. simpl.
    destruct (decide (preprocess_answer X answer = s)) as [Heq|Hne].
    + rewrite bool_decide_true by done. simpl length. lia.
    + rewrite bool_decide_false by done. lia.
Qed.

Lemma count_loop_total answers c :
  counter_total (count_loop X answers c) = counter_total c + Z.of_nat (length answers).
Proof.
  revert c. induction answers as [|answer answers IH]; intros c.
  - simpl. lia.
  - change (count_loop X (answer :: answers) c)
      with (count_loop X answers (counter_incr (preprocess_answer X answer) c)).
    rewrite IH, counter_total_incr. simpl length. lia.
Qed.

Lemma count_loop_keys s answers c :
  s ∈ dict_keys (count_loop X answers c)
  <-> s ∈ dict_keys c \/ s ∈ map (preprocess_answer X) answers.
Proof.
  revert c. induction answers as [|answer answers IH]; intros c.
  - simpl. rewrite elem_of_nil. tauto.
  - change (count_loop X (answer :: answers) c)
      with (count_loop X answers (counter_incr (preprocess_answer X answer) c)).
    rewrite IH, counter_incr_keys. simpl. rewrite elem_of_cons. tauto.
Qed.

Lemma count_loop_NoDup answers c :
  NoDup (dict_keys c) -> NoDup (dict_keys (count_loop X answers c)).
Proof.
  revert c. induction answers as [|answer answers IH]; intros c Hnd; [done|].
  apply IH. by apply dict_set_NoDup.
Qed.

Lemma count_answers_NoDup self a : NoDup (dict_keys (count_answers X self a)).
Proof.
  unfold count_answers. destruct (multiple_answers_per_question self).
  - apply count_loop_NoDup, NoDup_nil_2.
  - apply NoDup_singleton.
Qed.

Lemma compute_answers_snoc self annotations a :
  compute_answers_by_question_id X self (annotations ++ [a])
  = dict_set (py_str (a_question_id a)) (count_answers X self a)
      (compute_answers_by_question_id X self annotations).
Proof. unfold compute_answers_by_question_id. by rewrite fold_left_app. Qed.
End CountFacts.

(** C5: for an annotation record, with [multiple_answers_per_question] set
    the answer-count dictionary maps every preprocessed answer string to
    the number of the record's answers that preprocess to it (and has no
    other keys), so that the counts add up to the number of answers; with
    it unset the dictionary has the single key
    [preprocess_answer(multiple_choice_answer)], with count 1.  Either way
    this dictionary is what is stored under the record's question id. *)
Theorem count_answers_spec (X : Externals) (self : VQAv2Reader) (a : annotation) :
  (multiple_answers_per_question self = true ->
     (forall s, s ∈ dict_keys (count_answers X self a)
                <-> s ∈ map (preprocess_answer X) (a_answers a))
     /\ (forall s, s ∈ dict_keys (count_answers X self a) ->
                   dict_get s (count_answers X self a) = Some (votes X s (a_answers a)))
     /\ NoDup (dict_keys (count_answers X self a))
     /\ counter_total (count_answers X self a) = Z.of_nat (length (a_answers a)))
  /\ (multiple_answers_per_question self = false ->
      count_answers X self a = [(preprocess_answer X (a_multiple_choice_answer a), 1)])
  /\ (forall earlier,
        dict_get (py_str (a_question_id a))
                 (compute_answers_by_question_id X self (earlier ++ [a]))
        = Some (count_answers X self a)).
Proof.
  split_and!.
  - intros Hm. pose proof (count_answers_NoDup X self a) as Hnd.
    unfold count_answers in *. rewrite Hm in *.
    split_and!.
    + intros s. rewrite count_loop_keys. simpl. rewrite elem_of_nil. tauto.
    + intros s Hs. pose proof (count_loop_get X s (a_answers a) []) as Hget.
      unfold counter_get in Hget. simpl in Hget.
      destruct (dict_get s (count_loop X (a_answers a) [])) as [v|] eqn:E.
      * simpl in Hget. by rewrite Hget.
      * apply dict_get_None in E. done.
    + done.
    + rewrite count_loop_total. unfold counter_total. simpl. lia.
  - intros Hm. unfold count_answers. by rewrite Hm.
  - intros earlier. rewrite compute_answers_snoc. apply dict_get_set_eq.
Qed.

(** ** Unknown split names *)

Lemma splits_keys : dict_keys splits = recognized_splits.
Proof. reflexivity. Qed.

(** C8: a split name that, once [get_data_slice] has taken the slicing
    syntax off, is none of the nine recognized names makes [_read] raise
    [ValueError] before anything is yielded (and before the file system or
    the cache is touched). *)
Theorem _read_unrecognized_split (X : Externals) (self : VQAv2Reader)
    (split_name : string) (w : world) :
((get_data_slice X split_name).2 ∉ recognized_splits) ->
  _read X self (inl split_name) w
  = ({| yielded := [];
        raised := Some (ValueError ("Unrecognized split: "
                                    +:+ (get_data_slice X split_name).2 +:+ ".")) |},
     w).
Proof.
  intros Hnot. rewrite <- splits_keys in Hnot. apply dict_get_None in Hnot.
  unfold _read, read_split, prepare_split.
  destruct (get_data_slice X split_name) as [question_slice name]. simpl in *.
  by rewrite Hnot.
Qed.

Lemma _read_unrecognized_split_witness :
  ((get_data_slice fixture_externals "balanced_real_dev").2 ∉ recognized_splits)
  /\ _read fixture_externals (fixture_reader None) (inl "balanced_real_dev")
       {| cached_path := fun _ => None; read_annotations := fun _ => None;
          read_questions := fun _ => None; cache := ∅ |}
     = ({| yielded := [];
           raised := Some (ValueError "Unrecognized split: balanced_real_dev.") |},
        {| cached_path := fun _ => None; read_annotations := fun _ => None;
           read_questions := fun _ => None; cache := ∅ |}).
Proof.
  assert ((get_data_slice fixture_externals "balanced_real_dev").2 ∉ recognized_splits)
    as H by (apply (bool_decide_unpack _); vm_compute; exact I).
  split; [exact H|].
  exact (_read_unrecognized_split fixture_externals (fixture_reader None)
           "balanced_real_dev" _ H).
Defined.

(** ** Alignment of questions, answers and images *)

Section AlignmentFacts.
Variable X : Externals.
Implicit Types (self : VQAv2Reader) (question_dicts : list question_dict).

Lemma lookup_image_paths_found self question_dicts :
  (forall q, q ∈ question_dicts ->
             is_Some (images self !! (inr (Some (image_id q)) : image_key))) ->
  exists image_paths, lookup_image_paths self question_dicts = inr image_paths.
Proof.
  induction question_dicts as [|q qs IH]; intros Hall; simpl; [by eexists|].
  destruct (Hall q) as [path Hpath]; [left|]. rewrite Hpath.
  destruct IH as [paths ->]; [|by eexists].
  intros q' Hq'. apply Hall. by right.
Qed.

Lemma lookup_image_paths_missing self question_dicts missing_id :
  lookup_image_paths self question_dicts = inl missing_id ->
  exists q, q ∈ question_dicts /\ image_id q = missing_id
            /\ images self !! (inr (Some (image_id q)) : image_key) = None.
Proof.
  induction question_dicts as [|q qs IH]; simpl; [done|].
  destruct (images self !! _) as [path|] eqn:E.
  - destruct (lookup_image_paths self qs) as [m|paths]; [|done].
    intros [= <-]. destruct IH as (q' & Hin & Hid & Hnone); [done|].
    exists q'. split; [by right | done].
  - intros [= <-]. exists q. split; [left | done].
Qed.

Lemma lookup_image_paths_raises self question_dicts q :
  q ∈ question_dicts ->
  images self !! (inr (Some (image_id q)) : image_key) = None ->
  exists missing_id, lookup_image_paths self question_dicts = inl missing_id.
Proof.
  induction question_dicts as [|q' qs IH]; [by intros ?%elem_of_nil|].
  intros Hin Hnone. simpl.
  destruct (images self !! (inr (Some (image_id q')) : image_key)) as [path|] eqn:E;
    [|by eexists].
  apply elem_of_cons in Hin as [->|Hin]; [congruence|].
  destruct (IH Hin Hnone) as [m ->]. by eexists.
Qed.

Lemma read_loop_featurized self answers question_dicts image_paths :
  lookup_image_paths self question_dicts = inr image_paths ->
  read_loop X self answers
    (zip question_dicts (Some <$> _process_image_paths X image_paths true))
  = omap (fun q =>
            path ← images self !! (inr (Some (image_id q)) : image_key);
            text_to_instance X self (question q) (Some (inr (featurize X true path)))
              (dict_get (py_str (question_id q)) answers) true)
         question_dicts.
Proof.
  revert image_paths. induction question_dicts as [|q qs IH]; intros paths; simpl.
  - by intros [= <-].
  - destruct (images self !! _) as [path|] eqn:E; [|done].
    destruct (lookup_image_paths self qs) as [m|paths'] eqn:E'; [done|].
    intros [= <-]. cbn. pose proof (IH paths' eq_refl) as IH'.
    unfold _process_image_paths in IH'. rewrite IH'.
    by destruct (text_to_instance _ _ _ _ _ _).
Qed.

Lemma read_loop_plain self answers question_dicts :
  read_loop X self answers
    (zip question_dicts (replicate (length question_dicts) None))
  = omap (fun q =>
            text_to_instance X self (question q) None
              (dict_get (py_str (question_id q)) answers) true)
         question_dicts.
Proof.
  induction question_dicts as [|q qs IH]; simpl; [done|].
  cbn. rewrite IH. by destruct (text_to_instance _ _ _ _ _ _).
Qed.

Lemma _get_answers_no_annotations self split w :
  annotations split = None ->
  _get_answers_by_question_id X self split w = (inr [], w).
Proof. intros H. unfold _get_answers_by_question_id. by rewrite H. Qed.
End AlignmentFacts.

(** ** Questions without an answer in the vocabulary *)

Lemma lookup_image_paths_all_found (self : VQAv2Reader) (question_dicts : list question_dict)
    (image_paths : list string) :
  lookup_image_paths self question_dicts = inr image_paths ->
  forall q, q ∈ question_dicts ->
            is_Some (images self !! (inr (Some (image_id q)) : image_key)).
Proof.
  revert image_paths. induction question_dicts as [|q0 qs IH]; intros paths; simpl.
  - by intros _ q ?%elem_of_nil.
  - destruct (images self !! _) as [path|] eqn:E; [|done].
    destruct (lookup_image_paths self qs) as [m|paths'] eqn:E'; [done|].
    intros _ q [->|Hq]%elem_of_cons; [by rewrite E | by apply (IH paths')].
Qed.

Lemma omap_ext_in {A B} (f g : A -> option B) (l : list A) :
  (forall a, a ∈ l -> f a = g a) -> omap f l = omap g l.
Proof.
  induction l as [|a l IH]; intros H; [done|]. csimpl.
  rewrite (H a) by left. rewrite IH; [done|]. intros a' Ha'. apply H. by right.
Qed.

Lemma omap_filter_Forall2 {A B} (f : A -> option B) (d : A -> bool) (l : list A) :
  (forall a, d a = true <-> f a = None) ->
  Forall2 (fun a b => f a = Some b) (List.filter (fun a => negb (d a)) l) (omap f l).
Proof.
  intros Hd. induction l as [|a l IH]; [constructor|]. csimpl.
  destruct (f a) as [b|] eqn:Hf.
  - destruct (d a) eqn:Hda; [apply Hd in Hda; congruence|]. simpl. by constructor.
  - apply Hd in Hf. rewrite Hf. simpl. exact IH.
Qed.

(** What [_read] yields for a split whose files load: nothing when it
    raises, and otherwise what [text_to_instance] gives for each question
    with the answers stored under its id and the image stored under its
    image id. *)
Lemma _read_by_question (X : Externals) (self : VQAv2Reader) (split_name : string)
    (w w1 : world) (split : Split) (answers : list (string * list (string * Z)))
    (path : string) (questions_list : list question_dict) :
  dict_get (get_data_slice X split_name).2 splits = Some split ->
  _get_answers_by_question_id X self split w = (inr answers, w1) ->
  cached_path w1 (questions split) = Some path ->
  read_questions w1 path = Some questions_list ->
  let question_dicts :=
    shard_iterable X (apply_slice X (get_data_slice X split_name).1 questions_list) in
  let run := (_read X self (inl split_name) w).1 in
  (raised run <> None -> yielded run = [])
  /\ (raised run = None ->
      yielded run
      = omap (fun q =>
                text_to_instance X self (question q)
                  (if produce_featurized_images self
                   then (fun image_path =>
                           (inr (featurize X true image_path)
                            : string + processed_image (tensor X)))
                          <$> images self !! (inr (Some (image_id q)) : image_key)
                   else None)
                  (dict_get (py_str (question_id q)) answers) true)
             question_dicts).
Proof.
  intros Hsplit Hget Hpath Hquestions question_dicts run.
  assert (run
          = if produce_featurized_images self then
              match lookup_image_paths self question_dicts with
              | inl missing_id => {| yielded := []; raised := Some (KeyError missing_id) |}
              | inr image_paths =>
                  {| yielded := read_loop X self answers
                                  (zip question_dicts
                                     (Some <$> _process_image_paths X image_paths true));
                     raised := None |}
              end
            else {| yielded := read_loop X self answers
                                 (zip question_dicts
                                    (replicate (length question_dicts) None));
                    raised := None |}) as ->.
  { subst run question_dicts. unfold _read, read_split, prepare_split.
    destruct (get_data_slice X split_name) as [question_slice name]. simpl in *.
    rewrite Hsplit. unfold bind at 1. rewrite Hget.
    unfold bind at 1. unfold fetch at 1. rewrite Hpath.
    unfold bind at 1. unfold load_questions at 1. rewrite Hquestions.
    destruct (produce_featurized_images self); [|reflexivity].
    by destruct (lookup_image_paths self _). }
  destruct (produce_featurized_images self).
  - destruct (lookup_image_paths self question_dicts) as [m|paths] eqn:Hlookup;
      cbn [yielded raised]; [done|].
    split; [done|]. intros _.
    rewrite (read_loop_featurized X self answers _ paths Hlookup).
    apply omap_ext_in. intros q Hq.
    by destruct (lookup_image_paths_all_found self question_dicts paths Hlookup q Hq)
      as [image_path ->].
  - cbn [yielded raised]. split; [done|]. intros _. apply read_loop_plain.
Qed.

(** The instances that a read of a list yields are those of the reads of
    its names, each name read in the world left by the names before it. *)
Lemma read_splits_yielded_at (X : Externals) (self : VQAv2Reader)
    (split_names : list string) (w : world) (inst : instance (token X) (tensor X)) :
  inst ∈ yielded (read_splits X self split_names w).1 ->
  exists before split_name after,
    split_names = before ++ split_name :: after
    /\ raised (read_splits X self before w).1 = None
    /\ inst ∈ yielded (read_split X self split_name (read_splits X self before w).2).1.
Proof.
  revert w. induction split_names as [|s rest IH]; intros w; simpl.
  - by intros ?%elem_of_nil.
  - destruct (read_split X self s w) as [g w'] eqn:E.
    destruct (raised g) as [e|] eqn:Er; cbn [fst].
    + intros Hin. exists [], s, rest. simpl. by rewrite E.
    + destruct (read_splits X self rest w') as [g' w''] eqn:E'. cbn [fst].
      unfold chain. rewrite Er. cbn [yielded]. intros [Hin|Hin]%elem_of_app.
      * exists [], s, rest. simpl. by rewrite E.
      * specialize (IH w'). rewrite E' in IH.
        destruct (IH Hin) as (before & s' & after & -> & Hnone & Hin').
        exists (s :: before), s', after. simpl. rewrite E, Er.
        destruct (read_splits X self before w') as [g1 w1]. cbn [fst snd] in *.
        unfold chain. rewrite Er. by cbn [raised].
Qed.

(** C2: with answer counts given, [text_to_instance] returns [None]
    exactly when no answer of [answer_counts] passes the vocabulary
    filter.  A reader constructed with a vocabulary lets an answer pass
    exactly when it is in the preprocessed vocabulary; one constructed
    without lets every answer pass, so that [None] is returned exactly for
    the empty mapping.  Hence [_read] yields nothing for a question whose
    recorded answers, those stored under [str(question_id)] in the mapping
    of the split, are all outside the vocabulary: the instances yielded
    for a split are, in order, one for each of the other questions, built
    from that question and its recorded answers; and every instance
    yielded for a list of names is yielded by the read of one of the
    names. *)
Theorem text_to_instance_none_iff (X : Externals) (self : VQAv2Reader)
    (question_text : string) (image : option (string + processed_image (tensor X)))
    (answer_counts : list (string * Z)) (use_cache : bool) :
  (text_to_instance X self question_text image (Some answer_counts) use_cache = None
   <-> forall answer, answer ∈ dict_keys answer_counts -> answer_allowed self answer = false)
  /\ (forall super__init__ from_files image_dir run_featurization vocabulary multiple w
             self' answer,
        (__init__ X super__init__ from_files image_dir run_featurization vocabulary
           multiple w).1 = inr self' ->
        answer_allowed self' answer = true <->
        match vocabulary with
        | Some (inr keys) => answer ∈ map (preprocess_answer X) keys
        | Some (inl location) =>
            exists vocabulary_path keys,
              cached_path w location = Some vocabulary_path
              /\ from_files vocabulary_path = inr keys
              /\ answer ∈ map (preprocess_answer X) keys
        | None => True
        end)
  /\ (answer_vocab self = None ->
      (text_to_instance X self question_text image (Some answer_counts) use_cache = None
       <-> answer_counts = []))
  /\ (forall split_name w w1 split answers path questions_list,
        dict_get (get_data_slice X split_name).2 splits = Some split ->
        _get_answers_by_question_id X self split w = (inr answers, w1) ->
        cached_path w1 (questions split) = Some path ->
        read_questions w1 path = Some questions_list ->
        let question_dicts :=
          shard_iterable X (apply_slice X (get_data_slice X split_name).1 questions_list) in
        let run := (_read X self (inl split_name) w).1 in
        let recorded q := dict_get (py_str (question_id q)) answers in
        let all_outside q :=
          match recorded q with
          | Some counts =>
              forallb (fun answer => negb (answer_allowed self answer)) (dict_keys counts)
          | None => false
          end in
        (raised run <> None -> yielded run = [])
        /\ (raised run = None ->
            Forall2 (fun q inst =>
                       text_to_instance X self (question q)
                         (if produce_featurized_images self
                          then (fun image_path =>
                                  (inr (featurize X true image_path)
                                   : string + processed_image (tensor X)))
                                 <$> images self !! (inr (Some (image_id q)) : image_key)
                          else None)
                         (recorded q) true
                       = Some inst)
                    (List.filter (fun q => negb (all_outside q)) question_dicts)
                    (yielded run)))
  /\ (forall split_names w inst,
        inst ∈ yielded (_read X self (inr split_names) w).1 ->
        exists before split_name after,
          split_names = before ++ split_name :: after
          /\ raised (_read X self (inr before) w).1 = None
          /\ inst ∈ yielded (_read X self (inl split_name)
                               (_read X self (inr before) w).2).1).
Proof.
  assert (forall s q i ac u,
             text_to_instance X s q i (Some ac) u = None
             <-> forall answer, answer ∈ dict_keys ac -> answer_allowed s answer = false)
    as Hnone.
  { intros s q i ac u. rewrite text_to_instance_unfold, <- kept_answers_nil. cbn zeta.
    by destruct (kept_answers s ac). }
  split_and!.
  - apply Hnone.
  - intros super__init__ from_files image_dir run_featurization vocabulary multiple w
      self' answer Hinit.
    destruct (init_outcome_cases X super__init__ from_files image_dir run_featurization
                vocabulary multiple w) as [_ Hcases].
    cbn zeta in Hcases. rewrite Hinit in Hcases.
    destruct Hcases as [(_ & _ & msg & [=])|[(_ & e & _ & [=])
      |[(_ & super & location & _ & _ & _ & [=])
       |[(_ & super & location & vocabulary_path & e & _ & _ & _ & _ & [=])
        |(_ & super & keys & self0 & _ & Hkeys & [= <-] & Hvocab & _)]]]].
    unfold answer_allowed. rewrite Hvocab.
    destruct vocabulary as [[location|given]|].
    + destruct Hkeys as (vocabulary_path & loaded & Hpath & Hload & ->). simpl.
      rewrite bool_decide_eq_true, elem_of_list_to_set. split.
      * intros Hin. by exists vocabulary_path, loaded.
      * intros (vocabulary_path' & keys' & Hpath' & Hload' & Hin). congruence.
    + subst keys. simpl. by rewrite bool_decide_eq_true, elem_of_list_to_set.
    + by subst keys.
  - intros Hvocab. rewrite Hnone. unfold answer_allowed. rewrite Hvocab.
    destruct answer_counts as [|[a c] rest].
    + split; [done|]. by intros _ ? ?%elem_of_nil.
    + split; [|done]. intros H. discriminate (H a). left.
  - intros split_name w w1 split answers path questions_list Hsplit Hget Hpath Hquestions
      question_dicts run recorded all_outside.
    destruct (_read_by_question X self split_name w w1 split answers path questions_list
                Hsplit Hget Hpath Hquestions) as [Hraised Hyielded].
    split; [exact Hraised|]. intros Hrun. fold question_dicts run in Hyielded.
    rewrite (Hyielded Hrun).
    apply (omap_filter_Forall2
             (fun q => text_to_instance X self (question q) _ (recorded q) true)).
    intros q. unfold all_outside. destruct (recorded q) as [counts|].
    + rewrite Hnone, forallb_forall. split.
      * intros H answer Hin%list_elem_of_In. by apply negb_true_iff, H.
      * intros H answer Hin%list_elem_of_In. by apply negb_true_iff, H.
    + by rewrite text_to_instance_no_answers.
  - intros split_names w inst Hin. by apply read_splits_yielded_at.
Qed.


(** ** JSON text: what is written is read back *)

Lemma scan_string_escape (c : ascii) (tail : list ascii) :
  scan_string (escape_char c ++ tail) = prepend c (scan_string tail).
Proof. destruct c as [[] [] [] [] [] [] [] []]; reflexivity. Qed.

Lemma scan_string_encode (cs rest : list ascii) :
  scan_string (flat_map escape_char cs ++ quote :: rest) = Some (cs, rest).
Proof.
  induction cs as [|c cs IH]; [done|].
  simpl. rewrite <- app_assoc, scan_string_escape, IH. done.
Qed.

Lemma digit_char_spec (d : N) :
  (d < 10)%N -> is_digit (digit_char d) = true /\ digit_value (digit_char d) = Z.of_N d
                /\ (digit_char d = "0"%char -> d = 0%N).
Proof.
  intros Hd.
  assert (d = 0 \/ d = 1 \/ d = 2 \/ d = 3 \/ d = 4 \/ d = 5 \/ d = 6 \/ d = 7
          \/ d = 8 \/ d = 9)%N as H by lia.
  repeat (destruct H as [->|H]); try subst d; by split_and!.
Qed.

Lemma decimal_value_snoc (ds : list ascii) (d : ascii) :
  decimal_value (ds ++ [d]) = 10 * decimal_value ds + digit_value d.
Proof. unfold decimal_value. by rewrite fold_left_app. Qed.

Lemma decimal_digits_spec (fuel : nat) (n : N) (acc : list ascii) :
  (N.to_nat (N.log2 n) < fuel)%nat ->
  exists ds,
    decimal_digits fuel n acc = ds ++ acc
    /\ forallb is_digit ds = true
    /\ ds <> []
    /\ decimal_value ds = Z.of_N n
    /\ (hd "0"%char ds = "0"%char -> ds = ["0"%char]).
Proof.
  revert n acc. induction fuel as [|fuel IH]; intros n acc Hfuel; [lia|].
  cbn [decimal_digits]. pose proof (N.mod_upper_bound n 10 ltac:(done)) as Hmod.
  destruct (digit_char_spec (n mod 10) Hmod) as (Hdigit & Hvalue & Hzero).
  destruct (N.eqb_spec (n / 10) 0) as [Hsmall|Hlarge].
  - exists [digit_char (n mod 10)]. split_and!; try done.
    + simpl. by rewrite Hdigit.
    + unfold decimal_value. simpl. rewrite Hvalue.
      pose proof (N.div_mod n 10 ltac:(done)). lia.
    + simpl. by intros ->.
  - destruct (IH (n / 10)%N (digit_char (n mod 10) :: acc)) as (ds & -> & Hds & Hne & Hval & Hhd).
    { assert (N.log2 (n / 10) < N.log2 n)%N; [|lia].
      assert (n / 10 <= n / 2)%N as Hle by (apply N.div_le_compat_l; lia).
      assert (2 <= n)%N as Hn.
      { destruct (N.lt_ge_cases n 2) as [Hlt|]; [|done].
        rewrite N.div_small in Hlarge by lia. done. }
      apply N.le_lt_trans with (N.log2 (n / 2)); [by apply N.log2_le_mono|].
      rewrite <- N.div2_div, N.div2_spec, N.log2_shiftr.
      assert (0 < N.log2 n)%N; [|lia].
      apply N.log2_pos. lia. }
    exists (ds ++ [digit_char (n mod 10)]). split_and!.
    + by rewrite <- app_assoc.
    + rewrite forallb_app, Hds. simpl. by rewrite Hdigit.
    + by destruct ds.
    + rewrite decimal_value_snoc, Hval, Hvalue.
      pose proof (N.div_mod n 10 ltac:(done)). lia.
    + destruct ds as [|d ds]; [done|]. simpl in *. intros H. specialize (Hhd H).
      injection Hhd as -> ->. change (decimal_value ["0"%char]) with 0 in Hval. lia.
Qed.


Lemma str_N_spec (n : N) :
  exists ds,
    str_N n = ds
    /\ forallb is_digit ds = true
    /\ ds <> []
    /\ decimal_value ds = Z.of_N n
    /\ (hd "0"%char ds = "0"%char -> ds = ["0"%char]).
Proof.
  unfold str_N.
  destruct (decimal_digits_spec (S (N.to_nat (N.log2 n))) n []) as (ds & -> & H);
    [lia|].
  exists ds. by rewrite app_nil_r.
Qed.

Lemma span_digits_app (ds rest : list ascii) :
  forallb is_digit ds = true -> follow_ok rest ->
  span_digits (ds ++ rest) = (ds, rest).
Proof.
  intros Hds (c & tail & -> & Hc). induction ds as [|d ds IH]; simpl in *.
  - by destruct Hc as [-> | ->].
  - apply andb_true_iff in Hds as [Hd Hds]. by rewrite Hd, IH.
Qed.

Lemma scan_digits_str_N (n : N) (rest : list ascii) :
  follow_ok rest -> scan_digits (str_N n ++ rest) = Some (Z.of_N n, rest).
Proof.
  intros Hrest. destruct (str_N_spec n) as (ds & -> & Hds & Hne & Hval & Hhd).
  unfold scan_digits. rewrite span_digits_app by done.
  destruct ds as [|d ds]; [done|].
  assert (starts_fraction rest = false) as ->.
  { destruct Hrest as (c & tail & -> & [-> | ->]); done. }
  rewrite orb_false_r.
  destruct (Ascii.eqb_spec d "0") as [->|Hd]; simpl.
  - specialize (Hhd eq_refl). injection Hhd as ->. simpl. by rewrite Hval.
  - by rewrite Hval.
Qed.

Lemma skip_ws_not_ws (c : ascii) (s : list ascii) :
  is_ws c = false -> skip_ws (c :: s) = c :: s.
Proof. intros H. simpl. by rewrite H. Qed.

Lemma str_N_head (n : N) :
  exists d ds, str_N n = d :: ds /\ is_digit d = true.
Proof.
  destruct (str_N_spec n) as (ds & -> & Hds & Hne & _).
  destruct ds as [|d ds]; [done|]. simpl in Hds. apply andb_true_iff in Hds as [Hd _].
  by exists d, ds.
Qed.

Lemma is_digit_not_ws (d : ascii) : is_digit d = true -> is_ws d = false.
Proof. destruct d as [[] [] [] [] [] [] [] []]; done. Qed.

Lemma is_digit_not_minus (d : ascii) : is_digit d = true -> Ascii.eqb d "-" = false.
Proof. destruct d as [[] [] [] [] [] [] [] []]; done. Qed.

Lemma scan_int_str_int (z : Z) (rest : list ascii) :
  follow_ok rest -> scan_int (" "%char :: str_int z ++ rest) = Some (z, rest).
Proof.
  intros Hrest. unfold scan_int.
  change (skip_ws (" "%char :: ?s)) with (skip_ws s).
  assert (forall n, skip_ws (str_N n ++ rest) = str_N n ++ rest
                    /\ exists d ds, str_N n = d :: ds /\ Ascii.eqb d "-" = false) as HN.
  { intros n. destruct (str_N_head n) as (d & ds & Heq & Hd). rewrite Heq. split.
    - simpl. by rewrite is_digit_not_ws.
    - exists d, ds. split; [done|]. by apply is_digit_not_minus. }
  destruct z as [|p|p]; simpl str_int.
  - destruct (HN 0%N) as [-> (d & ds & Heq & Hd)].
    pose proof (scan_digits_str_N 0 rest Hrest) as Hscan.
    rewrite Heq in *. simpl. rewrite Hd. exact Hscan.
  - destruct (HN (Npos p)) as [-> (d & ds & Heq & Hd)].
    pose proof (scan_digits_str_N (Npos p) rest Hrest) as Hscan.
    rewrite Heq in *. simpl. rewrite Hd. exact Hscan.
  - simpl. by rewrite scan_digits_str_N.
Qed.

Section ObjectRoundTrip.
Context {V : Type}.
Variable encode_value : V -> list ascii.
Variable parse_value : list ascii -> option (V * list ascii).

Lemma encode_members_cons (k : string) (v : V) (members : list (string * V)) :
  encode_members encode_value ((k, v) :: members)
  = encode_string k ++ ":"%char :: " "%char :: encode_value v
      ++ match members with
         | [] => []
         | _ :: _ => ","%char :: " "%char :: encode_members encode_value members
         end.
Proof. destruct members; simpl; [by rewrite app_nil_r | done]. Qed.

Lemma parse_members_space (fuel : nat) (s : list ascii) (acc : list (string * V)) :
  parse_members parse_value fuel (" "%char :: s) acc = parse_members parse_value fuel s acc.
Proof. by destruct fuel. Qed.

Lemma parse_members_encode (members : list (string * V)) (fuel : nat)
    (acc : list (string * V)) (tail : list ascii) :
  members <> [] ->
  (length members <= fuel)%nat ->
  (forall k v rest, (k, v) ∈ members -> follow_ok rest ->
                    parse_value (" "%char :: encode_value v ++ rest) = Some (v, rest)) ->
  parse_members parse_value fuel (encode_members encode_value members ++ "}"%char :: tail) acc
  = Some (acc ++ members, tail).
Proof.
  revert fuel acc. induction members as [|[k v] members IH]; intros fuel acc Hne Hfuel Hvalues;
    [done|].
  destruct fuel as [|fuel]; [simpl in Hfuel; lia|].
  set (rest := match members with
               | [] => []
               | _ :: _ => ","%char :: " "%char :: encode_members encode_value members
               end ++ "}"%char :: tail).
  assert (encode_members encode_value ((k, v) :: members) ++ "}"%char :: tail
          = quote :: flat_map escape_char (list_ascii_of_string k)
              ++ quote :: ":"%char :: " "%char :: encode_value v ++ rest) as ->.
  { rewrite encode_members_cons. unfold encode_string, rest.
    cbn [app]. rewrite <- !app_assoc. cbn [app]. by rewrite <- !app_assoc. }
  assert (follow_ok rest) as Hrest.
  { unfold rest. destruct members; cbn [app].
    - eexists _, _. split; [reflexivity | by right].
    - eexists _, _. split; [reflexivity | by left]. }
  cbn [parse_members].
  rewrite skip_ws_not_ws by done. rewrite Ascii.eqb_refl.
  rewrite scan_string_encode.
  rewrite skip_ws_not_ws by done. rewrite Ascii.eqb_refl.
  rewrite (Hvalues k v) by (done || left).
  rewrite string_of_list_ascii_of_string.
  unfold rest. destruct members as [|m members]; cbn [app].
  - rewrite skip_ws_not_ws by done. by rewrite Ascii.eqb_refl.
  - rewrite skip_ws_not_ws by done. rewrite Ascii.eqb_refl.
    rewrite parse_members_space, IH.
    + by rewrite <- app_assoc.
    + done.
    + simpl in *. lia.
    + intros k' v' rest' Hin. apply (Hvalues k'). by right.
Qed.

Lemma parse_object_encode (members : list (string * V)) (fuel : nat) (tail : list ascii) :
  (length members <= fuel)%nat ->
  (forall k v rest, (k, v) ∈ members -> follow_ok rest ->
                    parse_value (" "%char :: encode_value v ++ rest) = Some (v, rest)) ->
  parse_object parse_value fuel (encode_object encode_value members ++ tail)
  = Some (members, tail).
Proof.
  intros Hfuel Hvalues. unfold parse_object, encode_object. cbn [app].
  rewrite skip_ws_not_ws by done. rewrite Ascii.eqb_refl.
  destruct members as [|[k v] members].
  - cbn [encode_members app]. rewrite skip_ws_not_ws by done. by rewrite Ascii.eqb_refl.
  - rewrite <- app_assoc. cbn [app].
    rewrite (parse_members_encode ((k, v) :: members) fuel [] tail); try done.
    rewrite encode_members_cons. unfold encode_string. cbn [app].
    rewrite skip_ws_not_ws by done. done.
Qed.

Lemma parse_object_space (fuel : nat) (s : list ascii) :
  parse_object parse_value fuel (" "%char :: s) = parse_object parse_value fuel s.
Proof. done. Qed.

Lemma encode_members_length (members : list (string * V)) :
  (length members <= length (encode_members encode_value members))%nat.
Proof.
  induction members as [|[k v] members IH]; [done|].
  rewrite encode_members_cons. unfold encode_string.
  rewrite !length_app. cbn [length app]. rewrite !length_app. cbn [length].
  destruct members as [|m ms]; cbn [length] in *; lia.
Qed.
End ObjectRoundTrip.

Lemma parse_doc_dump (d : list (string * list (string * Z))) :
  parse_doc (json_dump d) = Some d.
Proof.
  unfold parse_doc, json_dump.
  pose proof (parse_object_encode (encode_object str_int)
                (parse_object scan_int (length (encode_object (encode_object str_int) d)))
                d (length (encode_object (encode_object str_int) d)) []) as H.
  rewrite app_nil_r in H. rewrite H; [done| |].
  - unfold encode_object at 1. cbn [length]. rewrite length_app.
    pose proof (encode_members_length (encode_object str_int) d). lia.
  - intros k c rest Hin Hrest. rewrite parse_object_space.
    apply parse_object_encode.
    + pose proof (encode_members_length str_int c) as Hc.
      assert (length (encode_object str_int c)
              <= length (encode_members (encode_object str_int) d))%nat as Hd.
      { clear -Hin. induction d as [|[k' c'] d IH]; [by apply elem_of_nil in Hin|].
        rewrite encode_members_cons, !length_app. cbn [length]. rewrite !length_app.
        apply elem_of_cons in Hin as [[= <- <-]|Hin]; [lia|].
        specialize (IH Hin). destruct d; [by apply elem_of_nil in Hin|].
        cbn [length]. lia. }
      unfold encode_object in *. cbn [length] in *. rewrite !length_app in *.
      cbn [length] in *. lia.
    + intros k' v rest' _ Hrest'. by apply scan_int_str_int.
Qed.

(** [str] tells integers apart. *)
Lemma str_int_inj (a b : Z) : str_int a = str_int b -> a = b.
Proof.
  assert (forall n m, str_N n = str_N m -> n = m) as HN.
  { intros n m H. destruct (str_N_spec n) as (ds & Hn & _ & _ & Hvn & _).
    destruct (str_N_spec m) as (ds' & Hm & _ & _ & Hvm & _).
    assert (Z.of_N n = Z.of_N m) by congruence. lia. }
  assert (forall n m, str_N n <> "-"%char :: str_N m) as Hsign.
  { intros n m H. destruct (str_N_head n) as (d & ds & Heq & Hd).
    rewrite Heq in H. injection H as -> _. done. }
  destruct a as [|p|p], b as [|q|q]; simpl; intros H; try done;
    try (by apply HN in H);
    try (by apply Hsign in H);
    try (symmetry in H; by apply Hsign in H);
    try (apply HN in H; by injection H as ->);
    try (injection H as H; apply HN in H; by injection H as ->).
Qed.

Lemma py_str_inj (a b : Z) : py_str a = py_str b -> a = b.
Proof.
  unfold py_str. intros H. apply str_int_inj.
  by rewrite <- (list_ascii_of_string_of_list_ascii (str_int a)), H,
       list_ascii_of_string_of_list_ascii.
Qed.

(** ** The annotation cache *)

Section CacheFacts.
Variable X : Externals.
Implicit Types (self : VQAv2Reader) (w : world).

Lemma dict_set_elem {K V} `{EqDecision K} (k k0 : K) (v v0 : V) (d : list (K * V)) :
  (k0, v0) ∈ dict_set k v d -> v0 = v \/ (k0, v0) ∈ d.
Proof.
  induction d as [|[k' v'] d IH]; simpl.
  - intros [= -> ->]%list_elem_of_singleton. by left.
  - destruct (decide (k = k')) as [->|Hne].
    + intros [[= -> ->]|Hin]%elem_of_cons; [by left|]. right. by right.
    + intros [[= -> ->]|Hin]%elem_of_cons; [right; left|].
      destruct (IH Hin) as [->|Hin']; [by left|]. right. by right.
Qed.

Lemma compute_answers_NoDup self annotations :
  NoDup (dict_keys (compute_answers_by_question_id X self annotations)).
Proof.
  induction annotations as [|a annotations IH] using rev_ind.
  - apply NoDup_nil_2.
  - rewrite compute_answers_snoc. by apply dict_set_NoDup.
Qed.

Lemma compute_answers_inner_NoDup self annotations k c :
  (k, c) ∈ compute_answers_by_question_id X self annotations -> NoDup (dict_keys c).
Proof.
  induction annotations as [|a annotations IH] using rev_ind.
  - by intros ?%elem_of_nil.
  - rewrite compute_answers_snoc. intros [->|Hin]%dict_set_elem; [|by apply IH].
    apply count_answers_NoDup.
Qed.

(** Dumping a dictionary of dictionaries and loading it again gives it
    back: the text parses to the items that were written, and no key
    occurs twice at either level. *)
Lemma json_load_dump (m : list (string * list (string * Z))) :
  NoDup (dict_keys m) ->
  (forall k c, (k, c) ∈ m -> NoDup (dict_keys c)) ->
  json_load (json_dump m) = Some m.
Proof.
  intros Houter Hinner. unfold json_load. rewrite parse_doc_dump. f_equal.
  assert (map (fun kv : string * list (string * Z) => (kv.1, dict_of_items kv.2)) m = m)
    as ->.
  { clear Houter. induction m as [|[k c] m IH]; simpl; [done|].
    rewrite (dict_of_items_NoDup c) by (apply (Hinner k); left).
    f_equal. apply IH. intros k' c' Hin. apply (Hinner k'). by right. }
  by apply dict_of_items_NoDup.
Qed.

Lemma compute_answers_roundtrip self annotations :
  json_load (json_dump (compute_answers_by_question_id X self annotations))
  = Some (compute_answers_by_question_id X self annotations).
Proof.
  apply json_load_dump.
  - apply compute_answers_NoDup.
  - apply compute_answers_inner_NoDup.
Qed.

Lemma compute_answers_settings self self' annotations :
  multiple_answers_per_question self' = multiple_answers_per_question self ->
  compute_answers_by_question_id X self' annotations
  = compute_answers_by_question_id X self annotations.
Proof.
  intros Hm. unfold compute_answers_by_question_id, count_answers. by rewrite Hm.
Qed.

Lemma _get_answers_fresh self split url path annotations_list w :
  annotations split = Some url ->
  cached_path w url = Some path ->
  cache w !! (url +:+ "-cache", path) = None ->
  read_annotations w path = Some annotations_list ->
  _get_answers_by_question_id X self split w
  = (inr (compute_answers_by_question_id X self annotations_list),
     write_cache (url +:+ "-cache", path)
       (json_dump (compute_answers_by_question_id X self annotations_list)) w).
Proof.
  intros Hsplit Hpath Hcache Hfile.
  unfold _get_answers_by_question_id. rewrite Hsplit.
  unfold bind, fetch, get_world. rewrite Hpath, Hcache.
  unfold load_annotations. by rewrite Hfile.
Qed.

Lemma _get_answers_cached self split url path doc w :
  annotations split = Some url ->
  cached_path w url = Some path ->
  cache w !! (url +:+ "-cache", path) = Some doc ->
  _get_answers_by_question_id X self split w
  = (match json_load doc with
     | Some answers_by_question_id => inr answers_by_question_id
     | None => inl (ValueError "json.decoder.JSONDecodeError")
     end, w).
Proof.
  intros Hsplit Hpath Hcache.
  unfold _get_answers_by_question_id. rewrite Hsplit.
  unfold bind, fetch, get_world. rewrite Hpath, Hcache.
  by destruct (json_load doc).
Qed.

Lemma _get_answers_unreachable self split url w :
  annotations split = Some url ->
  cached_path w url = None ->
  _get_answers_by_question_id X self split w = (inl (OSError url), w).
Proof.
  intros Hsplit Hpath.
  unfold _get_answers_by_question_id. rewrite Hsplit.
  unfold bind, fetch. by rewrite Hpath.
Qed.

Lemma _get_answers_unreadable self split url path w :
  annotations split = Some url ->
  cached_path w url = Some path ->
  cache w !! (url +:+ "-cache", path) = None ->
  read_annotations w path = None ->
  _get_answers_by_question_id X self split w = (inl (OSError path), w).
Proof.
  intros Hsplit Hpath Hcache Hfile.
  unfold _get_answers_by_question_id. rewrite Hsplit.
  unfold bind, fetch, get_world. rewrite Hpath, Hcache.
  unfold load_annotations. by rewrite Hfile.
Qed.
End CacheFacts.

(** In the mapping computed from the annotations file, [str(qid)] leads
    to the counts of the last annotation that carries [qid]. *)
Lemma compute_answers_lookup (X : Externals) (self : VQAv2Reader)
    (annotations_list : list annotation) (qid : Z) :
  dict_get (py_str qid) (compute_answers_by_question_id X self annotations_list)
  = count_answers X self <$> annotation_for qid annotations_list.
Proof.
  unfold annotation_for.
  induction annotations_list as [|a annotations_list IH] using rev_ind; [done|].
  rewrite compute_answers_snoc, List.filter_app. simpl.
  destruct (decide (a_question_id a = qid)) as [<-|Hne].
  - rewrite dict_get_set_eq, bool_decide_true by done. by rewrite last_snoc.
  - rewrite dict_get_set_ne by (intros ?%py_str_inj; done).
    rewrite bool_decide_false by done. by rewrite app_nil_r.
Qed.

(** C6: for a split whose annotations and questions load, every instance
    that [_read] yields is built, in order, from one question of the
    (sliced, sharded) question list, from the answer counts stored under
    [str(question_id)] in the annotation-derived mapping ([None] when the
    key is absent; the mapping is empty for a split without annotations;
    computed from the annotations file, it holds under [str(qid)] the
    counts of the last annotation whose question id is [qid])
    and, with featurization on, from the processed image of the path
    stored under the question's [image_id].  With featurization on, a
    question whose [image_id] has no image makes [_read] raise [KeyError]
    for a missing image id without yielding anything. *)
Theorem _read_aligned (X : Externals) (self : VQAv2Reader) (split_name : string)
    (w w1 : world) (split : Split) (answers : list (string * list (string * Z)))
    (path : string) (questions_list : list question_dict) :
  dict_get (get_data_slice X split_name).2 splits = Some split ->
  _get_answers_by_question_id X self split w = (inr answers, w1) ->
  cached_path w1 (questions split) = Some path ->
  read_questions w1 path = Some questions_list ->
  let question_dicts :=
    shard_iterable X (apply_slice X (get_data_slice X split_name).1 questions_list) in
  let run := (_read X self (inl split_name) w).1 in
  (annotations split = None -> answers = [])
  /\ (forall url annotations_path annotations_list,
        annotations split = Some url ->
        cached_path w url = Some annotations_path ->
        cache w !! (url +:+ "-cache", annotations_path) = None ->
        read_annotations w annotations_path = Some annotations_list ->
        forall qid,
          dict_get (py_str qid) answers
          = count_answers X self <$> annotation_for qid annotations_list)
  /\ (produce_featurized_images self = false ->
      raised run = None
      /\ yielded run
         = omap (fun q =>
                   text_to_instance X self (question q) None
                     (dict_get (py_str (question_id q)) answers) true)
                question_dicts)
  /\ (produce_featurized_images self = true ->
      (forall q, q ∈ question_dicts ->
                 is_Some (images self !! (inr (Some (image_id q)) : image_key))) ->
      raised run = None
      /\ yielded run
         = omap (fun q =>
                   path ← images self !! (inr (Some (image_id q)) : image_key);
                   text_to_instance X self (question q)
                     (Some (inr (featurize X true path)))
                     (dict_get (py_str (question_id q)) answers) true)
                question_dicts)
  /\ (produce_featurized_images self = true ->
      forall q, q ∈ question_dicts ->
                images self !! (inr (Some (image_id q)) : image_key) = None ->
      yielded run = []
      /\ exists q', q' ∈ question_dicts
                    /\ images self !! (inr (Some (image_id q')) : image_key) = None
                    /\ raised run = Some (KeyError (image_id q'))).
Proof.
  intros Hsplit Hget Hpath Hquestions question_dicts run.
  assert (forall (P : generated (instance (token X) (tensor X)) -> Prop),
             (if produce_featurized_images self then
                match lookup_image_paths self question_dicts with
                | inl missing_id => P {| yielded := []; raised := Some (KeyError missing_id) |}
                | inr image_paths =>
                    P {| yielded := read_loop X self answers
                                      (zip question_dicts
                                         (Some <$> _process_image_paths X image_paths true));
                         raised := None |}
                end
              else P {| yielded := read_loop X self answers
                                     (zip question_dicts
                                        (replicate (length question_dicts) None));
                        raised := None |}) ->
             P run) as Hrun.
  { intros P HP. subst run question_dicts. unfold _read, read_split, prepare_split.
    destruct (get_data_slice X split_name) as [question_slice name]. simpl in *.
    rewrite Hsplit. unfold bind at 1. rewrite Hget.
    unfold bind at 1. unfold fetch at 1. rewrite Hpath.
    unfold bind at 1. unfold load_questions at 1. rewrite Hquestions.
    destruct (produce_featurized_images self).
    - destruct (lookup_image_paths self _) as [m|paths]; exact HP.
    - exact HP. }
  split_and!.
  - intros Hnone. rewrite _get_answers_no_annotations in Hget by done. congruence.
  - intros url annotations_path annotations_list Hurl Hcached Hcache Hfile qid.
    rewrite (_get_answers_fresh X self split url annotations_path annotations_list)
      in Hget by done.
    injection Hget as <- _. apply compute_answers_lookup.
  - intros Hoff. apply Hrun. rewrite Hoff. simpl. by rewrite read_loop_plain.
  - intros Hon Hall. apply Hrun. rewrite Hon.
    destruct (lookup_image_paths_found self question_dicts Hall) as [paths Hpaths].
    rewrite Hpaths. simpl. by rewrite (read_loop_featurized X self answers _ paths).
  - intros Hon q Hq Hnone. apply Hrun. rewrite Hon.
    destruct (lookup_image_paths_raises self question_dicts q Hq Hnone) as [m Hm].
    rewrite Hm. simpl. split; [done|].
    apply lookup_image_paths_missing in Hm as (q' & Hq' & <- & Hnone').
    by exists q'.
Qed.

Lemma _read_aligned_witness :
  let self := fixture_reader None in
  let answers := [("1", [("yes", 3); ("no", 1)])] in
  let run := (_read fixture_externals self (inl "unittest") fixture_world).1 in
  dict_get (get_data_slice fixture_externals "unittest").2 splits = Some unittest_split
  /\ (_get_answers_by_question_id fixture_externals self unittest_split fixture_world).1
     = inr answers
  /\ raised run = None
  /\ yielded run
     = omap (fun q =>
               text_to_instance fixture_externals self (question q) None
                 (dict_get (py_str (question_id q)) answers) true)
            [ {| question_id := 1; image_id := 42; question := "Is it raining?" |};
              {| question_id := 2; image_id := 7; question := "What colour is the bus?" |} ].
Proof.
  intros self answers run.
  pose (w1 := (_get_answers_by_question_id fixture_externals self unittest_split
                 fixture_world).2).
  assert (dict_get (get_data_slice fixture_externals "unittest").2 splits
          = Some unittest_split) as Hsplit by (vm_compute; reflexivity).
  assert (_get_answers_by_question_id fixture_externals self unittest_split fixture_world
          = (inr answers, w1)) as Hget by (vm_compute; reflexivity).
  assert (cached_path w1 (questions unittest_split)
          = Some "/cache/test_fixtures/vision/vqav2/questions.json") as Hpath
    by (vm_compute; reflexivity).
  assert (read_questions w1 "/cache/test_fixtures/vision/vqav2/questions.json"
          = Some [ {| question_id := 1; image_id := 42; question := "Is it raining?" |};
                   {| question_id := 2; image_id := 7;
                      question := "What colour is the bus?" |} ]) as Hquestions
    by (vm_compute; reflexivity).
  split; [exact Hsplit|]. split; [by rewrite Hget|].
  exact (proj1 (proj2 (proj2 (_read_aligned fixture_externals self "unittest"
                                fixture_world w1 unittest_split answers _ _
                                Hsplit Hget Hpath Hquestions)))
           eq_refl).
Defined.

(** C4: for a split with annotations, the first call computes the mapping
    from the annotations file and writes it to the cache; dumping that
    mapping to JSON and loading it again gives the same mapping, so a later
    call, by any reader with the same [multiple_answers_per_question]
    setting, returns from the cache exactly what it would have computed. *)
Theorem _get_answers_cache_agrees (X : Externals) (self : VQAv2Reader) (split : Split)
    (url path : string) (annotations_list : list annotation) (w : world) :
  annotations split = Some url ->
  cached_path w url = Some path ->
  read_annotations w path = Some annotations_list ->
  cache w !! (url +:+ "-cache", path) = None ->
  let fresh := compute_answers_by_question_id X self annotations_list in
  let w' := write_cache (url +:+ "-cache", path) (json_dump fresh) w in
  _get_answers_by_question_id X self split w = (inr fresh, w')
  /\ json_load (json_dump fresh) = Some fresh
  /\ forall self',
       multiple_answers_per_question self' = multiple_answers_per_question self ->
       _get_answers_by_question_id X self' split w' = (inr fresh, w')
       /\ compute_answers_by_question_id X self' annotations_list = fresh.
Proof.
  intros Hsplit Hpath Hfile Hcache fresh w'. split_and!.
  - by apply _get_answers_fresh.
  - apply compute_answers_roundtrip.
  - intros self' Hsame. split; [|by apply compute_answers_settings].
    rewrite (_get_answers_cached X self' split url path (json_dump fresh)); try done.
    + unfold fresh. by rewrite compute_answers_roundtrip.
    + subst w'. simpl. apply lookup_insert_eq.
Qed.

Lemma _get_answers_cache_agrees_witness :
  let self := fixture_reader None in
  let url := "test_fixtures/vision/vqav2/annotations.json" in
  let fresh := [("1", [("yes", 3); ("no", 1)])] in
  let w' := write_cache (url +:+ "-cache", "/cache/" +:+ url) (json_dump fresh)
              fixture_world in
  (annotations unittest_split = Some url
   /\ cached_path fixture_world url = Some ("/cache/" +:+ url)
   /\ cache fixture_world !! (url +:+ "-cache", "/cache/" +:+ url) = None)
  /\ _get_answers_by_question_id fixture_externals self unittest_split fixture_world
     = (inr fresh, w')
  /\ json_load (json_dump fresh) = Some fresh
  /\ _get_answers_by_question_id fixture_externals self unittest_split w'
     = (inr fresh, w').
Proof.
  intros self url fresh w'.
  assert (annotations unittest_split = Some url) as H1 by reflexivity.
  assert (cached_path fixture_world url = Some ("/cache/" +:+ url)) as H2 by reflexivity.
  assert (read_annotations fixture_world ("/cache/" +:+ url)
          = Some [ {| a_question_id := 1; a_multiple_choice_answer := "yes";
                      a_answers := ["yes"; "no"; "yes"; "yes"] |} ]) as H3
    by (vm_compute; reflexivity).
  assert (cache fixture_world !! (url +:+ "-cache", "/cache/" +:+ url) = None) as H4
    by (vm_compute; reflexivity).
  split; [done|].
  destruct (_get_answers_cache_agrees fixture_externals self unittest_split url _ _
              fixture_world H1 H2 H3 H4) as (Ha & Hb & Hc).
  split; [exact Ha|]. split; [exact Hb|]. exact (proj1 (Hc self eq_refl)).
Defined.

(** ** Reading several splits *)

Section ReadListFacts.
Variable X : Externals.
Variable self : VQAv2Reader.
Implicit Types (w : world).

Lemma cache_extends_refl w : cache_extends X self w w.
Proof. unfold cache_extends. split_and!; try done. intros url path _. by left. Qed.

Lemma cache_extends_write w w' url path annotations_list :
  cache_extends X self w w' ->
  cached_path w url = Some path ->
  read_annotations w path = Some annotations_list ->
  cache w' !! (url +:+ "-cache", path) = None ->
  cache_extends X self w
    (write_cache (url +:+ "-cache", path)
       (json_dump (compute_answers_by_question_id X self annotations_list)) w').
Proof.
  intros (Hcp & Hra & Hrq & Hcache) Hpath Hfile Hnone.
  unfold cache_extends. simpl. split_and!; try done.
  intros url2 path2 Hpath2.
  destruct (decide ((url2 +:+ "-cache", path2) = (url +:+ "-cache", path))) as [Heq|Hne].
  - right. rewrite Heq. injection Heq as _ ->.
    destruct (Hcache url path Hpath) as [Hsame|(_ & ? & _ & Hsome)]; [|congruence].
    split; [congruence|]. exists annotations_list. split; [done|].
    apply lookup_insert_eq.
  - rewrite lookup_insert_ne by done. by apply Hcache.
Qed.

Lemma _get_answers_extends split w w' :
  cache_extends X self w w' ->
  (_get_answers_by_question_id X self split w').1
  = (_get_answers_by_question_id X self split w).1
  /\ cache_extends X self w (_get_answers_by_question_id X self split w').2.
Proof.
  intros Hext. pose proof Hext as (Hcp & Hra & Hrq & Hcache).
  destruct (annotations split) as [url|] eqn:Hsplit.
  2:{ rewrite !_get_answers_no_annotations by done. done. }
  destruct (cached_path w url) as [path|] eqn:Hpath.
  2:{ rewrite !(_get_answers_unreachable X self split url) by congruence. done. }
  assert (cached_path w' url = Some path) as Hpath' by congruence.
  destruct (Hcache url path Hpath) as [Hsame|(Hnone & annotations_list & Hfile & Hsome)].
  - destruct (cache w !! (url +:+ "-cache", path)) as [doc|] eqn:Hdoc.
    + rewrite !(_get_answers_cached X self split url path doc) by congruence. done.
    + destruct (read_annotations w path) as [annotations_list|] eqn:Hfile.
      * rewrite !(_get_answers_fresh X self split url path annotations_list)
          by congruence.
        split; [done|]. simpl. by apply cache_extends_write.
      * rewrite !(_get_answers_unreadable X self split url path) by congruence. done.
  - rewrite (_get_answers_fresh X self split url path annotations_list w) by done.
    rewrite (_get_answers_cached X self split url path _ w' Hsplit Hpath' Hsome).
    simpl. by rewrite compute_answers_roundtrip.
Qed.

Lemma read_split_factor split_name w :
  read_split X self split_name w
  = match dict_get (get_data_slice X split_name).2 splits with
    | None =>
        ({| yielded := [];
            raised := Some (ValueError ("Unrecognized split: "
                                        +:+ (get_data_slice X split_name).2 +:+ ".")) |},
         w)
    | Some split =>
        let r := _get_answers_by_question_id X self split w in
        (finish_split X self (get_data_slice X split_name).1 split r.1
           (cached_path r.2) (read_questions r.2),
         r.2)
    end.
Proof.
  unfold read_split, prepare_split.
  destruct (get_data_slice X split_name) as [question_slice name]. cbn [fst snd].
  destruct (dict_get name splits) as [split|]; [|reflexivity].
  unfold bind at 1.
  destruct (_get_answers_by_question_id X self split w) as [[e|answers] w1]; simpl;
    [reflexivity|].
  unfold bind, fetch, load_questions.
  destruct (cached_path w1 (questions split)) as [path|]; [|reflexivity].
  destruct (read_questions w1 path) as [questions_list|]; [|reflexivity].
  destruct (produce_featurized_images self); [|reflexivity].
  destruct (lookup_image_paths self _) as [missing|paths]; reflexivity.
Qed.

Lemma read_split_extends split_name w w' :
  cache_extends X self w w' ->
  (read_split X self split_name w').1 = (read_split X self split_name w).1
  /\ cache_extends X self w (read_split X self split_name w').2.
Proof.
  intros Hext. rewrite !read_split_factor.
  destruct (dict_get (get_data_slice X split_name).2 splits) as [split|]; [|done].
  destruct (_get_answers_extends split w w' Hext) as [Hval Hext'].
  pose proof (_get_answers_extends split w w (cache_extends_refl w)) as [_ Hext0].
  cbn zeta. cbn [fst snd]. split; [|done].
  destruct Hext' as (Hcp' & _ & Hrq' & _). destruct Hext0 as (Hcp0 & _ & Hrq0 & _).
  by rewrite Hval, Hcp', Hcp0, Hrq', Hrq0.
Qed.

Lemma read_splits_from split_names w w' :
  cache_extends X self w w' ->
  (read_splits X self split_names w').1
  = foldr chain empty_generator
      (map (fun split_name => (read_split X self split_name w).1) split_names).
Proof.
  revert w'. induction split_names as [|s rest IH]; intros w' Hext; simpl; [done|].
  destruct (read_split_extends s w w' Hext) as [Hval Hext'].
  destruct (read_split X self s w') as [g w1]. simpl in Hval, Hext'. subst g.
  specialize (IH w1 Hext').
  destruct (raised (read_split X self s w).1) as [e|] eqn:Er.
  - simpl. unfold chain. by rewrite Er.
  - destruct (read_splits X self rest w1) as [g' w2]. simpl in IH. subst g'.
    reflexivity.
Qed.

Lemma chain_all_normal {A} (gs : list (generated A)) :
  (forall g, g ∈ gs -> raised g = None) ->
  foldr chain empty_generator gs
  = {| yielded := concat (map yielded gs); raised := None |}.
Proof.
  induction gs as [|g gs IH]; intros Hall; simpl; [done|].
  rewrite IH by (intros g' Hg'; apply Hall; by right).
  unfold chain. rewrite (Hall g) by left. done.
Qed.
Lemma chain_stop {A} (gs : list (generated A)) (g : generated A)
    (rest : list (generated A)) (e : exn) :
  (forall g0, g0 ∈ gs -> raised g0 = None) ->
  raised g = Some e ->
  foldr chain empty_generator (gs ++ g :: rest)
  = {| yielded := concat (map yielded gs) ++ yielded g; raised := Some e |}.
Proof.
  intros Hall Hg. induction gs as [|g0 gs IH]; simpl.
  - unfold chain at 1. rewrite Hg. destruct g as [ys r]. simpl in *. by subst r.
  - rewrite IH by (intros g' Hg'; apply Hall; by right).
    unfold chain. rewrite (Hall g0) by left. simpl. by rewrite app_assoc.
Qed.

(** The world after a read of a list is the world after the reads of its
    names, one after the other. *)
Lemma read_splits_world split_names w w' :
  cache_extends X self w w' ->
  (forall split_name, split_name ∈ split_names ->
                      raised (read_split X self split_name w).1 = None) ->
  (read_splits X self split_names w').2
  = fold_left (fun w0 split_name => (read_split X self split_name w0).2) split_names w'.
Proof.
  revert w'. induction split_names as [|s rest IH]; intros w' Hext Hall; simpl; [done|].
  destruct (read_split_extends s w w' Hext) as [Hval Hext'].
  destruct (read_split X self s w') as [g w1]. cbn [fst snd] in *. subst g.
  rewrite (Hall s) by left.
  specialize (IH w1 Hext'). destruct (read_splits X self rest w1) as [g' w2].
  cbn [snd] in *. apply IH. intros s' Hs'. apply Hall. by right.
Qed.

(** A name whose read raises is the last one read: the world is the one
    left by the names up to it, whatever names follow. *)
Lemma read_splits_stop_world before split_name after w w' e :
  cache_extends X self w w' ->
  (forall s, s ∈ before -> raised (read_split X self s w).1 = None) ->
  raised (read_split X self split_name w).1 = Some e ->
  (read_splits X self (before ++ split_name :: after) w').2
  = fold_left (fun w0 s => (read_split X self s w0).2) (before ++ [split_name]) w'.
Proof.
  revert w'. induction before as [|b bs IH]; intros w' Hext Hall Hraise; simpl.
  - destruct (read_split_extends split_name w w' Hext) as [Hval _].
    destruct (read_split X self split_name w') as [g w1]. cbn [fst snd] in *. subst g.
    by rewrite Hraise.
  - destruct (read_split_extends b w w' Hext) as [Hval Hext'].
    destruct (read_split X self b w') as [g w1]. cbn [fst snd] in *. subst g.
    rewrite (Hall b) by left.
    specialize (IH w1 Hext'). destruct (read_splits X self (bs ++ _) w1) as [g' w2].
    cbn [snd] in *. apply IH; [|done]. intros s Hs. apply Hall. by right.
Qed.
End ReadListFacts.

(** C9: reading a list of split names is running the reads of its names
    one after the other, each giving what it gives when read on its own
    from the same file system: the instances come out concatenated in list
    order, and a read that raises ends the whole read with its exception,
    as it would end the concatenation.  The annotation cache filled by
    earlier names does not change what later names yield.  The empty list
    yields nothing.  After the first name whose read raises no further name
    is read: the instances are those of the names before it and its own,
    and the world is the one left by reading the names up to it, one after
    the other, whatever names follow. *)
Theorem _read_list_concat (X : Externals) (self : VQAv2Reader)
    (split_names : list string) (w : world) :
  (_read X self (inr split_names) w).1
  = foldr chain empty_generator
      (map (fun split_name => (_read X self (inl split_name) w).1) split_names)
  /\ ((forall split_name, split_name ∈ split_names ->
         raised (_read X self (inl split_name) w).1 = None) ->
      raised (_read X self (inr split_names) w).1 = None
      /\ yielded (_read X self (inr split_names) w).1
         = concat (map (fun split_name => yielded (_read X self (inl split_name) w).1)
                       split_names))
  /\ _read X self (inr []) w = ({| yielded := []; raised := None |}, w)
  /\ (forall before split_name after e,
        split_names = before ++ split_name :: after ->
        (forall s, s ∈ before -> raised (_read X self (inl s) w).1 = None) ->
        raised (_read X self (inl split_name) w).1 = Some e ->
        raised (_read X self (inr split_names) w).1 = Some e
        /\ yielded (_read X self (inr split_names) w).1
           = concat (map (fun s => yielded (_read X self (inl s) w).1) before)
             ++ yielded (_read X self (inl split_name) w).1
        /\ (_read X self (inr split_names) w).2
           = fold_left (fun w0 s => (_read X self (inl s) w0).2)
                       (before ++ [split_name]) w)
  /\ ((forall split_name, split_name ∈ split_names ->
         raised (_read X self (inl split_name) w).1 = None) ->
      (_read X self (inr split_names) w).2
      = fold_left (fun w0 s => (_read X self (inl s) w0).2) split_names w).
Proof.
  assert ((_read X self (inr split_names) w).1
          = foldr chain empty_generator
              (map (fun split_name => (_read X self (inl split_name) w).1) split_names))
    as Hchain.
  { simpl. apply read_splits_from, cache_extends_refl. }
  split_and!; [done| |done| |].
  - intros Hall. rewrite Hchain, chain_all_normal.
    + simpl. split; [done|]. by rewrite map_map.
    + intros g (s & <- & Hs)%list_elem_of_In%in_map_iff. apply Hall.
      by apply list_elem_of_In.
  - intros before split_name after e -> Hbefore Hraise.
    rewrite Hchain, map_app. cbn [map].
    rewrite (chain_stop _ _ _ e); [|
      intros g (s & <- & Hs)%list_elem_of_In%in_map_iff; apply Hbefore;
      by apply list_elem_of_In | exact Hraise].
    cbn [raised yielded]. split; [done|]. split; [by rewrite map_map|].
    cbn [_read].
    apply (read_splits_stop_world X self before split_name after w w e);
      [apply cache_extends_refl | exact Hbefore | exact Hraise].
  - intros Hall. cbn [_read].
    apply (read_splits_world X self split_names w w);
      [apply cache_extends_refl | exact Hall].
Qed.

(** A list whose first name is unknown: the read of the list stops at the
    [ValueError] and yields nothing, although "unittest" read on its own
    yields two instances. *)
Lemma _read_list_concat_counterexample :
  let self := fixture_reader None in
  let split_names := ["no_such_split"; "unittest"] in
  yielded (_read fixture_externals self (inr split_names) fixture_world).1 = []
  /\ length (yielded (_read fixture_externals self (inl "unittest") fixture_world).1) = 2%nat
  /\ yielded (_read fixture_externals self (inr split_names) fixture_world).1
     <> concat (map (fun split_name =>
                       yielded (_read fixture_externals self (inl split_name)
                                  fixture_world).1)
                    split_names).
Proof.
  intros self split_names.
  assert (yielded (_read fixture_externals self (inr split_names) fixture_world).1 = [])
    as H1 by (vm_compute; reflexivity).
  split; [exact H1|]. split; [vm_compute; reflexivity|].
  rewrite H1. intros H. apply (f_equal length) in H. vm_compute in H. discriminate H.
Qed.

(** ** File names and image ids *)

Lemma re_match_class cl s k caps m :
  re_match (Class cl) s k caps = Some m
  <-> exists c rest, s = c :: rest /\ in_class cl c = true /\ k rest caps = Some m.
Proof.
  simpl. destruct s as [|c s'].
  - split; [done | by intros (? & ? & ? & _)].
  - destruct (in_class cl c) eqn:E.
    + split; [by exists c, s' | by intros (? & ? & [= <- <-] & _ & ?)].
    + split; [done | intros (? & ? & [= <- <-] & ? & _); congruence].
Qed.

Lemma re_match_repeat_class n cl s k caps m :
  re_match (Repeat n (Class cl)) s k caps = Some m
  <-> exists pre rest, s = pre ++ rest /\ length pre = n
                       /\ forallb (in_class cl) pre = true /\ k rest caps = Some m.
Proof.
  revert s. induction n as [|n IH]; intros s.
  - simpl. split.
    + intros H. by exists [], s.
    + intros (pre & rest & -> & Hlen & _ & H). by destruct pre.
  - change (re_match (Repeat (S n) (Class cl)) s k caps)
      with (re_match (Class cl) s
              (fun s' caps' => re_match (Repeat n (Class cl)) s' k caps') caps).
    rewrite re_match_class. split.
    + intros (c & s' & -> & Hc & H). apply IH in H as (pre & rest & -> & Hlen & Hpre & H).
      exists (c :: pre), rest. simpl. rewrite Hc, Hpre, Hlen. done.
    + intros (pre & rest & -> & Hlen & Hpre & H). destruct pre as [|c pre]; [done|].
      simpl in *. apply andb_true_iff in Hpre as [Hc Hpre].
      exists c, (pre ++ rest). split_and!; [done..|].
      apply IH. exists pre, rest. split_and!; [done|lia|done..].
Qed.

Lemma star_match_sound cl s k caps m :
  star_match cl s k caps = Some m ->
  exists pre rest, s = pre ++ rest /\ forallb (in_class cl) pre = true
                   /\ k rest caps = Some m.
Proof.
  induction s as [|c s IH]; simpl.
  - intros H. by exists [], [].
  - destruct (in_class cl c) eqn:Hc; [|intros H; by exists [], (c :: s)].
    destruct (star_match cl s k caps) as [m'|] eqn:E.
    + intros [= <-]. destruct (IH eq_refl) as (pre & rest & -> & Hpre & H).
      exists (c :: pre), rest. simpl. by rewrite Hc, Hpre.
    + intros H. by exists [], (c :: s).
Qed.

(** When the continuation can succeed at one split point only, the greedy
    star finds it. *)
Lemma star_match_complete cl pre rest k caps m :
  forallb (in_class cl) pre = true ->
  k rest caps = Some m ->
  (forall pre' rest', pre ++ rest = pre' ++ rest' -> is_Some (k rest' caps) ->
                      rest' = rest) ->
  star_match cl (pre ++ rest) k caps = Some m.
Proof.
  intros Hpre Hk Huniq.
  induction pre as [|c pre IH]; simpl in *.
  - destruct rest as [|c rest0] eqn:Erest; simpl; [done|].
    destruct (in_class cl c); [|done].
    destruct (star_match cl rest0 k caps) as [m'|] eqn:E; [|done].
    apply star_match_sound in E as (pre' & rest' & Hsplit & _ & Hk').
    assert (rest' = c :: rest0) as Hrest'.
    { apply (Huniq (c :: pre') rest'); [by rewrite Hsplit | by eexists]. }
    apply (f_equal length) in Hsplit. rewrite length_app, Hrest' in Hsplit.
    simpl in Hsplit. lia.
  - apply andb_true_iff in Hpre as [Hc Hpre]. rewrite Hc.
    rewrite IH; [done..|].
    intros pre' rest' Hsplit Hsome. apply (Huniq (c :: pre') rest'); [|done].
    simpl. by rewrite Hsplit.
Qed.

Lemma in_class_literal c c' : in_class (Literal c') c = true <-> c = c'.
Proof. simpl. apply Ascii.eqb_eq. Qed.

Lemma re_match_lit3 (a b c : ascii) s k caps m :
  re_match (lit (String a (String b (String c "")))) s k caps = Some m
  <-> exists rest, s = a :: b :: c :: rest /\ k rest caps = Some m.
Proof.
  change (re_match (lit (String a (String b (String c "")))) s k caps)
    with (re_match (Class (Literal a)) s
            (fun s1 caps1 =>
               re_match (Class (Literal b)) s1
                 (fun s2 caps2 => re_match (Class (Literal c)) s2 k caps2) caps1) caps).
  rewrite re_match_class. split.
  - intros (a' & s1 & -> & ->%in_class_literal & H).
    apply re_match_class in H as (b' & s2 & -> & ->%in_class_literal & H).
    apply re_match_class in H as (c' & s3 & -> & ->%in_class_literal & H).
    by exists s3.
  - intros (rest & -> & H). exists a, (b :: c :: rest).
    split_and!; [done | by apply in_class_literal |].
    apply re_match_class. exists b, (c :: rest).
    split_and!; [done | by apply in_class_literal |].
    apply re_match_class. exists c, rest.
    split_and!; [done | by apply in_class_literal | done].
Qed.

Lemma end_of_string_Some rest caps m :
  end_of_string rest caps = Some m <-> rest = [] /\ m = caps.
Proof.
  destruct rest; simpl.
  - split; [by intros [= ->] | by intros [_ ->]].
  - split; [done | by intros [? _]].
Qed.

(** What follows the digits: a dot and one of the two extensions, up to
    the end of the string, leaving group 1 alone. *)
Lemma re_match_extension rest caps m :
  re_match (Seq (Class (Literal "."))
                (Group 2 (Alt (Group 3 (lit "jpg")) (Group 4 (lit "png")))))
           rest end_of_string caps = Some m
  -> (exists ext, rest = "."%char :: ext /\ extension ext) /\ m !! 1%nat = caps !! 1%nat.
Proof.
  change (re_match (Seq ?r1 ?r2) ?s ?k ?c)
    with (re_match r1 s (fun s' caps' => re_match r2 s' k caps') c).
  intros (c & rest1 & -> & ->%in_class_literal & H)%re_match_class.
  change (re_match (Group 2 (Alt ?r1 ?r2)) ?s ?k ?c)
    with (let k2 := fun s' caps' => k s' (<[2%nat := take (length s - length s') s]> caps') in
          match re_match r1 s k2 c with
          | Some m => Some m
          | None => re_match r2 s k2 c
          end) in H.
  cbn zeta in H.
  assert (forall i (x y z : ascii),
             (i = 3 \/ i = 4)%nat ->
             re_match (Group i (lit (String x (String y (String z "")))))
               rest1
               (fun s' caps' =>
                  end_of_string s' (<[2%nat := take (length rest1 - length s') rest1]> caps'))
               caps = Some m ->
             rest1 = [x; y; z] /\ m !! 1%nat = caps !! 1%nat) as Hgroup.
  { intros i x y z Hi.
    change (re_match (Group i ?r) ?s ?k ?c)
      with (re_match r s (fun s' caps' => k s' (<[i := take (length s - length s') s]> caps')) c).
    intros (rest2 & -> & [-> ->]%end_of_string_Some)%re_match_lit3.
    split; [done|]. rewrite !lookup_insert_ne by lia. done. }
  unfold extension.
  destruct (re_match (Group 3 (lit "jpg")) rest1 _ caps) as [m'|] eqn:E.
  - injection H as ->. apply Hgroup in E as [-> Hm]; [|by left]. split; [|done].
    eexists. split; [done|]. by left.
  - apply Hgroup in H as [-> Hm]; [|by right]. split; [|done].
    eexists. split; [done|]. by right.
Qed.

Lemma re_match_extension_ok ext caps :
  extension ext ->
  is_Some (re_match (Seq (Class (Literal "."))
                         (Group 2 (Alt (Group 3 (lit "jpg")) (Group 4 (lit "png")))))
                    ("."%char :: ext) end_of_string caps).
Proof. intros [->| ->]; simpl; by eexists. Qed.

Lemma py_int_digits digits :
  forallb is_digit digits = true -> digits <> [] ->
  py_int digits = Some (fold_left (fun n c => 10 * n + digit_value c) digits 0).
Proof.
  intros Hd Hne. unfold py_int. rewrite Hd. by rewrite bool_decide_false.
Qed.

(** The part of [filename_re] behind [.*]: twelve digits, captured as
    group 1, a dot and an extension. *)
Lemma re_match_tail s caps m :
  re_match (Seq (Group 1 (Repeat 12 (Class DigitChar)))
             (Seq (Class (Literal "."))
                (Group 2 (Alt (Group 3 (lit "jpg")) (Group 4 (lit "png"))))))
           s end_of_string caps = Some m
  -> exists digits ext,
       s = digits ++ "."%char :: ext /\ length digits = 12%nat
       /\ forallb is_digit digits = true /\ extension ext
       /\ m !! 1%nat = Some digits.
Proof.
  change (re_match (Seq (Group 1 ?r1) ?r2) ?s ?k ?c)
    with (re_match r1 s
            (fun s' caps' =>
               re_match r2 s' k (<[1%nat := take (length s - length s') s]> caps')) c).
  intros (digits & rest & -> & Hlen & Hdigits & H)%re_match_repeat_class.
  apply re_match_extension in H as [(ext & -> & Hext) Hm].
  exists digits, ext. split_and!; try done.
  rewrite Hm, lookup_insert_eq. f_equal.
  rewrite length_app.
  replace (length digits + length ("."%char :: ext) - length ("."%char :: ext))%nat
    with (length digits) by lia.
  by rewrite take_app_length.
Qed.

Lemma re_match_tail_ok digits ext caps :
  length digits = 12%nat -> forallb is_digit digits = true -> extension ext ->
  is_Some (re_match (Seq (Group 1 (Repeat 12 (Class DigitChar)))
                      (Seq (Class (Literal "."))
                         (Group 2 (Alt (Group 3 (lit "jpg")) (Group 4 (lit "png"))))))
                    (digits ++ "."%char :: ext) end_of_string caps).
Proof.
  intros Hlen Hdigits Hext.
  change (re_match (Seq (Group 1 ?r1) ?r2) ?s ?k ?c)
    with (re_match r1 s
            (fun s' caps' =>
               re_match r2 s' k (<[1%nat := take (length s - length s') s]> caps')) c).
  destruct (re_match_extension_ok ext
              (<[1%nat := take (length (digits ++ "."%char :: ext)
                                - length ("."%char :: ext))
                               (digits ++ "."%char :: ext)]> caps) Hext) as [m Hm].
  exists m. apply re_match_repeat_class. exists digits, ("."%char :: ext).
  by split_and!.
Qed.

(** What [id_from_filename] accepts, and what it returns: the file names
    that end in twelve digits, a dot and "jpg" or "png", with no newline
    before the digits; the result is the number the digits spell. *)
Lemma id_from_filename_spec (filename : string) (n : Z) :
  id_from_filename filename = Some n
  <-> exists before digits ext,
        list_ascii_of_string filename = before ++ digits ++ "."%char :: ext
        /\ (newline ∉ before)
        /\ length digits = 12%nat /\ forallb is_digit digits = true
        /\ extension ext
        /\ n = fold_left (fun n c => 10 * n + digit_value c) digits 0.
Proof.
  unfold id_from_filename, fullmatch.
  change (re_match filename_re ?s ?k ?c)
    with (star_match AnyChar s
            (fun s' caps' =>
               re_match (Seq (Group 1 (Repeat 12 (Class DigitChar)))
                           (Seq (Class (Literal "."))
                              (Group 2 (Alt (Group 3 (lit "jpg")) (Group 4 (lit "png"))))))
                        s' k caps') c).
  assert (forall before, forallb (in_class AnyChar) before = true <-> (newline ∉ before))
    as Hbefore.
  { induction before as [|c before IH]; simpl.
    - split; [intros _; apply not_elem_of_nil | done].
    - rewrite andb_true_iff, IH, not_elem_of_cons, negb_true_iff.
      destruct (Ascii.eqb_spec c newline) as [->|Hne];
        split; intros [H1 H2]; split; try done; congruence. }
  split.
  - destruct (star_match _ _ _ _) as [m|] eqn:E; [|done].
    apply star_match_sound in E as (before & rest & Hsplit & Hpre & Htail).
    apply re_match_tail in Htail as (digits & ext & -> & Hlen & Hdigits & Hext & Hm).
    rewrite Hm. simpl. rewrite py_int_digits; [|done|by destruct digits].
    intros [= <-]. exists before, digits, ext. split_and!; try done.
    by apply Hbefore.
  - intros (before & digits & ext & -> & Hpre & Hlen & Hdigits & Hext & ->).
    destruct (re_match_tail_ok digits ext ∅ Hlen Hdigits Hext) as [m Hm].
    rewrite (star_match_complete AnyChar before (digits ++ "."%char :: ext) _ ∅ m).
    + apply re_match_tail in Hm as (digits' & ext' & Heq & Hlen' & Hdigits' & Hext' & Hm).
      rewrite Hm. simpl.
      assert (digits' = digits) as ->.
      { apply (f_equal (take 12)) in Heq.
        rewrite <- Hlen in Heq at 1. rewrite <- Hlen' in Heq.
        by rewrite !take_app_length in Heq. }
      apply py_int_digits; [done | by destruct digits].
    + by apply Hbefore.
    + done.
    + intros pre' rest' Hsplit [m' Hm'].
      apply re_match_tail in Hm' as (digits' & ext' & -> & Hlen' & _ & Hext' & _).
      assert (length ext = 3 /\ length ext' = 3)%nat as [He He'].
      { split; [destruct Hext as [-> | ->] | destruct Hext' as [-> | ->]]; done. }
      apply app_inj_2 in Hsplit as [_ Hsplit]; [done|].
      rewrite !length_app. simpl. lia.
Qed.

Lemma id_from_filename_matches (filename : string) (n : Z) :
  id_from_filename filename = Some n
  <-> exists digits, matches_filename_re filename digits /\ n = decimal_value digits.
Proof.
  rewrite id_from_filename_spec. unfold matches_filename_re, decimal_value. split.
  - intros (before & digits & ext & H1 & H2 & H3 & H4 & H5 & H6).
    exists digits. split; [by exists before, ext | done].
  - intros (digits & (before & ext & H1 & H2 & H3 & H4 & H5) & H6).
    by exists before, digits, ext.
Qed.

(** Deleting the [None] key at the end amounts to never inserting the
    names that do not match. *)
Lemma normalize_images_fold (images0 : list (string * string))
    (m : gmap image_key string) :
  delete (inr None : image_key)
    (fold_left (fun m item => <[inr (id_from_filename item.1) := item.2]> m) images0 m)
  = fold_left (fun m item =>
                 match id_from_filename item.1 with
                 | Some n => <[inr (Some n) := item.2]> m
                 | None => m
                 end) images0 (delete (inr None : image_key) m).
Proof.
  revert m. induction images0 as [|[name full_path] images0 IH]; intros m; simpl; [done|].
  rewrite IH. f_equal. destruct (id_from_filename name) as [n|].
  - by rewrite delete_insert_ne.
  - by rewrite delete_insert_eq.
Qed.

Lemma normalize_images_delete (images0 : list (string * string)) :
  normalize_images images0
  = delete (inr None : image_key)
      (fold_left (fun m item => <[inr (id_from_filename item.1) := item.2]> m) images0 ∅).
Proof.
  unfold normalize_images. case_bool_decide as Hnone; [done|].
  symmetry. apply delete_id. by apply eq_None_not_Some.
Qed.

Lemma matching_fold_lookup (images0 : list (string * string))
    (m : gmap image_key string) (key : image_key) :
  is_Some (fold_left (fun m item =>
                        match id_from_filename item.1 with
                        | Some n => <[inr (Some n) := item.2]> m
                        | None => m
                        end) images0 m !! key)
  <-> is_Some (m !! key)
      \/ exists name full_path n,
           (name, full_path) ∈ images0 /\ id_from_filename name = Some n
           /\ key = inr (Some n).
Proof.
  revert m. induction images0 as [|[name full_path] images0 IH]; intros m; simpl.
  - split; [by left|]. intros [?|(? & ? & ? & ?%elem_of_nil & _)]; done.
  - rewrite IH. destruct (id_from_filename name) as [n|] eqn:E.
    + rewrite lookup_insert_is_Some. split.
      * intros [[<-|[_ ?]]|(name' & path' & n' & Hin & Hid & ->)].
        -- right. exists name, full_path, n. split; [left | done].
        -- by left.
        -- right. exists name', path', n'. split; [by right | done].
      * intros [?|(name' & path' & n' & [[= -> ->]|Hin]%elem_of_cons & Hid & ->)].
        -- destruct (decide (inr (Some n) = key)); [left; by left|].
           left. right. done.
        -- left. left. congruence.
        -- right. by exists name', path', n'.
    + split.
      * intros [?|(name' & path' & n' & Hin & Hid & ->)]; [by left|].
        right. exists name', path', n'. split; [by right | done].
      * intros [?|(name' & path' & n' & [[= -> ->]|Hin]%elem_of_cons & Hid & ->)].
        -- by left.
        -- congruence.
        -- right. by exists name', path', n'.
Qed.

Lemma normalize_images_lookup (images0 : list (string * string)) (key : image_key) :
  is_Some (normalize_images images0 !! key)
  <-> exists name full_path n,
        (name, full_path) ∈ images0 /\ id_from_filename name = Some n
        /\ key = inr (Some n).
Proof.
  rewrite normalize_images_delete, normalize_images_fold, matching_fold_lookup.
  rewrite delete_empty, lookup_empty. split; [|by right].
  intros [[? [=]]|?]; done.
Qed.

(** C10: after construction with featurization on, every key of
    [self.images] is the number spelled by the twelve-digit group of one of
    the file names that fully match [.*(\d{12})\.((jpg)|(png))], every such
    file name has its number among the keys, file names that do not match
    leave no trace (the map is the one built from the matching names
    alone), and [None] is not a key. *)
Theorem init_images_keys (X : Externals)
    (super__init__ : option string -> exn + VisionReaderState)
    (from_files : string -> exn + list string) (image_dir : option string)
    (run_featurization : bool) (super : VisionReaderState)
    (vocabulary : option (string + list string)) (multiple : bool) (w : world)
    (self : VQAv2Reader) :
  (__init__ X super__init__ from_files image_dir run_featurization vocabulary multiple w).1
    = inr self ->
  super__init__ image_dir = inr super ->
  super_produce_featurized_images super = true ->
  (forall key : image_key,
     is_Some (images self !! key) ->
     exists name full_path digits,
       (name, full_path) ∈ super_images super
       /\ matches_filename_re name digits
       /\ key = inr (Some (decimal_value digits)))
  /\ (forall name full_path digits,
        (name, full_path) ∈ super_images super ->
        matches_filename_re name digits ->
        is_Some (images self !! (inr (Some (decimal_value digits)) : image_key)))
  /\ images self
     = normalize_images
         (List.filter (fun item => bool_decide (is_Some (id_from_filename item.1)))
                      (super_images super))
  /\ images self !! (inr None : image_key) = None.
Proof.
  intros Hinit Hsuper Hon.
  destruct (init_outcome_cases X super__init__ from_files image_dir run_featurization
              vocabulary multiple w) as [_ Hcases].
  cbn zeta in Hcases. rewrite Hinit in Hcases.
  destruct Hcases as [(_ & _ & msg & [=])|[(_ & e & _ & [=])
    |[(_ & super0 & location & _ & _ & _ & [=])
     |[(_ & super0 & location & vocabulary_path & e & _ & _ & _ & _ & [=])
      |(_ & super0 & keys & self0 & Hsuper0 & _ & [= <-] & _ & _ & Himages & _)]]]].
  rewrite Hsuper in Hsuper0. injection Hsuper0 as <-.
  rewrite Hon in Himages. rewrite Himages. clear Himages Hinit.
  split_and!.
  - intros key (name & full_path & n & Hin & Hid & ->)%normalize_images_lookup.
    apply id_from_filename_matches in Hid as (digits & Hmatch & ->).
    by exists name, full_path, digits.
  - intros name full_path digits Hin Hmatch. apply normalize_images_lookup.
    exists name, full_path, (decimal_value digits). split_and!; [done| |done].
    apply id_from_filename_matches. by exists digits.
  - rewrite !normalize_images_delete, !normalize_images_fold. generalize (delete (inr None : image_key) (∅ : gmap image_key string)).
    induction (super_images super) as [|[name full_path] l IH]; intros m; simpl; [done|].
    destruct (id_from_filename name) as [n|] eqn:E; simpl.
    + rewrite E. apply IH.
    + apply IH.
  - apply eq_None_not_Some. intros (name & path & n & _ & _ & [=])%normalize_images_lookup.
Qed.

Lemma init_images_keys_witness :
  let super := {| super_produce_featurized_images := true;
                  super_images :=
                    [("COCO_val2014_000000000042.jpg", "/data/val2014/COCO_val2014_000000000042.jpg");
                     ("README.txt", "/data/README.txt");
                     ("abstract_v002_train2015_000000012345.png", "/data/scenes/abstract_v002_train2015_000000012345.png")] |} in
  let super__init__ := fun _ : option string => (inr super : exn + VisionReaderState) in
  let from_files := fun location : string => (inl (OSError location) : exn + list string) in
  exists self,
    (__init__ fixture_externals super__init__ from_files (Some "/data") true None true
       fixture_world).1 = inr self
    /\ images self
       = {[ (inr (Some 42) : image_key) := "/data/val2014/COCO_val2014_000000000042.jpg";
            (inr (Some 12345) : image_key) := "/data/scenes/abstract_v002_train2015_000000012345.png" ]}
    /\ images self !! (inr None : image_key) = None.
Proof.
  intros super super__init__ from_files.
  destruct (__init__ fixture_externals super__init__ from_files (Some "/data") true None
              true fixture_world).1 as [e|self] eqn:E; [discriminate E|].
  exists self. split; [done|].
  destruct (init_images_keys fixture_externals super__init__ from_files (Some "/data") true
              super None true fixture_world self E eq_refl eq_refl)
    as (_ & _ & Himages & Hnone).
  split; [|exact Hnone].
  rewrite Himages. vm_compute. reflexivity.
Defined.

(** ** Beam search of width one *)

Section DecodingFacts.
Context {state : Type}.
Variable take_step : nat -> state -> list Q * state.
Variable end_index : nat.
Implicit Types (h best : hypothesis (state := state)) (sorted : list (@hypothesis state)).

Lemma insert_by_score_head h best rest :
  head (insert_by_score h (best :: rest)) = Some (pick best h).
Proof. unfold pick. simpl. by destruct (Qle_bool _ _). Qed.

Lemma insert_by_score_nonempty h sorted : insert_by_score h sorted <> [].
Proof. destruct sorted; simpl; [done|]. by destruct (Qle_bool _ _). Qed.

Lemma fold_insert_head candidates best rest :
  head (fold_left (fun sorted h => insert_by_score h sorted) candidates (best :: rest))
  = Some (fold_left pick candidates best).
Proof.
  revert best rest. induction candidates as [|h candidates IH]; intros best rest; [done|].
  cbn [fold_left]. pose proof (insert_by_score_head h best rest) as Hhead.
  destruct (insert_by_score h (best :: rest)) as [|best' rest'] eqn:E; [done|].
  simpl in Hhead. injection Hhead as ->. apply IH.
Qed.

Lemma top_1_pick h candidates :
  top_k 1 (h :: candidates) = [fold_left pick candidates h].
Proof.
  unfold top_k. cbn [fold_left insert_by_score].
  pose proof (fold_insert_head candidates h []) as Hhead.
  destruct (fold_left _ candidates [h]) as [|best rest]; [done|].
  simpl in Hhead. by injection Hhead as ->.
Qed.

Lemma Qle_bool_plus (z x y : Q) : Qle_bool (z + x) (z + y) = Qle_bool x y.
Proof.
  destruct (Qle_bool x y) eqn:E.
  - apply Qle_bool_iff, Qplus_le_r. by apply Qle_bool_iff.
  - destruct (Qle_bool (z + x) (z + y)) eqn:E'; [|done].
    apply Qle_bool_iff, Qplus_le_r, Qle_bool_iff in E'. congruence.
Qed.

(** Among the continuations of one open hypothesis, the best one appends
    the argmax class. *)
Lemma pick_continuations (tokens : list nat) (score : Q) (st' : state)
    (log_probs : list Q) (i best_i : nat) (best_p : Q) :
  exists p,
    fold_left pick
      (imap (fun j q => {| rev_tokens := (i + j)%nat :: tokens;
                           log_prob := (score + q)%Q; hstate := st' |}) log_probs)
      {| rev_tokens := best_i :: tokens; log_prob := (score + best_p)%Q; hstate := st' |}
    = {| rev_tokens := argmax_from best_i best_p i log_probs :: tokens;
         log_prob := (score + p)%Q; hstate := st' |}.
Proof.
  revert i best_i best_p.
  induction log_probs as [|x log_probs IH]; intros i best_i best_p; simpl.
  - by exists best_p.
  - unfold pick at 2. simpl. rewrite Qle_bool_plus.
    rewrite (imap_ext _ (fun j q => {| rev_tokens := (S i + j)%nat :: tokens;
                                       log_prob := (score + q)%Q; hstate := st' |}))
      by (intros j q _; simpl; do 2 f_equal; lia).
    replace (i + 0)%nat with i by lia.
    destruct (Qle_bool x best_p); apply IH.
Qed.

Lemma top_1_expand (start : nat) h (log_probs : list Q) (st' : state) :
  finished end_index h = false ->
  take_step (hd start (rev_tokens h)) (hstate h) = (log_probs, st') ->
  log_probs <> [] ->
  exists p,
    top_k 1 (flat_map (expand take_step end_index start) [h])
    = [{| rev_tokens := argmax log_probs :: rev_tokens h;
          log_prob := p; hstate := st' |}].
Proof.
  intros Hopen Hstep Hne. simpl. rewrite app_nil_r. unfold expand.
  rewrite Hopen, Hstep. destruct log_probs as [|x log_probs]; [done|].
  rewrite imap_cons, top_1_pick.
  destruct (pick_continuations (rev_tokens h) (log_prob h) st' log_probs 1 0 x)
    as [p Hp].
  exists (log_prob h + p)%Q. simpl. rewrite <- Hp. f_equal.
Qed.

Lemma top_1_finished start h :
  finished end_index h = true ->
  top_k 1 (flat_map (expand take_step end_index start) [h])
  = [{| rev_tokens := end_index :: rev_tokens h;
        log_prob := log_prob h; hstate := hstate h |}].
Proof. intros Hdone. simpl. unfold expand. by rewrite Hdone. Qed.

Lemma truncate_at_end_padding (n : nat) :
  truncate_at_end end_index (replicate n end_index) = [].
Proof. destruct n; simpl; [done|]. by rewrite Nat.eqb_refl. Qed.

(** A beam of one hypothesis stays a beam of one; what it appends is the
    greedy continuation up to its first end symbol, and padding after. *)
Lemma search_from_one start steps h :
  (forall last st, (take_step last st).1 <> []) ->
  exists h' appended,
    search_from take_step end_index 1 start steps [h] = [h']
    /\ rev_tokens h' = rev appended ++ rev_tokens h
    /\ (finished end_index h = true -> appended = replicate steps end_index)
    /\ (finished end_index h = false ->
        truncate_at_end end_index appended
        = truncate_at_end end_index
            (greedy_loop take_step steps (hd start (rev_tokens h)) (hstate h))).
Proof.
  intros Hclasses. revert h. induction steps as [|steps IH]; intros h.
  - exists h, []. by split_and!.
  - cbn [search_from]. destruct (finished end_index h) eqn:Hfin.
    + rewrite top_1_finished by done.
      destruct (IH {| rev_tokens := end_index :: rev_tokens h;
                      log_prob := log_prob h; hstate := hstate h |})
        as (h' & appended & Hsearch & Htokens & Hpad & _).
      exists h', (end_index :: appended). split_and!; [done| | |done].
      * rewrite Htokens. simpl. by rewrite <- app_assoc.
      * intros _. simpl. f_equal. apply Hpad. simpl. apply Nat.eqb_refl.
    + destruct (take_step (hd start (rev_tokens h)) (hstate h)) as [log_probs st'] eqn:Hstep.
      destruct (top_1_expand start h log_probs st' Hfin Hstep) as [p Htop].
      { specialize (Hclasses (hd start (rev_tokens h)) (hstate h)). by rewrite Hstep in Hclasses. }
      rewrite Htop.
      destruct (IH {| rev_tokens := argmax log_probs :: rev_tokens h;
                      log_prob := p; hstate := st' |})
        as (h' & appended & Hsearch & Htokens & Hpad & Hgreedy).
      exists h', (argmax log_probs :: appended). split_and!; [done| |done|].
      * rewrite Htokens. simpl. by rewrite <- app_assoc.
      * intros _. simpl. rewrite Hstep. simpl.
        destruct (Nat.eqb (argmax log_probs) end_index) eqn:Hend; [done|].
        f_equal. apply Hgreedy. simpl. exact Hend.
Qed.

Lemma insert_by_score_perm h sorted : insert_by_score h sorted ≡ₚ h :: sorted.
Proof.
  induction sorted as [|h' sorted IH]; simpl; [done|].
  destruct (Qle_bool _ _); [|done]. rewrite IH. apply Permutation_swap.
Qed.

Lemma insert_by_score_sorted h sorted :
  StronglySorted scores_at_least sorted ->
  StronglySorted scores_at_least (insert_by_score h sorted).
Proof.
  induction 1 as [|h' sorted Hsorted IH Hall]; simpl.
  - repeat constructor.
  - destruct (Qle_bool (log_prob h) (log_prob h')) eqn:E.
    + constructor; [done|]. rewrite insert_by_score_perm.
      constructor; [|done]. by apply Qle_bool_iff.
    + assert (log_prob h' <= log_prob h)%Q as Hle.
      { apply Qlt_le_weak, Qnot_le_lt. rewrite <- Qle_bool_iff. congruence. }
      constructor; [by constructor|]. constructor; [done|].
      eapply Forall_impl; [exact Hall|]. intros h'' Hh''.
      unfold scores_at_least in *. by apply (Qle_trans _ (log_prob h')).
Qed.

Lemma top_k_sorted (k : nat) (candidates : list (@hypothesis state)) :
  exists sorted,
    sorted ≡ₚ candidates
    /\ StronglySorted scores_at_least sorted
    /\ top_k k candidates = take k sorted.
Proof.
  unfold top_k.
  assert (forall acc,
             StronglySorted scores_at_least acc ->
             fold_left (fun sorted h => insert_by_score h sorted) candidates acc
               ≡ₚ acc ++ candidates
             /\ StronglySorted scores_at_least
                  (fold_left (fun sorted h => insert_by_score h sorted) candidates acc))
    as Hfold.
  { induction candidates as [|h candidates IH]; intros acc Hacc; simpl.
    - by rewrite app_nil_r.
    - destruct (IH (insert_by_score h acc)) as [Hperm Hsorted].
      { by apply insert_by_score_sorted. }
      split; [|done]. rewrite Hperm, insert_by_score_perm.
      simpl. apply Permutation_middle. }
  destruct (Hfold []) as [Hperm Hsorted]; [constructor|].
  eexists. by split_and!.
Qed.
End DecodingFacts.

(** C7: whatever the beam size, each step keeps the first [beam_size]
    candidates in decreasing order of score; with beam size 1, on a
    decoder that always offers at least one class, the beam holds a single
    hypothesis throughout, and its tokens, cut at the end symbol, are those
    of the greedy loop over the same [take_step], cut likewise. *)
Theorem beam_size_one_is_greedy {state : Type}
    (take_step : nat -> state -> list Q * state) (end_index max_steps : nat)
    (start_prediction : nat) (st : state) :
  (forall last s, (take_step last s).1 <> []) ->
  (forall (k : nat) (candidates : list (@hypothesis state)),
     exists sorted,
       sorted ≡ₚ candidates
       /\ StronglySorted scores_at_least sorted
       /\ top_k k candidates = take k sorted)
  /\ (exists tokens,
        search take_step end_index 1 max_steps start_prediction st = [tokens]
        /\ truncate_at_end end_index tokens
           = truncate_at_end end_index
               (greedy_loop take_step max_steps start_prediction st))
  /\ predicted_tokens_beam end_index
       (search take_step end_index 1 max_steps start_prediction st)
     = Some (truncate_at_end end_index
               (greedy_loop take_step max_steps start_prediction st)).
Proof.
  intros Hclasses.
  destruct (search_from_one take_step end_index start_prediction max_steps
              {| rev_tokens := []; log_prob := 0%Q; hstate := st |} Hclasses)
    as (h' & appended & Hsearch & Htokens & _ & Hgreedy).
  assert (search take_step end_index 1 max_steps start_prediction st = [appended])
    as Hone.
  { unfold search. rewrite Hsearch. simpl. rewrite Htokens, app_nil_r.
    by rewrite rev_involutive. }
  specialize (Hgreedy eq_refl). simpl in Hgreedy.
  split_and!.
  - apply top_k_sorted.
  - by exists appended.
  - unfold predicted_tokens_beam. rewrite Hone. simpl. by rewrite Hgreedy.
Qed.

Lemma beam_size_one_is_greedy_witness :
  (forall last s, (toy_take_step last s).1 <> [])
  /\ search toy_take_step 2 1 6 0%nat 0%nat = [[1; 2; 2; 2; 2; 2]%nat]
  /\ greedy_loop toy_take_step 6 0%nat 0%nat = [1; 2; 0; 1; 2; 0]%nat
  /\ predicted_tokens_beam 2 (search toy_take_step 2 1 6 0%nat 0%nat)
     = Some (truncate_at_end 2 (greedy_loop toy_take_step 6 0%nat 0%nat)).
Proof.
  assert (forall last s, (toy_take_step last s).1 <> []) as H.
  { intros last s. unfold toy_take_step. cbn [fst].
    by destruct ((last + s) mod 3)%nat as [|[|?]]. }
  split; [exact H|]. split; [vm_compute; reflexivity|].
  split; [vm_compute; reflexivity|].
  exact (proj2 (proj2 (beam_size_one_is_greedy toy_take_step 2 6 0%nat 0%nat H))).
Defined.

(** ** The definitions at work *)

Example get_score_values :
  map get_score [0; 1; 2; 3; 4; 10] = [0 # 3; 1 # 3; 2 # 3; 1; 1; 1]%Q.
Proof. reflexivity. Qed.

Example id_from_filename_values :
  map id_from_filename
      ["COCO_train2014_000000123456.jpg"; "000000000007.png"; "00000000007.png";
       "COCO_train2014_000000123456.jpeg"; "000000123456.JPG"; "000000123456.jpg.bak"]
  = [Some 123456; Some 7; None; None; None; None].
Proof. vm_compute. reflexivity. Qed.

Example count_answers_values :
  let a := {| a_question_id := 5; a_multiple_choice_answer := "no";
              a_answers := ["no"; "yes"; "no"; "no"; "maybe"] |} in
  count_answers fixture_externals (fixture_reader None) a
    = [("no", 3); ("yes", 1); ("maybe", 1)]
  /\ count_answers fixture_externals
       {| answer_vocab := None; produce_featurized_images := false; images := ∅;
          multiple_answers_per_question := false |} a
     = [("no", 1)].
Proof. split; reflexivity. Qed.

Example read_unittest_values :
  (_read fixture_externals (fixture_reader (Some {["yes"]})) (inl "unittest")
     fixture_world).1
  = {| yielded :=
         [ mkInstance [("question", TextField ["Is it raining?"]);
                       ("labels", ListField [LabelField "yes" "answers"]);
                       ("label_weights", ArrayField (TorchTensor [1%Q]))];
           mkInstance [("question", TextField ["What colour is the bus?"])] ];
       raised := None |}.
Proof. vm_compute. reflexivity. Qed.

Example read_out_of_vocabulary_values :
  (_read fixture_externals (fixture_reader (Some {["maybe"]})) (inl "unittest")
     fixture_world).1
  = {| yielded := [ mkInstance [("question", TextField ["What colour is the bus?"])] ];
       raised := None |}.
Proof. vm_compute. reflexivity. Qed.

Example read_list_stops_values :
  _read fixture_externals (fixture_reader None) (inr ["no_such_split"; "unittest"])
    fixture_world
  = ({| yielded := [];
        raised := Some (ValueError "Unrecognized split: no_such_split.") |},
     fixture_world).
Proof. vm_compute. reflexivity. Qed.

Example init_values :
  let super := {| super_produce_featurized_images := false;
                  super_images := [("a.jpg", "/data/a.jpg")] |} in
  let no_files := fun location : string => (inl (OSError location) : exn + list string) in
  (__init__ fixture_externals (fun _ => inr super) no_files None true None true
     fixture_world).1
  = inl (ValueError "Because of the size of the image datasets, we don't download them automatically.")
  /\ (__init__ fixture_externals (fun _ => inl (OSError "/data")) no_files (Some "/data")
        true None true fixture_world).1
     = inl (OSError "/data")
  /\ (__init__ fixture_externals (fun _ => inr super) no_files (Some "/data") false
        (Some (inl "vocabulary.tar.gz")) true fixture_world).1
     = inl (OSError "/cache/vocabulary.tar.gz")
  /\ match (__init__ fixture_externals (fun _ => inr super)
              (fun _ => inr ["yes"; "no"]) (Some "/data") false
              (Some (inl "vocabulary.tar.gz")) true fixture_world).1 with
     | inr self => answer_vocab self
     | inl _ => None
     end = Some ({["yes"; "no"]} : gset string).
Proof. split_and!; [reflexivity..|]. vm_compute. reflexivity. Qed.

Example read_twice_values :
  (_read fixture_externals (fixture_reader None) (inr ["unittest"; "unittest"])
     fixture_world).1
  = {| yielded :=
         yielded (_read fixture_externals (fixture_reader None) (inl "unittest")
                    fixture_world).1
         ++ yielded (_read fixture_externals (fixture_reader None) (inl "unittest")
                       fixture_world).1;
       raised := None |}.
Proof. vm_compute. reflexivity. Qed.

Example read_missing_image_values :
  let self := {| answer_vocab := None; produce_featurized_images := true;
                 images := {[ (inr (Some 42) : image_key) := "/data/000000000042.jpg" ]};
                 multiple_answers_per_question := true |} in
  (_read fixture_externals self (inl "unittest") fixture_world).1
  = {| yielded := []; raised := Some (KeyError 7) |}.
Proof. vm_compute. reflexivity. Qed.

Example read_featurized_values :
  let self := {| answer_vocab := None; produce_featurized_images := true;
                 images := {[ (inr (Some 42) : image_key) := "/data/000000000042.jpg";
                              (inr (Some 7) : image_key) := "/data/7/000000000007.png" ]};
                 multiple_answers_per_question := false |} in
  (_read fixture_externals self (inl "unittest") fixture_world).1
  = {| yielded :=
         [ mkInstance [("question", TextField ["Is it raining?"]);
                       ("box_features", ArrayField (Tensor 22));
                       ("box_coordinates", ArrayField (Tensor 0));
                       ("box_mask", ArrayField (NewOnesBool 22));
                       ("labels", ListField [LabelField "yes" "answers"]);
                       ("label_weights", ArrayField (TorchTensor [1 # 3]))];
           mkInstance [("question", TextField ["What colour is the bus?"]);
                       ("box_features", ArrayField (Tensor 24));
                       ("box_coordinates", ArrayField (Tensor 0));
                       ("box_mask", ArrayField (NewOnesBool 24))] ];
       raised := None |}.
Proof. vm_compute. reflexivity. Qed.

(** * Further properties *)

(** ** Scores and weights *)

(** X1: [get_score] is not clamped from below: a negative count gives the
    negative score [count/3]; the counts 0, 1 and 2 give 0, 1/3 and 2/3,
    and every count from 3 on gives 1. *)
Theorem get_score_cases (count : Z) :
  (count < 0 /\ (get_score count == count # 3)%Q /\ (get_score count < 0)%Q)
  \/ (count = 0 /\ (get_score count == 0)%Q)
  \/ (count = 1 /\ (get_score count == 1 # 3)%Q)
  \/ (count = 2 /\ (get_score count == 2 # 3)%Q)
  \/ (3 <= count /\ get_score count = 1%Q).
Proof.
  destruct (Z_lt_le_dec count 0) as [Hneg|Hnonneg].
  - left. pose proof (get_score_below count ltac:(lia)) as E.
    split; [done|]. split; [done|].
    unfold Qlt, Qeq in *. simpl in *. lia.
  - right. destruct (Z_lt_le_dec count 3) as [Hlt|Hge].
    + assert (count = 0 \/ count = 1 \/ count = 2) as [-> | [-> | ->]] by lia.
      * left. split; [done|]. pose proof (get_score_below 0 ltac:(lia)) as E.
        unfold Qeq in *. simpl in *. lia.
      * right. left. split; [done|]. by apply get_score_below.
      * right. right. left. split; [done|]. by apply get_score_below.
    + do 3 right. split; [done|]. by apply get_score_capped.
Qed.

Lemma dict_set_values_ge {K} `{EqDecision K} (k : K) (v bound : Z) (d : list (K * Z)) :
  bound <= v -> Forall (fun kv => bound <= kv.2) d ->
  Forall (fun kv => bound <= kv.2) (dict_set k v d).
Proof.
  intros Hv Hd. apply Forall_forall. intros [k0 v0] Hin.
  apply dict_set_elem in Hin as [->|Hin]; [done|].
  by apply (proj1 (Forall_forall _ _) Hd (k0, v0)).
Qed.

Lemma counter_incr_positive k (c : list (string * Z)) :
  Forall (fun kv => 1 <= kv.2) c -> Forall (fun kv => 1 <= kv.2) (counter_incr k c).
Proof.
  intros Hc. unfold counter_incr. apply dict_set_values_ge; [|done].
  destruct (dict_get k c) as [v|] eqn:E; simpl; [|lia].
  apply dict_get_Some_elem in E.
  pose proof (proj1 (Forall_forall _ _) Hc (k, v) E) as Hv. simpl in Hv. lia.
Qed.

(** Every count of an annotation's counter is at least 1. *)
Lemma count_answers_positive (X : Externals) (self : VQAv2Reader) (a : annotation) :
  Forall (fun kv => 1 <= kv.2) (count_answers X self a).
Proof.
  unfold count_answers. destruct (multiple_answers_per_question self).
  - assert (forall answers c,
               Forall (fun kv : string * Z => 1 <= kv.2) c ->
               Forall (fun kv : string * Z => 1 <= kv.2) (count_loop X answers c)) as H.
    { induction answers as [|answer answers IH]; intros c Hc; [exact Hc|].
      apply IH. by apply counter_incr_positive. }
    apply H. constructor.
  - simpl. by repeat constructor.
Qed.

Lemma get_score_of_positive (count : Z) :
  1 <= count -> (1 # 3 <= get_score count)%Q /\ (get_score count <= 1)%Q.
Proof.
  intros Hc. destruct (get_score_cases count) as [H|[H|[H|[H|H]]]].
  - lia.
  - lia.
  - destruct H as [_ ->]. split; unfold Qle; simpl; lia.
  - destruct H as [_ ->]. split; unfold Qle; simpl; lia.
  - destruct H as [_ ->]. split; unfold Qle; simpl; lia.
Qed.

Lemma kept_answers_subset (self : VQAv2Reader) (items : list (string * Z)) item :
  item ∈ kept_answers self items -> item ∈ items /\ answer_allowed self item.1 = true.
Proof.
  unfold kept_answers. intros Hin%list_elem_of_In%filter_In.
  destruct Hin as [Hin Hallowed]. split; [by apply list_elem_of_In | done].
Qed.

(** X2: when an instance is built from the counter of an annotation,
    every label weight lies between 1/3 and 1; with
    [multiple_answers_per_question] unset there is exactly one weight, and
    it is 1/3, the score of the count 1 that the single answer gets. *)
Theorem annotation_label_weights (X : Externals) (self : VQAv2Reader) (a : annotation)
    (question_text : string) (image : option (string + processed_image (tensor X)))
    (use_cache : bool) (inst : instance (token X) (tensor X)) :
  text_to_instance X self question_text image (Some (count_answers X self a)) use_cache
    = Some inst ->
  exists weights,
    dict_get "label_weights" (fields inst) = Some (ArrayField (TorchTensor weights))
    /\ Forall (fun weight => (1 # 3 <= weight)%Q /\ (weight <= 1)%Q) weights
    /\ (multiple_answers_per_question self = false ->
        length weights = 1%nat /\ Forall (fun weight => (weight == 1 # 3)%Q) weights).
Proof.
  rewrite text_to_instance_unfold. cbn zeta.
  destruct (kept_answers self (count_answers X self a)) as [|item kept] eqn:E; [done|].
  rewrite <- E. intros H. apply (inj Some) in H. subst inst. cbn [fields].
  eexists. split; [apply dict_get_set_eq|]. split.
  - apply Forall_forall. intros weight Hin.
    apply list_elem_of_In, in_map_iff in Hin as (kv & <- & Hkv).
    apply list_elem_of_In, kept_answers_subset in Hkv as [Hkv _].
    apply get_score_of_positive.
    exact (proj1 (Forall_forall _ _) (count_answers_positive X self a) kv Hkv).
  - intros Hsingle. unfold count_answers in *. rewrite Hsingle in *. simpl in *.
    unfold kept_answers in *. simpl in *.
    destruct (answer_allowed self _); [|done].
    simpl. split; [done|]. repeat constructor.
Qed.

Lemma annotation_label_weights_witness :
  let self := {| answer_vocab := None; produce_featurized_images := false; images := ∅;
                 multiple_answers_per_question := false |} in
  let a := {| a_question_id := 1; a_multiple_choice_answer := "yes";
              a_answers := ["yes"; "yes"; "yes"; "no"] |} in
  exists inst,
    text_to_instance fixture_externals self "Is it raining?" None
      (Some (count_answers fixture_externals self a)) true = Some inst
    /\ dict_get "label_weights" (fields inst) = Some (ArrayField (TorchTensor [1 # 3]))
    /\ exists weights,
         dict_get "label_weights" (fields inst) = Some (ArrayField (TorchTensor weights))
         /\ Forall (fun weight => (1 # 3 <= weight)%Q /\ (weight <= 1)%Q) weights
         /\ (multiple_answers_per_question self = false ->
             length weights = 1%nat /\ Forall (fun weight => (weight == 1 # 3)%Q) weights).
Proof.
  intros self a. eexists. split; [vm_compute; reflexivity|]. split; [reflexivity|].
  apply (annotation_label_weights fixture_externals self a "Is it raining?" None true).
  vm_compute. reflexivity.
Defined.

(** X3: without an answer vocabulary, a question that has an annotation is
    dropped exactly when [multiple_answers_per_question] is set and the
    annotation lists no answers; in single-answer mode it is never
    dropped. *)
Theorem annotated_question_dropped_iff (X : Externals) (self : VQAv2Reader)
    (a : annotation) (question_text : string)
    (image : option (string + processed_image (tensor X))) (use_cache : bool) :
  answer_vocab self = None ->
  text_to_instance X self question_text image (Some (count_answers X self a)) use_cache
    = None
  <-> multiple_answers_per_question self = true /\ a_answers a = [].
Proof.
  intros Hvocab. rewrite text_to_instance_unfold. cbn zeta.
  assert (kept_answers self (count_answers X self a) = count_answers X self a) as ->.
  { unfold kept_answers, answer_allowed. rewrite Hvocab.
    induction (count_answers X self a) as [|kv l IH]; simpl; [done|]. by rewrite IH. }
  unfold count_answers. destruct (multiple_answers_per_question self); simpl.
  - destruct (a_answers a) as [|answer answers]; simpl.
    + split; [done | done].
    + assert (preprocess_answer X answer
              ∈ dict_keys (count_loop X answers
                             (counter_incr (preprocess_answer X answer) []))) as Hin.
      { apply count_loop_keys. left. apply counter_incr_keys. by left. }
      change (fold_left _ answers ?c) with (count_loop X answers c).
      destruct (count_loop X answers _) as [|kv l]; [by apply elem_of_nil in Hin|].
      split; [done | by intros [_ ?]].
  - split; [done | by intros [? _]].
Qed.

Lemma annotated_question_dropped_iff_witness :
  let a := {| a_question_id := 1; a_multiple_choice_answer := "yes"; a_answers := [] |} in
  answer_vocab (fixture_reader None) = None
  /\ text_to_instance fixture_externals (fixture_reader None) "Is it raining?" None
       (Some (count_answers fixture_externals (fixture_reader None) a)) true = None.
Proof.
  intros a. split; [reflexivity|].
  apply (annotated_question_dropped_iff fixture_externals (fixture_reader None) a
           "Is it raining?" None true eq_refl).
  split; reflexivity.
Defined.

(** ** The fields of an instance *)

Lemma image_fields_question (X : Externals) (question_text : string)
    (image : option (string + processed_image (tensor X))) (use_cache : bool) :
  dict_get "question" (image_fields X question_text image use_cache)
  = Some (TextField (tokenize X question_text))
  /\ dict_get "labels" (image_fields X question_text image use_cache) = None
  /\ dict_get "label_weights" (image_fields X question_text image use_cache) = None.
Proof.
  unfold image_fields. destruct image as [image|]; [|done].
  destruct (match image with inl path => _ | inr processed => processed end)
    as [[[features coords] ?] ?].
  by rewrite !dict_get_set_ne by done.
Qed.

(** X4: without answer counts [text_to_instance] always returns an
    instance; it has the tokenized question under "question" and neither
    "labels" nor "label_weights".  Answer counts, when they lead to an
    instance, add these two fields and change no other. *)
Theorem text_to_instance_without_answers (X : Externals) (self : VQAv2Reader)
    (question_text : string) (image : option (string + processed_image (tensor X)))
    (use_cache : bool) :
  exists unlabelled,
    text_to_instance X self question_text image None use_cache = Some unlabelled
    /\ dict_get "question" (fields unlabelled) = Some (TextField (tokenize X question_text))
    /\ dict_get "labels" (fields unlabelled) = None
    /\ dict_get "label_weights" (fields unlabelled) = None
    /\ forall answer_counts inst,
         text_to_instance X self question_text image (Some answer_counts) use_cache
           = Some inst ->
         is_Some (dict_get "labels" (fields inst))
         /\ is_Some (dict_get "label_weights" (fields inst))
         /\ forall key, key <> "labels" -> key <> "label_weights" ->
                        dict_get key (fields inst) = dict_get key (fields unlabelled).
Proof.
  exists (mkInstance (image_fields X question_text image use_cache)).
  destruct (image_fields_question X question_text image use_cache) as (Hq & Hl & Hw).
  split; [apply text_to_instance_no_answers|]. cbn [fields]. split_and!; try done.
  intros answer_counts inst. rewrite text_to_instance_unfold. cbn zeta.
  destruct (kept_answers self answer_counts) as [|item kept]; [done|].
  intros H. apply (inj Some) in H. subst inst. cbn [fields]. split_and!.
  - rewrite dict_get_set_ne by done. rewrite dict_get_set_eq. by eexists.
  - rewrite dict_get_set_eq. by eexists.
  - intros key Hl' Hw'. by rewrite !dict_get_set_ne by done.
Qed.

(** X5: an instance carries "box_features", "box_coordinates" and
    "box_mask" exactly when an image is given; the features and
    coordinates are those of the processed image (computed from the path
    when a path is given), and the mask is made from the features. *)
Theorem text_to_instance_box_fields (X : Externals) (self : VQAv2Reader)
    (question_text : string) (image : option (string + processed_image (tensor X)))
    (answer_counts : option (list (string * Z))) (use_cache : bool)
    (inst : instance (token X) (tensor X)) :
  text_to_instance X self question_text image answer_counts use_cache = Some inst ->
  match image with
  | None =>
      dict_get "box_features" (fields inst) = None
      /\ dict_get "box_coordinates" (fields inst) = None
      /\ dict_get "box_mask" (fields inst) = None
  | Some image =>
      let processed :=
        match image with
        | inl path => featurize X use_cache path
        | inr processed => processed
        end in
      dict_get "box_features" (fields inst) = Some (ArrayField (Tensor processed.1.1.1))
      /\ dict_get "box_coordinates" (fields inst) = Some (ArrayField (Tensor processed.1.1.2))
      /\ dict_get "box_mask" (fields inst) = Some (ArrayField (NewOnesBool processed.1.1.1))
  end.
Proof.
  intros Hinst.
  assert (forall key, key <> "labels" -> key <> "label_weights" ->
                      dict_get key (fields inst)
                      = dict_get key (image_fields X question_text image use_cache))
    as Hkey.
  { destruct answer_counts as [answer_counts|].
    - rewrite text_to_instance_unfold in Hinst. cbn zeta in Hinst.
      destruct (kept_answers self answer_counts) as [|item kept]; [done|].
      apply (inj Some) in Hinst. subst inst. cbn [fields].
      intros key Hl Hw. by rewrite !dict_get_set_ne by done.
    - rewrite text_to_instance_no_answers in Hinst. apply (inj Some) in Hinst.
      by subst inst. }
  rewrite !Hkey by done. unfold image_fields.
  destruct image as [image|]; [|done]. cbn zeta.
  destruct (match image with inl path => _ | inr processed => processed end)
    as [[[features coords] ?] ?]. simpl.
  by split_and!.
Qed.

Lemma text_to_instance_box_fields_witness :
  exists inst,
    text_to_instance fixture_externals (fixture_reader None) "Is it raining?"
      (Some (inl "/data/000000000042.jpg")) (Some [("yes", 3)]) true = Some inst
    /\ dict_get "box_features" (fields inst) = Some (ArrayField (Tensor 22))
    /\ dict_get "box_coordinates" (fields inst) = Some (ArrayField (Tensor 0))
    /\ dict_get "box_mask" (fields inst) = Some (ArrayField (NewOnesBool 22)).
Proof.
  eexists. split; [vm_compute; reflexivity|].
  apply (text_to_instance_box_fields fixture_externals (fixture_reader None)
           "Is it raining?" (Some (inl "/data/000000000042.jpg")) (Some [("yes", 3)]) true).
  vm_compute. reflexivity.
Defined.

(** X6: given answer counts whose keys are pairwise different, as those of
    a dictionary are, the labels of the instance are pairwise different,
    there is at least one, and there are no more than there are answers. *)
Theorem text_to_instance_labels_distinct (X : Externals) (self : VQAv2Reader)
    (question_text : string) (image : option (string + processed_image (tensor X)))
    (answer_counts : list (string * Z)) (use_cache : bool)
    (inst : instance (token X) (tensor X)) :
  NoDup (dict_keys answer_counts) ->
  text_to_instance X self question_text image (Some answer_counts) use_cache = Some inst ->
  exists labels,
    dict_get "labels" (fields inst) = Some (ListField labels)
    /\ NoDup labels
    /\ (0 < length labels <= length answer_counts)%nat.
Proof.
  intros Hnd. rewrite text_to_instance_unfold. cbn zeta.
  destruct (kept_answers self answer_counts) as [|item kept] eqn:E; [done|].
  rewrite <- E. intros H. apply (inj Some) in H. subst inst. cbn [fields].
  eexists. split; [rewrite dict_get_set_ne by done; apply dict_get_set_eq|].
  assert (NoDup (dict_keys (kept_answers self answer_counts))
          /\ (length (kept_answers self answer_counts) <= length answer_counts)%nat)
    as [Hkept Hlen].
  { clear E. unfold kept_answers, dict_keys in *.
    induction answer_counts as [|[answer count] rest IH]; simpl; [done|].
    apply NoDup_cons in Hnd as [Hnotin Hnd]. destruct (IH Hnd) as [IH1 IH2].
    destruct (answer_allowed self answer); simpl; [|split; [done | lia]].
    split; [|lia]. apply NoDup_cons. split; [|done].
    intros Hin. apply Hnotin.
    apply list_elem_of_fmap in Hin as (kv & -> & Hkv).
    apply list_elem_of_In, filter_In in Hkv as [Hkv _].
    apply list_elem_of_fmap. exists kv. split; [done | by apply list_elem_of_In]. }
  split.
  - change (map ?f ?l) with (f <$> l).
    assert ((fun item : string * Z => LabelField (token := token X) (tensor := tensor X)
                                        item.1 "answers")
            <$> kept_answers self answer_counts
            = (fun answer => LabelField answer "answers")
                <$> dict_keys (kept_answers self answer_counts)) as ->.
    { unfold dict_keys. by rewrite <- list_fmap_compose. }
    apply NoDup_fmap_2; [|done]. by intros ? ? [= ->].
  - rewrite length_map. rewrite E in *. simpl in *. lia.
Qed.

Lemma text_to_instance_labels_distinct_witness :
  exists inst,
    NoDup (dict_keys [("yes", 2); ("no", 1)])
    /\ text_to_instance fixture_externals (fixture_reader None) "Is it raining?" None
         (Some [("yes", 2); ("no", 1)]) true = Some inst
    /\ exists labels,
         dict_get "labels" (fields inst) = Some (ListField labels)
         /\ NoDup labels /\ (0 < length labels <= 2)%nat.
Proof.
  assert (NoDup (dict_keys [("yes", 2); ("no", 1)])) as Hnd.
  { apply (bool_decide_unpack _). vm_compute. exact I. }
  eexists. split; [exact Hnd|]. split; [vm_compute; reflexivity|].
  apply (text_to_instance_labels_distinct fixture_externals (fixture_reader None)
           "Is it raining?" None [("yes", 2); ("no", 1)] true _ Hnd).
  vm_compute. reflexivity.
Defined.

(** ** Reading one split *)

Lemma read_loop_unannotated (X : Externals) (self : VQAv2Reader)
    (question_dicts : list question_dict) :
  read_loop X self []
    (zip question_dicts (replicate (length question_dicts) None))
  = map (fun q => mkInstance [("question", TextField (tokenize X (question q)))])
        question_dicts.
Proof.
  rewrite read_loop_plain.
  assert (forall {A B} (f : A -> option B) (g : A -> B) (l : list A),
             (forall x, f x = Some (g x)) -> omap f l = map g l) as Homap.
  { intros A B f g l Hfg. induction l as [|x l IH]; [done|].
    cbn. rewrite Hfg. cbn. f_equal. exact IH. }
  apply Homap. intros q. cbn [dict_get]. by rewrite text_to_instance_no_answers.
Qed.

(** X7: for a split without annotations (the two test splits), with
    featurization off, [_read] yields one instance per question of the
    sliced and sharded question list, in order, each holding the tokenized
    question and nothing else; no question is dropped and the file system
    and the cache are left as they were. *)
Theorem _read_unannotated_split (X : Externals) (self : VQAv2Reader) (split_name : string)
    (w : world) (split : Split) (path : string) (questions_list : list question_dict) :
  dict_get (get_data_slice X split_name).2 splits = Some split ->
  annotations split = None ->
  cached_path w (questions split) = Some path ->
  read_questions w path = Some questions_list ->
  produce_featurized_images self = false ->
  _read X self (inl split_name) w
  = ({| yielded :=
          map (fun q => mkInstance [("question", TextField (tokenize X (question q)))])
              (shard_iterable X
                 (apply_slice X (get_data_slice X split_name).1 questions_list));
        raised := None |}, w)
  /\ forall name split', dict_get name splits = Some split' ->
       (annotations split' = None
        <-> name = "balanced_real_test" \/ name = "abstract_scenes_test").
Proof.
  intros Hsplit Hnone Hpath Hquestions Hoff. split.
  - unfold _read. rewrite read_split_factor, Hsplit. cbn zeta.
    rewrite _get_answers_no_annotations by done. cbn [fst snd].
    unfold finish_split. rewrite Hpath, Hquestions, Hoff.
    by rewrite read_loop_unannotated.
  - intros name split' Hname. apply dict_get_Some_elem in Hname.
    unfold splits in Hname.
    repeat (apply elem_of_cons in Hname as [Heq|Hname];
            [injection Heq as -> ->; cbn [annotations];
             split; [first [discriminate | intros _; by auto]
                    |first [by intros [?|?] | done]]|]).
    by apply elem_of_nil in Hname.
Qed.

Lemma _read_unannotated_split_witness :
  _read fixture_externals (fixture_reader None) (inl "balanced_real_test")
    fixture_test_world
  = ({| yielded :=
          [ mkInstance [("question", TextField ["How many cats?"])];
            mkInstance [("question", TextField ["Is it night?"])] ];
        raised := None |}, fixture_test_world).
Proof.
  refine (proj1 (_read_unannotated_split fixture_externals (fixture_reader None)
                   "balanced_real_test" fixture_test_world
                   {| annotations := None;
                      questions := mscoco_base +:+ "v2_Questions_Test_mscoco.zip!v2_OpenEnded_mscoco_test2015_questions.json" |}
                   ("/cache/" +:+ mscoco_base +:+ "v2_Questions_Test_mscoco.zip!v2_OpenEnded_mscoco_test2015_questions.json")
                   [ {| question_id := 10; image_id := 3; question := "How many cats?" |};
                     {| question_id := 11; image_id := 3; question := "Is it night?" |} ]
                   _ _ _ _ _)); reflexivity.
Defined.

Lemma lookup_image_paths_first (self : VQAv2Reader)
    (before after : list question_dict) (q : question_dict) :
  (forall q', q' ∈ before ->
              is_Some (images self !! (inr (Some (image_id q')) : image_key))) ->
  images self !! (inr (Some (image_id q)) : image_key) = None ->
  lookup_image_paths self (before ++ q :: after) = inl (image_id q).
Proof.
  intros Hbefore Hnone. induction before as [|q0 before IH]; simpl.
  - by rewrite Hnone.
  - destruct (Hbefore q0) as [path ->]; [left|].
    rewrite IH; [done|]. intros q' Hq'. apply Hbefore. by right.
Qed.

(** X8: with featurization on, the image paths of all questions are looked
    up before anything is yielded, and the [KeyError] names the image id of
    the first question, in the order of the question list, that has no
    image: nothing is yielded even if the questions before it have one. *)
Theorem _read_first_missing_image (X : Externals) (self : VQAv2Reader)
    (split_name : string) (w w1 : world) (split : Split)
    (answers : list (string * list (string * Z))) (path : string)
    (questions_list before after : list question_dict) (q : question_dict) :
  dict_get (get_data_slice X split_name).2 splits = Some split ->
  _get_answers_by_question_id X self split w = (inr answers, w1) ->
  cached_path w1 (questions split) = Some path ->
  read_questions w1 path = Some questions_list ->
  produce_featurized_images self = true ->
  shard_iterable X (apply_slice X (get_data_slice X split_name).1 questions_list)
    = before ++ q :: after ->
  (forall q', q' ∈ before ->
              is_Some (images self !! (inr (Some (image_id q')) : image_key))) ->
  images self !! (inr (Some (image_id q)) : image_key) = None ->
  _read X self (inl split_name) w
  = ({| yielded := []; raised := Some (KeyError (image_id q)) |}, w1).
Proof.
  intros Hsplit Hget Hpath Hquestions Hon Hlist Hbefore Hnone.
  unfold _read. rewrite read_split_factor, Hsplit. cbn zeta. rewrite Hget. cbn [fst snd].
  unfold finish_split. rewrite Hpath, Hquestions, Hon, Hlist.
  by rewrite lookup_image_paths_first.
Qed.

Lemma _read_first_missing_image_witness :
  exists w1,
    _read fixture_externals fixture_featurizing_reader (inl "unittest") fixture_world
    = ({| yielded := []; raised := Some (KeyError 7) |}, w1).
Proof.
  exists (_get_answers_by_question_id fixture_externals fixture_featurizing_reader
            unittest_split fixture_world).2.
  refine (_read_first_missing_image fixture_externals fixture_featurizing_reader
            "unittest" fixture_world _ unittest_split
            [("1", [("yes", 3); ("no", 1)])]
            "/cache/test_fixtures/vision/vqav2/questions.json"
            [ {| question_id := 1; image_id := 42; question := "Is it raining?" |};
              {| question_id := 2; image_id := 7; question := "What colour is the bus?" |} ]
            [ {| question_id := 1; image_id := 42; question := "Is it raining?" |} ] []
            {| question_id := 2; image_id := 7; question := "What colour is the bus?" |}
            _ _ _ _ _ _ _ _); try (vm_compute; reflexivity).
  intros q' ->%list_elem_of_singleton. vm_compute. by eexists.
Defined.

(** ** The annotation cache, further *)

(** The five ways a call of [_get_answers_by_question_id] can go. *)
Lemma _get_answers_outcome (X : Externals) (self : VQAv2Reader) (split : Split) (w : world) :
  (annotations split = None
   /\ _get_answers_by_question_id X self split w = (inr [], w))
  \/ (exists url,
        annotations split = Some url /\ cached_path w url = None
        /\ _get_answers_by_question_id X self split w = (inl (OSError url), w))
  \/ (exists url path doc,
        annotations split = Some url /\ cached_path w url = Some path
        /\ cache w !! (url +:+ "-cache", path) = Some doc
        /\ _get_answers_by_question_id X self split w
           = (match json_load doc with
              | Some answers => inr answers
              | None => inl (ValueError "json.decoder.JSONDecodeError")
              end, w))
  \/ (exists url path,
        annotations split = Some url /\ cached_path w url = Some path
        /\ cache w !! (url +:+ "-cache", path) = None
        /\ read_annotations w path = None
        /\ _get_answers_by_question_id X self split w = (inl (OSError path), w))
  \/ (exists url path annotations_list,
        annotations split = Some url /\ cached_path w url = Some path
        /\ cache w !! (url +:+ "-cache", path) = None
        /\ read_annotations w path = Some annotations_list
        /\ _get_answers_by_question_id X self split w
           = (inr (compute_answers_by_question_id X self annotations_list),
              write_cache (url +:+ "-cache", path)
                (json_dump (compute_answers_by_question_id X self annotations_list)) w)).
Proof.
  destruct (annotations split) as [url|] eqn:Hsplit.
  2:{ left. split; [done|]. by apply _get_answers_no_annotations. }
  right. destruct (cached_path w url) as [path|] eqn:Hpath.
  2:{ left. exists url. split_and!; try done. by apply _get_answers_unreachable. }
  right. destruct (cache w !! (url +:+ "-cache", path)) as [doc|] eqn:Hcache.
  { left. exists url, path, doc. split_and!; try done.
    by apply (_get_answers_cached X self split url path doc). }
  right. destruct (read_annotations w path) as [annotations_list|] eqn:Hfile.
  - right. exists url, path, annotations_list. split_and!; try done.
    by apply (_get_answers_fresh X self split url path annotations_list).
  - left. exists url, path. split_and!; try done.
    by apply (_get_answers_unreadable X self split url path).
Qed.

(** X9: [_get_answers_by_question_id] changes the world exactly when it
    computed the mapping itself, that is when the split has annotations,
    they can be fetched and read, and the cache holds nothing for them.
    Then it writes, under the key that held nothing, the dump of the
    mapping it returns, which [json.load] reads back to that mapping, and
    changes nothing else.  A call that raises, a call for a split without
    annotations, and a call that finds a cached text leave the world as it
    was; the last returns what [json.load] makes of the cached text. *)
Theorem _get_answers_writes_only_fresh (X : Externals) (self : VQAv2Reader)
    (split : Split) (w : world) :
  let result := _get_answers_by_question_id X self split w in
  let computed url path annotations_list :=
    annotations split = Some url
    /\ cached_path w url = Some path
    /\ cache w !! (url +:+ "-cache", path) = None
    /\ read_annotations w path = Some annotations_list in
  (result.2 <> w <-> exists url path annotations_list, computed url path annotations_list)
  /\ (forall url path annotations_list,
        computed url path annotations_list ->
        let answers := compute_answers_by_question_id X self annotations_list in
        result = (inr answers, write_cache (url +:+ "-cache", path) (json_dump answers) w)
        /\ json_load (json_dump answers) = Some answers
        /\ cache result.2 = <[(url +:+ "-cache", path) := json_dump answers]> (cache w)
        /\ cached_path result.2 = cached_path w
        /\ read_annotations result.2 = read_annotations w
        /\ read_questions result.2 = read_questions w)
  /\ (forall e, result.1 = inl e -> result.2 = w)
  /\ (annotations split = None -> result = (inr [], w))
  /\ (forall url path doc,
        annotations split = Some url ->
        cached_path w url = Some path ->
        cache w !! (url +:+ "-cache", path) = Some doc ->
        result.2 = w
        /\ result.1 = match json_load doc with
                      | Some answers => inr answers
                      | None => inl (ValueError "json.decoder.JSONDecodeError")
                      end).
Proof.
  cbn zeta.
  assert (forall key doc, cache w !! key = None -> write_cache key doc w <> w) as Hwrite.
  { intros key doc Hnone Heq. apply (f_equal (fun w0 => cache w0 !! key)) in Heq.
    simpl in Heq. rewrite lookup_insert_eq in Heq. congruence. }
  destruct (_get_answers_outcome X self split w)
    as [[Hsplit ->]|[(url & Hsplit & Hpath & ->)|[(url & path & doc & Hsplit & Hpath & Hcache & ->)
       |[(url & path & Hsplit & Hpath & Hcache & Hfile & ->)
        |(url & path & annotations_list & Hsplit & Hpath & Hcache & Hfile & ->)]]]];
    cbn [fst snd].
  - split_and!; try done.
    + split; [done|]. intros (? & ? & ? & ? & _). congruence.
    + intros ? ? ? (? & _). congruence.
    + intros ? ? ? ?. congruence.
  - split_and!; try done.
    + split; [done|]. intros (? & ? & ? & ? & ? & _). congruence.
    + intros ? ? ? (? & ? & _). congruence.
    + intros ?. congruence.
    + intros ? ? ? ? ?. congruence.
  - split_and!; try done.
    + split; [done|]. intros (? & ? & ? & ? & ? & ? & _). congruence.
    + intros ? ? ? (? & ? & ? & _). congruence.
    + intros ?. congruence.
    + intros url' path' doc' Hsplit' Hpath' Hcache'.
      assert (url' = url) as -> by congruence.
      assert (path' = path) as -> by congruence.
      assert (doc' = doc) as -> by congruence. done.
  - split_and!; try done.
    + split; [done|]. intros (? & ? & ? & ? & ? & ? & ?). congruence.
    + intros ? ? ? (? & ? & ? & ?). congruence.
    + intros ?. congruence.
    + intros ? ? ? ? ? ?. congruence.
  - split_and!; try done.
    + split; [|by intros _; apply Hwrite]. intros _. by exists url, path, annotations_list.
    + intros url' path' annotations_list' (Hsplit' & Hpath' & _ & Hfile').
      assert (url' = url) as -> by congruence.
      assert (path' = path) as -> by congruence.
      assert (annotations_list' = annotations_list) as -> by congruence.
      split_and!; try done. apply compute_answers_roundtrip.
    + intros ?. congruence.
    + intros ? ? ? ? ? ?. congruence.
Qed.

Lemma cache_grows_refl (w : world) : cache_grows w w.
Proof. unfold cache_grows. split_and!; try done. intros key doc H1 H2. congruence. Qed.

Lemma cache_grows_trans (w1 w2 w3 : world) :
  cache_grows w1 w2 -> cache_grows w2 w3 -> cache_grows w1 w3.
Proof.
  intros (Ha & Hb & Hc & Hkeep & Hnew) (Ha' & Hb' & Hc' & Hkeep' & Hnew').
  unfold cache_grows. split_and!; try congruence.
  - intros key doc H. by apply Hkeep', Hkeep.
  - intros key doc Hnone Hsome.
    destruct (cache w2 !! key) as [doc2|] eqn:E2.
    + apply Hkeep' in E2 as E3. assert (doc2 = doc) as -> by congruence.
      by apply (Hnew key).
    + by apply (Hnew' key).
Qed.

Lemma _get_answers_cache_grows (X : Externals) (self : VQAv2Reader)
    (split : Split) (w : world) :
  cache_grows w (_get_answers_by_question_id X self split w).2.
Proof.
  destruct (_get_answers_outcome X self split w)
    as [[_ ->]|[(url & _ & _ & ->)|[(url & path & doc & _ & _ & _ & ->)
       |[(url & path & _ & _ & _ & _ & ->)
        |(url & path & annotations_list & _ & _ & Hcache & _ & ->)]]]];
    cbn [fst snd]; try apply cache_grows_refl.
  unfold cache_grows. cbn. split_and!; try done.
  - intros key doc Hkey. rewrite lookup_insert_ne; [done|]. intros <-. congruence.
  - intros key doc Hnone. rewrite lookup_insert. case_decide; [|congruence].
    intros [= <-]. rewrite compute_answers_roundtrip. by eexists.
Qed.

Lemma read_split_cache_grows (X : Externals) (self : VQAv2Reader)
    (split_name : string) (w : world) :
  cache_grows w (read_split X self split_name w).2.
Proof.
  rewrite read_split_factor.
  destruct (dict_get _ splits) as [split|]; cbn [snd]; [|apply cache_grows_refl].
  apply _get_answers_cache_grows.
Qed.

(** X10: whatever [_read] is given and however it ends, it leaves the
    files as they were and removes or changes no cache entry; every entry
    it adds is text that [json.load] reads back. *)
Theorem _read_cache_grows (X : Externals) (self : VQAv2Reader)
    (arg : string + list string) (w : world) :
  let w' := (_read X self arg w).2 in
  cached_path w' = cached_path w
  /\ read_annotations w' = read_annotations w
  /\ read_questions w' = read_questions w
  /\ (forall key doc, cache w !! key = Some doc -> cache w' !! key = Some doc)
  /\ (forall key doc, cache w !! key = None -> cache w' !! key = Some doc ->
                      is_Some (json_load doc)).
Proof.
  change (cache_grows w (_read X self arg w).2).
  destruct arg as [split_name|split_names]; [apply read_split_cache_grows|].
  simpl. revert w. induction split_names as [|s rest IH]; intros w; simpl.
  - apply cache_grows_refl.
  - pose proof (read_split_cache_grows X self s w) as Hs.
    destruct (read_split X self s w) as [g w1]. simpl in Hs.
    destruct (raised g); [done|].
    specialize (IH w1). destruct (read_splits X self rest w1) as [g' w2].
    simpl in *. by apply (cache_grows_trans w w1 w2).
Qed.

(** X11: a cached text is returned as it is, whatever the annotations file
    holds by now and whatever the reader's settings: the cache key does
    not include [multiple_answers_per_question], so a reader gets the
    counts that a reader with the other setting has cached. *)
Theorem cache_ignores_reader_settings (X : Externals) (writer reader : VQAv2Reader)
    (split : Split) (url path : string) (annotations_list : list annotation) (w : world) :
  annotations split = Some url ->
  cached_path w url = Some path ->
  cache w !! (url +:+ "-cache", path)
    = Some (json_dump (compute_answers_by_question_id X writer annotations_list)) ->
  _get_answers_by_question_id X reader split w
  = (inr (compute_answers_by_question_id X writer annotations_list), w).
Proof.
  intros Hsplit Hpath Hcache.
  rewrite (_get_answers_cached X reader split url path _ w Hsplit Hpath Hcache).
  by rewrite compute_answers_roundtrip.
Qed.

Lemma cache_ignores_reader_settings_witness :
  let writer := fixture_reader None in
  let reader := {| answer_vocab := None; produce_featurized_images := false; images := ∅;
                   multiple_answers_per_question := false |} in
  let annotations_list := [ {| a_question_id := 1; a_multiple_choice_answer := "yes";
                               a_answers := ["yes"; "no"; "yes"; "yes"] |} ] in
  let w := (_get_answers_by_question_id fixture_externals writer unittest_split
              fixture_world).2 in
  _get_answers_by_question_id fixture_externals reader unittest_split w
  = (inr [("1", [("yes", 3); ("no", 1)])], w)
  /\ compute_answers_by_question_id fixture_externals reader annotations_list
     = [("1", [("yes", 1)])].
Proof.
  intros writer reader annotations_list w. split; [|reflexivity].
  refine (cache_ignores_reader_settings fixture_externals writer reader unittest_split
            "test_fixtures/vision/vqav2/annotations.json"
            "/cache/test_fixtures/vision/vqav2/annotations.json"
            annotations_list w _ _ _); vm_compute; reflexivity.
Defined.

(** X12: the annotation cache is written before the questions are
    fetched: when the questions cannot be fetched, [_read] yields nothing
    and raises, but the freshly computed answer counts stay cached. *)
Theorem _read_caches_before_questions (X : Externals) (self : VQAv2Reader)
    (split_name : string) (w : world) (split : Split) (url path : string)
    (annotations_list : list annotation) :
  dict_get (get_data_slice X split_name).2 splits = Some split ->
  annotations split = Some url ->
  cached_path w url = Some path ->
  cache w !! (url +:+ "-cache", path) = None ->
  read_annotations w path = Some annotations_list ->
  cached_path w (questions split) = None ->
  _read X self (inl split_name) w
  = ({| yielded := []; raised := Some (OSError (questions split)) |},
     write_cache (url +:+ "-cache", path)
       (json_dump (compute_answers_by_question_id X self annotations_list)) w).
Proof.
  intros Hsplit Hurl Hpath Hcache Hfile Hquestions.
  unfold _read. rewrite read_split_factor, Hsplit. cbn zeta.
  rewrite (_get_answers_fresh X self split url path annotations_list) by done.
  cbn [fst snd]. unfold finish_split. cbn [cached_path write_cache].
  by rewrite Hquestions.
Qed.

Lemma _read_caches_before_questions_witness :
  exists doc,
    _read fixture_externals (fixture_reader None) (inl "unittest") fixture_broken_world
    = ({| yielded := [];
          raised := Some (OSError "test_fixtures/vision/vqav2/questions.json") |},
       write_cache ("test_fixtures/vision/vqav2/annotations.json-cache",
                    "/cache/test_fixtures/vision/vqav2/annotations.json")
         doc fixture_broken_world)
    /\ json_load doc = Some [("1", [("yes", 3); ("no", 1)])].
Proof.
  eexists. split.
  - refine (_read_caches_before_questions fixture_externals (fixture_reader None)
              "unittest" fixture_broken_world unittest_split
              "test_fixtures/vision/vqav2/annotations.json"
              "/cache/test_fixtures/vision/vqav2/annotations.json"
              [ {| a_question_id := 1; a_multiple_choice_answer := "yes";
                   a_answers := ["yes"; "no"; "yes"; "yes"] |} ]
              _ _ _ _ _ _); vm_compute; reflexivity.
  - vm_compute. reflexivity.
Defined.

(** X13: the mapping computed from the annotations has one entry per
    distinct question id, under [str] of the id, and no other key; it never
    has more entries than there are annotations, and when no question id
    repeats it lists the annotations' counters in the order of the file. *)
Theorem compute_answers_keys (X : Externals) (self : VQAv2Reader)
    (annotations_list : list annotation) :
  let answers := compute_answers_by_question_id X self annotations_list in
  NoDup (dict_keys answers)
  /\ (forall key, key ∈ dict_keys answers
                  <-> exists a, a ∈ annotations_list /\ key = py_str (a_question_id a))
  /\ (length answers <= length annotations_list)%nat
  /\ (NoDup (map a_question_id annotations_list) ->
      answers = map (fun a => (py_str (a_question_id a), count_answers X self a))
                    annotations_list).
Proof.
  cbn zeta. induction annotations_list as [|a annotations_list IH] using rev_ind.
  - split_and!; try done; [apply NoDup_nil_2|].
    intros key. split; [by intros ?%elem_of_nil | by intros (? & ?%elem_of_nil & _)].
  - destruct IH as (Hnd & Hkeys & Hlen & Horder).
    rewrite compute_answers_snoc.
    set (answers := compute_answers_by_question_id X self annotations_list) in *.
    destruct (decide (py_str (a_question_id a) ∈ dict_keys answers)) as [Hin|Hnotin].
    + split_and!.
      * by apply dict_set_NoDup.
      * intros key. rewrite dict_keys_set_in by done. rewrite Hkeys. split.
        -- intros (a' & Ha' & ->). exists a'. split; [|done].
           apply elem_of_app. by left.
        -- intros (a' & [Ha' | ->%list_elem_of_singleton]%elem_of_app & ->);
             [by exists a' | by apply Hkeys].
      * assert (length (dict_set (py_str (a_question_id a)) (count_answers X self a) answers)
                = length answers) as ->.
        { rewrite <- (length_fmap fst). fold (dict_keys (dict_set (py_str (a_question_id a))
                                                       (count_answers X self a) answers)).
          rewrite dict_keys_set_in by done. unfold dict_keys. by rewrite length_fmap. }
        rewrite length_app. simpl. lia.
      * intros Hids. exfalso. rewrite map_app in Hids. simpl in Hids.
        apply NoDup_app in Hids as (_ & Hdisj & _).
        apply Hkeys in Hin as (a' & Ha' & Heq%py_str_inj).
        apply (Hdisj (a_question_id a)); [|left].
        rewrite Heq. apply list_elem_of_In, in_map, list_elem_of_In. done.
    + rewrite dict_set_fresh by done. split_and!.
      * unfold dict_keys. rewrite fmap_app. apply NoDup_app. split_and!; [done| |].
        -- intros key Hkey ->%list_elem_of_singleton. done.
        -- apply NoDup_singleton.
      * intros key. unfold dict_keys. rewrite fmap_app, elem_of_app. simpl.
        rewrite list_elem_of_singleton. fold (dict_keys answers). rewrite Hkeys. split.
        -- intros [(a' & Ha' & ->) | ->].
           ++ exists a'. split; [|done]. apply elem_of_app. by left.
           ++ exists a. split; [|done]. apply elem_of_app. right. left.
        -- intros (a' & [Ha' | ->%list_elem_of_singleton]%elem_of_app & ->);
             [left; by exists a' | by right].
      * rewrite !length_app. simpl. lia.
      * intros Hids. rewrite map_app in Hids. apply NoDup_app in Hids as (Hids & _ & _).
        rewrite map_app, Horder by done. done.
Qed.

(** ** Image ids *)

Lemma digit_value_range (c : ascii) : is_digit c = true -> 0 <= digit_value c <= 9.
Proof.
  unfold is_digit, digit_value. intros [H1 H2]%andb_true_iff.
  apply Nat.leb_le in H1, H2. lia.
Qed.

Lemma decimal_value_bound (digits : list ascii) :
  forallb is_digit digits = true ->
  0 <= decimal_value digits < 10 ^ Z.of_nat (length digits).
Proof.
  induction digits as [|d digits IH] using rev_ind; intros Hdigits.
  - unfold decimal_value. simpl. lia.
  - rewrite forallb_app in Hdigits. apply andb_true_iff in Hdigits as [Hdigits Hd].
    simpl in Hd. rewrite andb_true_r in Hd.
    rewrite decimal_value_snoc, length_app. simpl.
    replace (Z.of_nat (length digits + 1)) with (Z.succ (Z.of_nat (length digits))) by lia.
    rewrite Z.pow_succ_r by lia.
    pose proof (digit_value_range d Hd). specialize (IH Hdigits). lia.
Qed.

Lemma list_ascii_of_string_app (s1 s2 : string) :
  list_ascii_of_string (s1 +:+ s2) = list_ascii_of_string s1 ++ list_ascii_of_string s2.
Proof. induction s1 as [|c s1 IH]; simpl; [done | by rewrite IH]. Qed.

Lemma list_ascii_of_string_length (s : string) :
  length (list_ascii_of_string s) = String.length s.
Proof. induction s as [|c s IH]; simpl; [done | by rewrite IH]. Qed.

(** X14: an image id read off a file name is a natural number below
    10^12; the file name has at least 16 characters; and putting anything
    without a newline in front of the name (a directory, a data set
    prefix) does not change the id. *)
Theorem id_from_filename_range (filename : string) (n : Z) :
  id_from_filename filename = Some n ->
  0 <= n < 10 ^ 12
  /\ (16 <= String.length filename)%nat
  /\ forall front, newline ∉ list_ascii_of_string front ->
                   id_from_filename (front +:+ filename) = Some n.
Proof.
  intros (before & digits & ext & Hname & Hbefore & Hlen & Hdigits & Hext & ->)
           %id_from_filename_spec.
  split; [|split].
  - pose proof (decimal_value_bound digits Hdigits) as H. rewrite Hlen in H.
    exact H.
  - rewrite <- list_ascii_of_string_length, Hname, !length_app, Hlen. simpl.
    destruct Hext as [-> | ->]; simpl; lia.
  - intros front Hfront. apply id_from_filename_spec.
    exists (list_ascii_of_string front ++ before), digits, ext.
    split_and!; try done.
    + by rewrite list_ascii_of_string_app, Hname, <- app_assoc.
    + rewrite elem_of_app. tauto.
Qed.

Lemma id_from_filename_range_witness :
  id_from_filename "000000000042.jpg" = Some 42
  /\ 0 <= 42 < 10 ^ 12
  /\ (16 <= String.length "000000000042.jpg")%nat
  /\ forall front, newline ∉ list_ascii_of_string front ->
                   id_from_filename (front +:+ "000000000042.jpg") = Some 42.
Proof.
  assert (id_from_filename "000000000042.jpg" = Some 42) as H by (vm_compute; reflexivity).
  split; [exact H|]. exact (id_from_filename_range "000000000042.jpg" 42 H).
Defined.

Lemma matching_fold_last (images0 : list (string * string))
    (m : gmap image_key string) (n : Z) :
  fold_left (fun m item =>
               match id_from_filename item.1 with
               | Some n => <[inr (Some n) := item.2]> m
               | None => m
               end) images0 m !! (inr (Some n) : image_key)
  = match last (List.filter (fun item => bool_decide (id_from_filename item.1 = Some n))
                            images0) with
    | Some item => Some item.2
    | None => m !! (inr (Some n) : image_key)
    end.
Proof.
  revert m. induction images0 as [|[name full_path] images0 IH]; intros m; [done|].
  cbn [fold_left List.filter fst snd]. rewrite IH.
  destruct (id_from_filename name) as [n'|] eqn:E.
  - destruct (decide (n' = n)) as [->|Hne].
    + rewrite bool_decide_true by done. rewrite last_cons.
      destruct (last _) as [item|]; [done|]. by rewrite lookup_insert_eq.
    + rewrite bool_decide_false by congruence.
      destruct (last _) as [item|]; [done|].
      rewrite lookup_insert_ne; [done | congruence].
  - rewrite bool_decide_false by done. done.
Qed.

(** X15: when several file names carry the same image id (the same twelve
    digits behind different prefixes, or with the other extension), the id
    leads to the path of the last of them in the iteration order of
    [self.images]; an id that no file name carries is not a key. *)
Theorem normalize_images_last_wins (images0 : list (string * string)) (n : Z) :
  normalize_images images0 !! (inr (Some n) : image_key)
  = snd <$> last (List.filter (fun item => bool_decide (id_from_filename item.1 = Some n))
                              images0).
Proof.
  rewrite normalize_images_delete, normalize_images_fold, matching_fold_last.
  destruct (last _) as [item|]; [done|].
  rewrite delete_empty. apply lookup_empty.
Qed.

(** ** Construction, further *)

(** X16: [__init__] raises its [ValueError] whenever featurization is asked
    for without an image directory, whatever the base class constructor or
    the vocabulary loading would do.  Otherwise it fails exactly when the
    base class constructor raises or when a vocabulary given by name cannot
    be fetched or loaded, with that exception, and succeeds in every other
    case.  A reader that was constructed keeps the given flags, has no
    answer vocabulary exactly when none was given, and, when it does not
    produce featurized images, has [self.images] keyed by file name, with
    no image-id key at all.  The world is never changed. *)
Theorem init_outcome (X : Externals)
    (super__init__ : option string -> exn + VisionReaderState)
    (from_files : string -> exn + list string) (image_dir : option string)
    (run_featurization : bool) (vocabulary : option (string + list string))
    (multiple : bool) (w : world) :
  let result := __init__ X super__init__ from_files image_dir run_featurization
                  vocabulary multiple w in
  let guard := image_dir = None /\ run_featurization = true in
  result.2 = w
  /\ (guard -> exists msg, result.1 = inl (ValueError msg))
  /\ (~ guard ->
      forall e,
        result.1 = inl e
        <-> super__init__ image_dir = inl e
            \/ exists super location,
                 super__init__ image_dir = inr super
                 /\ vocabulary = Some (inl location)
                 /\ (cached_path w location = None /\ e = OSError location
                     \/ exists path,
                          cached_path w location = Some path /\ from_files path = inl e))
  /\ (forall self,
        result.1 = inr self ->
        ~ guard
        /\ exists super,
             super__init__ image_dir = inr super
             /\ multiple_answers_per_question self = multiple
             /\ produce_featurized_images self = super_produce_featurized_images super
             /\ (answer_vocab self = None <-> vocabulary = None)
             /\ (super_produce_featurized_images super = false ->
                 (forall id, images self !! (inr id : image_key) = None)
                 /\ (NoDup (super_images super).*1 ->
                     forall name full_path,
                       images self !! (inl name : image_key) = Some full_path
                       <-> (name, full_path) ∈ super_images super))).
Proof.
  cbn zeta.
  destruct (init_outcome_cases X super__init__ from_files image_dir run_featurization
              vocabulary multiple w) as [Hworld Hcases].
  cbn zeta in Hcases. split; [exact Hworld|]. clear Hworld.
  destruct Hcases as [(Hdir & Hrun & msg & Hres)|[(Hno & e0 & Hsuper & Hres)
    |[(Hno & super & location & Hsuper & Hvocab & Hpath & Hres)
     |[(Hno & super & location & path & e0 & Hsuper & Hvocab & Hpath & Hload & Hres)
      |(Hno & super & keys & self0 & Hsuper & Hkeys & Hres & Hav & Hprod & Himages
        & Hmult)]]]];
    rewrite Hres.
  - split_and!.
    + intros _. by exists msg.
    + intros Hno. by destruct Hno.
    + intros self [=].
  - split_and!.
    + intros Hguard. by destruct Hno.
    + intros _ e. split.
      * intros [= <-]. by left.
      * intros [Hl|(super & location & Hs & _)]; congruence.
    + intros self [=].
  - split_and!.
    + intros Hguard. by destruct Hno.
    + intros _ e. split.
      * intros [= <-]. right. exists super, location. split_and!; try done. by left.
      * intros [Hl|(super' & location' & _ & Hv & [[_ ->]|(path & Hp & _)])];
          congruence.
    + intros self [=].
  - split_and!.
    + intros Hguard. by destruct Hno.
    + intros _ e. split.
      * intros [= <-]. right. exists super, location. split_and!; try done.
        right. by exists path.
      * intros [Hl|(super' & location' & _ & Hv & [[Hp _]|(path' & Hp & Hl)])];
          congruence.
    + intros self [=].
  - split_and!.
    + intros Hguard. by destruct Hno.
    + intros _ e. split; [done|].
      intros [Hl|(super' & location' & _ & Hv & Hfail)]; [congruence|].
      subst vocabulary. destruct Hkeys as (path & loaded & Hp & Hl & _).
      destruct Hfail as [[Hp' _]|(path' & Hp' & Hl')]; congruence.
    + intros self [= <-]. split; [exact Hno|]. exists super.
      split_and!; try done.
      * rewrite Hav. destruct vocabulary as [[location|given]|].
        -- destruct Hkeys as (? & ? & _ & _ & ->). done.
        -- by subst keys.
        -- by subst keys.
      * intros Hoff. rewrite Himages, Hoff. change (map ?f ?l) with (f <$> l). split.
        -- intros id. apply not_elem_of_list_to_map_1. rewrite <- list_fmap_compose.
           intros (item & [=] & _)%list_elem_of_fmap.
        -- intros Hnd name full_path. rewrite <- elem_of_list_to_map.
           ++ rewrite list_elem_of_fmap. split.
              ** intros ([name' path'] & [= -> ->] & Hin). exact Hin.
              ** intros Hin. by exists (name, full_path).
           ++ rewrite <- list_fmap_compose.
              assert (((fst ∘ (fun item : string * string =>
                                 (inl item.1 : image_key, item.2)))
                         <$> super_images super)
                      = (inl : string -> image_key) <$> (super_images super).*1) as ->.
              { by rewrite <- list_fmap_compose. }
              apply NoDup_fmap_2; [|done]. by intros ? ? [= ->].
Qed.

(** ** The loop's bookkeeping *)

Lemma warning_due_spec (attempted failed : Z) :
  0 < attempted ->
  warning_due attempted failed = true
  <-> attempted mod 2000 = 0 /\ attempted < 10 * failed.
Proof.
  intros Hpos. unfold warning_due.
  rewrite andb_true_iff, Z.eqb_eq, negb_true_iff.
  assert (Qle_bool (true_div failed attempted) (1 # 10) = false
          <-> attempted < 10 * failed) as ->; [|done].
  destruct attempted as [|p|p]; try lia.
  assert ((true_div failed (Z.pos p) <= 1 # 10)%Q <-> 10 * failed <= Z.pos p) as Hle.
  { unfold true_div, Qle, Qdiv, Qmult, Qinv, inject_Z. simpl. lia. }
  destruct (Qle_bool (true_div failed (Z.pos p)) (1 # 10)) eqn:E.
  - apply Qle_bool_iff, Hle in E. split; [done | lia].
  - split; [intros _ | done].
    destruct (Z_lt_le_dec (Z.pos p) (10 * failed)) as [|Hge]; [done|].
    apply Hle, Qle_bool_iff in Hge. congruence.
Qed.

Lemma read_loop_logged_spec (X : Externals) (self : VQAv2Reader)
    (answers : list (string * list (string * Z)))
    (pairs : list (question_dict * option (processed_image (tensor X))))
    (log : loop_log) :
  0 <= failed_instances_count log <= attempted_instances_count log ->
  let result := read_loop_logged X self answers pairs log in
  result.1 = read_loop X self answers pairs
  /\ attempted_instances_count result.2
     = attempted_instances_count log + Z.of_nat (length pairs)
  /\ failed_instances_count result.2 + Z.of_nat (length result.1)
     = failed_instances_count log + Z.of_nat (length pairs)
  /\ exists new,
       warnings result.2 = warnings log ++ new
       /\ forall failed attempted, (failed, attempted) ∈ new ->
            attempted_instances_count log < attempted
              <= attempted_instances_count log + Z.of_nat (length pairs)
            /\ attempted mod 2000 = 0
            /\ attempted < 10 * failed
            /\ failed <= attempted.
Proof.
  revert log. induction pairs as [|[q processed] pairs IH]; intros log Hlog.
  - cbn. split_and!; try lia; [done|]. exists []. split; [by rewrite app_nil_r|].
    by intros ? ? ?%elem_of_nil.
  - cbn [read_loop_logged read_loop].
    set (inst := text_to_instance X self (question q) (inr <$> processed)
                   (dict_get (py_str (question_id q)) answers) true).
    set (attempted' := attempted_instances_count log + 1).
    set (failed' := match inst with
                    | None => failed_instances_count log + 1
                    | Some _ => failed_instances_count log
                    end).
    set (log' := {| attempted_instances_count := attempted';
                    failed_instances_count := failed';
                    warnings := if warning_due attempted' failed'
                                then warnings log ++ [(failed', attempted')]
                                else warnings log |}).
    assert (0 <= failed' <= attempted') as Hlog'.
    { unfold failed', attempted'. destruct inst; lia. }
    specialize (IH log' Hlog'). cbn zeta in IH.
    destruct (read_loop_logged X self answers pairs log') as [rest final].
    cbn [fst snd] in *. destruct IH as (Hrest & Hattempted & Hfailed & new & Hwarn & Hnew).
    cbn [attempted_instances_count failed_instances_count warnings log'] in *.
    split_and!.
    + rewrite <- Hrest. by destruct inst.
    + rewrite Hattempted. unfold attempted'. cbn [length]. lia.
    + unfold failed', attempted' in *. cbn [length]. destruct inst; cbn [length]; lia.
    + destruct (warning_due attempted' failed') eqn:Hdue.
      * exists ((failed', attempted') :: new). split.
        { rewrite Hwarn, <- app_assoc. done. }
        intros failed attempted [[= -> ->]|Hin]%elem_of_cons.
        -- apply warning_due_spec in Hdue as [Hmod Hfrac]; [|unfold attempted'; lia].
           unfold attempted' in *. cbn [length]. lia.
        -- destruct (Hnew failed attempted Hin) as (? & ? & ? & ?).
           unfold attempted' in *. cbn [length]. lia.
      * exists new. split; [done|].
        intros failed attempted Hin.
        destruct (Hnew failed attempted Hin) as (? & ? & ? & ?).
        unfold attempted' in *. cbn [length]. lia.
Qed.

(** X17: the final loop of [_read] attempts every question once: at its
    end the number of attempts is the number of questions, and the number
    of failures plus the number of instances yielded is the number of
    attempts.  A warning is logged only right after an attempt whose number
    is a multiple of 2000, and only if more than a tenth of the attempts so
    far failed; with fewer than 2000 questions nothing is logged. *)
Theorem read_loop_bookkeeping (X : Externals) (self : VQAv2Reader)
    (answers : list (string * list (string * Z)))
    (pairs : list (question_dict * option (processed_image (tensor X)))) :
  let result := read_loop_logged X self answers pairs fresh_log in
  result.1 = read_loop X self answers pairs
  /\ attempted_instances_count result.2 = Z.of_nat (length pairs)
  /\ failed_instances_count result.2 + Z.of_nat (length result.1)
     = attempted_instances_count result.2
  /\ (forall failed attempted, (failed, attempted) ∈ warnings result.2 ->
        0 < attempted <= Z.of_nat (length pairs)
        /\ attempted mod 2000 = 0
        /\ attempted < 10 * failed
        /\ failed <= attempted)
  /\ ((length pairs < 2000)%nat -> warnings result.2 = []).
Proof.
  cbn zeta.
  destruct (read_loop_logged_spec X self answers pairs fresh_log)
    as (Hys & Hattempted & Hfailed & new & Hwarn & Hnew); [simpl; lia|].
  cbn [fresh_log attempted_instances_count failed_instances_count warnings app] in *.
  assert (forall failed attempted, (failed, attempted) ∈ new ->
            0 < attempted <= Z.of_nat (length pairs)
            /\ attempted mod 2000 = 0 /\ attempted < 10 * failed /\ failed <= attempted)
    as Hall.
  { intros failed attempted Hin. destruct (Hnew failed attempted Hin) as (? & ? & ? & ?).
    split_and!; lia. }
  split_and!; try done; try lia.
  - by rewrite Hwarn.
  - intros Hshort. rewrite Hwarn. destruct new as [|[failed attempted] new]; [done|].
    destruct (Hall failed attempted) as ([Hpos Hle] & Hmod & _); [left|].
    exfalso. apply Z.mod_divide in Hmod as [k Hk]; lia.
Qed.

(** ** Reading lists of splits, further *)

Lemma chain_empty_r {A} (g : generated A) : chain g empty_generator = g.
Proof.
  unfold chain. destruct g as [ys [e|]]; simpl; [done|]. by rewrite app_nil_r.
Qed.

Lemma chain_assoc {A} (g1 g2 g3 : generated A) :
  chain (chain g1 g2) g3 = chain g1 (chain g2 g3).
Proof.
  unfold chain. destruct g1 as [ys1 [e1|]], g2 as [ys2 [e2|]]; simpl; try done.
  by rewrite app_assoc.
Qed.

(** X18: a list with one split name is read like the name itself, and a
    list that is two lists joined is read as the first list followed, if
    the first did not raise, by the second on the file system and cache the
    first left behind. *)
Theorem _read_list_append (X : Externals) (self : VQAv2Reader)
    (split_name : string) (first second : list string) (w : world) :
  _read X self (inr [split_name]) w = _read X self (inl split_name) w
  /\ _read X self (inr (first ++ second)) w
     = (let r1 := _read X self (inr first) w in
        match raised r1.1 with
        | Some _ => r1
        | None =>
            let r2 := _read X self (inr second) r1.2 in
            (chain r1.1 r2.1, r2.2)
        end).
Proof.
  split.
  - simpl. destruct (read_split X self split_name w) as [g w1].
    destruct (raised g) eqn:E; [done|]. by rewrite chain_empty_r.
  - simpl. revert w. induction first as [|s first IH]; intros w.
    + simpl. destruct (read_splits X self second w) as [g w1]. simpl.
      f_equal. unfold chain. simpl. by destruct g.
    + cbn [app read_splits].
      destruct (read_split X self s w) as [g w1].
      destruct (raised g) as [e|] eqn:E; [by cbn; rewrite E|].
      rewrite (IH w1). destruct (read_splits X self first w1) as [g1 w2].
      cbn [fst snd].
      destruct (raised g1) as [e1|] eqn:E1.
      * cbn [fst snd]. unfold chain at 2. by rewrite E, E1.
      * destruct (read_splits X self second w2) as [g2 w3]. cbn [fst snd].
        unfold chain at 3. rewrite E. cbn [raised]. rewrite E1.
        by rewrite chain_assoc.
Qed.
